(** * neural_sp: decoding engine, hard monotonic attention, hierarchical CTC

    A shallow embedding of

      - [neural_sp/models/modules/mocha.py]        (module [MoChA]),
      - [models/pytorch/ctc/hierarchical_ctc.py]   (module [HierarchicalCTC]),
      - [neural_sp/models/seq2seq/decoders/transformer.py]
                                                   (module [TransformerDecoder]).

    Conventions of the embedding.

      - A tensor of reals is a [list Q] (one row) or a list of rows; its
        entries are exact rationals, so the rounding of the float
        arithmetic of torch is outside the model.
      - The neural layers, [torch.sigmoid], [torch.log]/[torch.softmax],
        the warp-ctc loss, the CTC prefix scorer and the language models
        are opaque collaborators: they are [Variable]s of the sections.
      - A Python exception is a value [Raise e] of the type [result].
      - torch fixes no order among equal values, neither for [topk] nor
        for [argmax]; the model puts the lower position first, and a
        statement that depends on the position assumes a row without
        ties.
      - The shapes of tensors are modelled where the code depends on
        them: [beam_search] assigns the tensor of the root hypothesis,
        which has one row per utterance, to one row, so that only a batch
        of one utterance gets past the first step. *)

From Stdlib Require Import String.
From Stdlib Require Import List Bool Arith ZArith QArith Qabs Qround Lia Lqa.
From Stdlib Require Import Permutation Sorted.
Import ListNotations.

(** ** Exceptions *)

Inductive Exn : Type :=
| AssertionError
| IndexError
| RuntimeError
| TypeError
| ValueError
| UnboundLocalError.

Inductive result (A : Type) : Type :=
| Ok (a : A)
| Raise (e : Exn).

Arguments Ok {A} a.
Arguments Raise {A} e.

Definition bind {A B : Type} (m : result A) (f : A -> result B) : result B :=
  match m with
  | Ok a => f a
  | Raise e => Raise e
  end.

Declare Scope result_scope.
Delimit Scope result_scope with result.
Notation "x <- m ;; k" := (bind m (fun x => k))
  (at level 61, m at next level, right associativity) : result_scope.
Notation "' p <- m ;; k" := (bind m (fun x => match x with p => k end))
  (at level 61, p pattern, m at next level, right associativity) : result_scope.

(** [assert c] of Python. *)
Definition assert (c : bool) : result unit :=
  if c then Ok tt else Raise AssertionError.

(** [l[i]] on a Python list or a tensor row. *)
Definition index {A : Type} (l : list A) (i : nat) : result A :=
  match nth_error l i with
  | Some x => Ok x
  | None => Raise IndexError
  end.

Fixpoint mapM {A B : Type} (f : A -> result B) (l : list A) : result (list B) :=
  match l with
  | [] => Ok []
  | x :: r =>
      match f x with
      | Ok y => match mapM f r with
                | Ok ys => Ok (y :: ys)
                | Raise e => Raise e
                end
      | Raise e => Raise e
      end
  end.

(** ** Rows of rationals *)

Definition Qlt_bool (a b : Q) : bool := negb (Qle_bool b a).

Fixpoint zip_with {A B C : Type} (f : A -> B -> C) (l : list A) (m : list B)
  : list C :=
  match l, m with
  | a :: l', b :: m' => f a b :: zip_with f l' m'
  | _, _ => []
  end.

(** [torch.cumsum(x, dim=1)] on one row: [y0 = x0], [y(i+1) = y(i) + x(i+1)]. *)
Fixpoint cumsum_from (acc : Q) (x : list Q) : list Q :=
  match x with
  | [] => []
  | a :: r => (acc + a) :: cumsum_from (acc + a) r
  end.

Definition cumsum (x : list Q) : list Q :=
  match x with
  | [] => []
  | a :: r => a :: cumsum_from a r
  end.

(** [torch.cumprod(x, dim=1)] on one row. *)
Fixpoint cumprod_from (acc : Q) (x : list Q) : list Q :=
  match x with
  | [] => []
  | a :: r => (acc * a) :: cumprod_from (acc * a) r
  end.

Definition cumprod (x : list Q) : list Q :=
  match x with
  | [] => []
  | a :: r => a :: cumprod_from a r
  end.

(** ** mocha.py *)

Module MoChA.

(** [exclusive_cumprod]: [[a, b, c] => [1, a, a * b]], that is
    [cumprod(cat([ones(1), x[:-1]]))]. *)
Definition exclusive_cumprod (x : list Q) : list Q :=
  cumprod (1 :: removelast x).

(** The row [[0,..,0,1,0,..,0]] of length [n] with its [1] at position [i]. *)
Definition one_hot (n i : nat) : list Q :=
  repeat 0 i ++ 1 :: repeat 0 (n - S i).

Definition zeros (n : nat) : list Q := repeat 0 n.

Section Hard.

(** [torch.sigmoid], entrywise. *)
Variable sigmoid : Q -> Q.

(** [(emit_probs >= 0.5).float()] *)
Definition threshold (emit_probs : list Q) : list Q :=
  map (fun p => if Qle_bool (1 # 2) p then 1 else 0) emit_probs.

(** The branch [mode == 'hard'] of [MoChA.forward], for one batch row:
    [e_mono] is the row of monotonic energies, [aw_prev] the row of
    [aw_prev.squeeze(2)]. *)
Definition hard_alpha (e_mono aw_prev : list Q) : list Q :=
  let emit_probs := map sigmoid e_mono in
  let p_choose_i := threshold emit_probs in
  let p_choose_i := zip_with Qmult p_choose_i (cumsum aw_prev) in
  zip_with Qmult p_choose_i
    (exclusive_cumprod (map (fun p => 1 - p) p_choose_i)).

(** The default of [aw_prev is None]: [[1, 0, 0 ... 0]]. *)
Definition default_aw_prev (klen : nat) : list Q :=
  match klen with
  | O => []
  | S k => 1 :: repeat 0 k
  end.

(** [alpha] of [MoChA.forward(..., mode='hard')] for the whole batch:
    [e_mono] is [self.monotonic_energy(key, query, mask)], of shape
    [[B, klen]]. *)
Definition forward_hard (e_mono : list (list Q))
  (aw_prev : option (list (list Q))) : list (list Q) :=
  let aw_prev :=
    match aw_prev with
    | Some aw => aw
    | None => map (fun e => default_aw_prev (length e)) e_mono
    end in
  zip_with hard_alpha e_mono aw_prev.

(** The first frame at or after frame [i] whose emission probability
    reaches one half. *)
Fixpoint first_emit (emit_probs : list Q) (i : nat) (pos : nat) : option nat :=
  match emit_probs with
  | [] => None
  | p :: r =>
      if (i <=? pos)%nat && Qle_bool (1 # 2) p then Some pos
      else first_emit r i (S pos)
  end.

Definition expected_alpha (e_mono : list Q) (i : nat) : list Q :=
  match first_emit (map sigmoid e_mono) i 0 with
  | Some j => one_hot (length e_mono) j
  | None => zeros (length e_mono)
  end.

End Hard.

(** [NEG_INF = float(np.finfo(np.float32).min)], the most negative finite
    single-precision number, [- (2^128 - 2^104)]. *)
Definition NEG_INF : Q :=
  inject_Z (- (2 ^ 128 - 2 ^ 104)).

(** [exclusive_cumsum]: [[a, b, c] => [0, a, a + b]], that is
    [cumsum(cat([zeros(1), x[:-1]]))]. *)
Definition exclusive_cumsum (x : list Q) : list Q :=
  cumsum (0 :: removelast x).

(** [F.pad(x, pad=[back, forward])] on one row. *)
Definition pad (x : list Q) (back forward : nat) : list Q :=
  repeat 0 back ++ x ++ repeat 0 forward.

(** The sum of the products of two rows, entry by entry. *)
Definition dot (x w : list Q) : Q :=
  fold_right Qplus 0 (zip_with Qmult x w).

(** [F.conv1d(x, filters)] for one input and one output channel, stride 1,
    no padding, no bias: entry [i] of the output is the sum of
    [x[i + k] * filters[k]].  A filter longer than the input is a runtime
    error of torch. *)
Definition conv1d (x filters : list Q) : result (list Q) :=
  if (length filters <=? length x)%nat then
    Ok (map (fun i => dot (firstn (length filters) (skipn i x)) filters)
          (seq 0 (length x + 1 - length filters)))
  else Raise RuntimeError.

(** [moving_sum(x, back, forward)] on one row; [back] and [forward] are
    not negative at any call. *)
Definition moving_sum (x : list Q) (back forward : nat) : result (list Q) :=
  let x_padded := pad x back forward in
  let filters := repeat 1 (back + forward + 1) in
  conv1d x_padded filters.

(** [torch.clamp(x, min=m)] on one entry. *)
Definition clamp_min (x m : Q) : Q := if Qlt_bool x m then m else x.

(** [torch.max(e, dim=1)[0]] on one row. *)
Definition row_max (e : list Q) : result Q :=
  match e with
  | [] => Raise RuntimeError
  | x :: r => Ok (fold_left (fun m y => if Qlt_bool m y then y else m) r x)
  end.

Section Chunkwise.

(** [torch.exp], entrywise. *)
Variable exp : Q -> Q.

(** [softmax_exp] of [efficient_chunkwise_attention]: the energies shifted
    by their maximum, exponentiated and clamped from below. *)
Definition softmax_exp (e : list Q) : result (list Q) :=
  (m <- row_max e ;;
   let e := map (fun x => x - m) e in
   Ok (map (fun x => clamp_min (exp x) (1 # 100000)) e))%result.

(** [efficient_chunkwise_attention(alpha, e, chunk_size, sharpening_factor)]
    for one batch row; [alpha] and [e] are rows of the same length, and
    [chunk_size] is at least 1 at every call ([MoChA.forward] calls it
    under [self.chunk_size > 1]). *)
Definition efficient_chunkwise_attention (alpha e : list Q)
  (chunk_size : nat) (sharpening_factor : Q) : result (list Q) :=
  (softmax_exp <- softmax_exp e ;;
   softmax_denominators <- moving_sum softmax_exp (chunk_size - 1) 0 ;;
   s <- moving_sum
          (zip_with Qdiv (map (fun a => a * sharpening_factor) alpha)
             softmax_denominators)
          0 (chunk_size - 1) ;;
   Ok (zip_with Qmult softmax_exp s))%result.

End Chunkwise.

Section Recursive.

Variable sigmoid : Q -> Q.

(** [add_gaussian_noise(xs, std)]: [noise] is the sample that
    [normal_(std=std)] draws, of the shape of [xs]. *)
Definition add_gaussian_noise (xs noise : list Q) : list Q :=
  zip_with Qplus xs noise.

(** The loop [for j in range(klen)] of the branch [mode == 'recursive']:
    from [q[j]] the entries [q[j + 1], q[j + 2], ...], with
    [q[j + 1] = shifted_1mp_choose_i[j] * q[j] + aw_prev[j]]. *)
Fixpoint recursive_q (q : Q) (shifted_1mp_choose_i aw_prev : list Q)
  : list Q :=
  match shifted_1mp_choose_i, aw_prev with
  | s :: shifted', a :: aw_prev' =>
      let q' := s * q + a in
      q' :: recursive_q q' shifted' aw_prev'
  | _, _ => []
  end.

(** [alpha] of the branch [mode == 'recursive'] from [p_choose_i], for one
    batch row. *)
Definition recursive_alpha (p_choose_i aw_prev : list Q) : list Q :=
  let shifted_1mp_choose_i :=
    1 :: map (fun p => 1 - p) (removelast p_choose_i) in
  let q := 0 :: recursive_q 0 shifted_1mp_choose_i aw_prev in
  zip_with Qmult p_choose_i (tl q).

(** The branch [mode == 'recursive'] of [MoChA.forward] for one batch row;
    [aw_prev[:, j, 0]] beyond the end of [aw_prev] is an index error. *)
Definition forward_recursive (e_mono noise aw_prev : list Q)
  : result (list Q) :=
  let p_choose_i := map sigmoid (add_gaussian_noise e_mono noise) in
  if (length p_choose_i <=? length aw_prev)%nat
  then Ok (recursive_alpha p_choose_i aw_prev)
  else Raise IndexError.

End Recursive.

(** [torch.argmax(alpha, dim=1)] on one row: the first position of the
    largest entry. *)
Fixpoint argmax_from (i : nat) (row : list Q) : option (nat * Q) :=
  match row with
  | [] => None
  | x :: r =>
      match argmax_from (S i) r with
      | None => Some (i, x)
      | Some (j, y) => if Qle_bool y x then Some (i, x) else Some (j, y)
      end
  end.

Definition argmax (row : list Q) : result nat :=
  match argmax_from 0 row with
  | Some (i, _) => Ok i
  | None => Raise RuntimeError
  end.

Section Adaptive.

Variable exp : Q -> Q.

(** [efficient_adaptive_chunkwise_attention] for one batch row [b]:
    [chunk_len_dist] is the row [chunk_len_dist[b]] of chunk lengths, whose
    entries are at least 1 at every call ([MoChA.forward] adds 1 to a
    count that is not negative). *)
Definition efficient_adaptive_chunkwise_attention (alpha e : list Q)
  (chunk_len_dist : list nat) (sharpening_factor : Q) : result (list Q) :=
  (softmax_exp <- softmax_exp exp e ;;
   boundary <- argmax alpha ;;
   chunk_len <- index chunk_len_dist boundary ;;
   softmax_denominators <- moving_sum softmax_exp (chunk_len - 1) 0 ;;
   s <- moving_sum
          (zip_with Qdiv (map (fun a => a * sharpening_factor) alpha)
             softmax_denominators)
          0 (chunk_len - 1) ;;
   Ok (zip_with Qmult softmax_exp s))%result.

End Adaptive.

(** [torch.bmm(w.unsqueeze(1), value)] for one batch row: the sum of the
    rows of [value], each weighted by its entry of [w]; [value_dim] is the
    width of [value]. *)
Definition context_vector (w : list Q) (value : list (list Q))
  (value_dim : nat) : list Q :=
  map (fun d => dot w (map (fun row => nth d row 0) value)) (seq 0 value_dim).

Section HardContext.

Variable sigmoid : Q -> Q.

(** [MoChA.forward(..., mode='hard')] of a model with [chunk_size == 1],
    for one batch row, from the monotonic energies on: [(cv, alpha)]. *)
Definition forward_hard_cv (e_mono aw_prev : list Q)
  (value : list (list Q)) (value_dim : nat) : list Q * list Q :=
  let alpha := hard_alpha sigmoid e_mono aw_prev in
  (context_vector alpha value value_dim, alpha).

End HardContext.

(** *** The class [Energy] *)

Section EnergyFunction.

(** The key tensor, the query tensor and the projected key
    [self.w_key(key)] (after [relu(conv1d(key))] when the layer has a
    convolution). *)
Variables Key Query ProjKey : Type.
Variable w_key : Key -> ProjKey.

(** [self.v(torch.relu(self.key + self.w_query(query))).squeeze(-1)], plus
    [self.r] when the layer has an offset: the rows [[B, klen]]. *)
Variable v : ProjKey -> Query -> list (list Q).

(** The fields [key] and [mask] of the object. *)
Record Energy : Type := {
  key : option ProjKey;
  mask : option (list (list Z))
}.

(** [Energy.reset] *)
Definition reset (self : Energy) : Energy :=
  {| key := None; mask := None |}.

(** [energy.masked_fill_(mask == 0, NEG_INF)] for a mask of the shape of
    [energy]. *)
Definition masked_fill (energy : list (list Q)) (mask : list (list Z))
  : list (list Q) :=
  zip_with (zip_with (fun e m => if (m =? 0)%Z then NEG_INF else e))
    energy mask.

(** [Energy.forward]: the object afterwards and the energy. *)
Definition energy_forward (self : Energy) (key' : Key) (query : Query)
  (mask' : option (list (list Z))) (cache : bool)
  : Energy * list (list Q) :=
  let self :=
    match key self with
    | Some _ =>
        if negb cache then {| key := Some (w_key key'); mask := mask' |}
        else self
    | None => {| key := Some (w_key key'); mask := mask' |}
    end in
  let energy :=
    match key self with
    | Some k => v k query
    | None => []
    end in
  let energy :=
    match mask self with
    | Some m => masked_fill energy m
    | None => energy
    end in
  (self, energy).

(** [alpha] of [MoChA.forward(..., mode='hard')] with the layer of the
    monotonic energy in front: the layer afterwards and the rows of
    [alpha]. *)
Definition forward_hard_alpha (sigmoid : Q -> Q) (monotonic_energy : Energy)
  (key' : Key) (query : Query) (mask' : option (list (list Z)))
  (aw_prev : option (list (list Q))) (cache : bool)
  : Energy * list (list Q) :=
  let '(monotonic_energy, e_mono) :=
    energy_forward monotonic_energy key' query mask' cache in
  (monotonic_energy, forward_hard sigmoid e_mono aw_prev).

End EnergyFunction.

Arguments key {ProjKey}.
Arguments mask {ProjKey}.
Arguments reset {ProjKey}.
Arguments energy_forward {Key Query ProjKey}.
Arguments forward_hard_alpha {Key Query ProjKey}.

End MoChA.

(** ** hierarchical_ctc.py *)

Module HierarchicalCTC.

(** [x[perm_indices]]: the rows of [x] in the order of [perm_indices]. *)
Definition take {A : Type} (x : list A) (perm_indices : list nat)
  : result (list A) :=
  mapM (index x) perm_indices.

Section Forward.

(** Acoustic features and logits are tensors the model only hands on. *)
Variables Inputs Logits : Type.

(** [self._encode(inputs, inputs_seq_len, volatile)], the encoder and the
    two output layers: [(logits, logits_sub, perm_indices)]. *)
Variable _encode : Inputs -> list Z -> bool -> Logits * Logits * list nat.

(** [logits.size()[:2]]: [(max_time, batch_size)]. *)
Variable size : Logits -> Z * Z.

(** [logits /= self.logits_temperature] *)
Variable div_temperature : Logits -> Q -> Logits.

(** [_concatenate_labels] of [models/pytorch/ctc/ctc.py], which is not
    among the sources: the labels of the batch and their lengths give
    the one-dimensional label tensor of warp-ctc. *)
Variable _concatenate_labels : list (list Z) -> list Z -> list Z.

(** [CTCLoss()] of [warpctc_pytorch], applied to
    [(logits, labels, input lengths, label lengths)]. *)
Variable ctc_loss_fn : Logits -> list Z -> list Z -> list Z -> Q.

Record Self : Type := {
  main_loss_weight : Q;
  logits_temperature : Q
}.

(** [labels + 1] on a [[B, T_out]] tensor of labels. *)
Definition plus_one (labels : list (list Z)) : list (list Z) :=
  map (map (fun y => (y + 1)%Z)) labels.

(** [HierarchicalCTC.forward] *)
Definition forward (self : Self) (inputs : Inputs)
  (labels labels_sub : list (list Z))
  (inputs_seq_len labels_seq_len labels_seq_len_sub : list Z)
  (volatile : bool) : result (Q * Q * Q) :=
  let _labels := plus_one labels in
  let _labels_sub := plus_one labels_sub in
  (* NOTE: index 0 is reserved for blank *)
  let '(logits, logits_sub, perm_indices) :=
    _encode inputs inputs_seq_len volatile in
  (_labels <- take _labels perm_indices ;;
   _labels_sub <- take _labels_sub perm_indices ;;
   inputs_seq_len <- take inputs_seq_len perm_indices ;;
   labels_seq_len <- take labels_seq_len perm_indices ;;
   labels_seq_len_sub <- take labels_seq_len_sub perm_indices ;;
   let '(max_time, batch_size) := size logits in
   let concatenated_labels := _concatenate_labels _labels labels_seq_len in
   let concatenated_labels_sub :=
     _concatenate_labels _labels_sub labels_seq_len_sub in
   let '(logits, logits_sub) :=
     if Qeq_bool (logits_temperature self) 1 then (logits, logits_sub)
     else (div_temperature logits (logits_temperature self),
           div_temperature logits_sub (logits_temperature self)) in
   let loss_main :=
     ctc_loss_fn logits concatenated_labels inputs_seq_len labels_seq_len in
   let loss_sub :=
     ctc_loss_fn logits_sub concatenated_labels_sub inputs_seq_len
       labels_seq_len_sub in
   let loss :=
     loss_main * main_loss_weight self
     + loss_sub * (1 - main_loss_weight self) in
   let loss := loss / inject_Z batch_size in
   Ok (loss,
       loss_main * main_loss_weight self / inject_Z batch_size,
       loss_sub * (1 - main_loss_weight self) / inject_Z batch_size))%result.

End Forward.

End HierarchicalCTC.

(** ** transformer.py *)

Module TransformerDecoder.

(** *** Sorting and selection *)

(** [sorted(l, key=key, reverse=True)]: a stable sort by decreasing key;
    elements with equal keys keep the order they have in [l]. *)
Fixpoint insert_desc {A : Type} (key : A -> Q) (a : A) (l : list A) : list A :=
  match l with
  | [] => [a]
  | b :: r => if Qle_bool (key b) (key a) then a :: l
              else b :: insert_desc key a r
  end.

Fixpoint sorted_desc {A : Type} (key : A -> Q) (l : list A) : list A :=
  match l with
  | [] => []
  | a :: r => insert_desc key a (sorted_desc key r)
  end.

(** [torch.topk(row, k, largest=True, sorted=True)] on one row: the [k]
    largest values and their positions, largest first.  torch fixes no
    order among equal values; the model puts the lower position first,
    which is one of the orders torch may give, and a statement that needs
    the position torch picks assumes a row without ties.  [k] beyond the
    length of the row is a runtime error of torch. *)
Definition topk (k : nat) (row : list Q) : result (list Q * list nat) :=
  if (k <=? length row)%nat then
    let ids :=
      firstn k (sorted_desc (fun i => nth i row 0) (seq 0 (length row))) in
    Ok (map (fun i => nth i row 0) ids, ids)
  else Raise RuntimeError.

(** [row.argmax(-1)]: the first position of the largest value (the only
    position, in a row without ties). *)
Fixpoint argmax_from (i : nat) (row : list Q) : option (nat * Q) :=
  match row with
  | [] => None
  | x :: r =>
      match argmax_from (S i) r with
      | None => Some (i, x)
      | Some (j, y) => if Qle_bool y x then Some (i, x) else Some (j, y)
      end
  end.

Definition argmax (row : list Q) : result nat :=
  match argmax_from 0 row with
  | Some (i, _) => Ok i
  | None => Raise RuntimeError
  end.

(** [row.max(0)[0]]: the largest value of a row; a row without elements
    is a runtime error of torch. *)
Definition tensor_max (row : list Q) : result Q :=
  match row with
  | [] => Raise RuntimeError
  | x :: r => Ok (fold_left (fun m y => if Qlt_bool m y then y else m) r x)
  end.

(** [max(a, b)] of Python. *)
Definition py_max (a b : Q) : Q := if Qlt_bool a b then b else a.

Section Decoder.

(** One frame of the encoder output, the recurrent state of the language
    model and the state of the CTC prefix scorer. *)
Variables Frame LMState CTCState : Type.

(** The decoder network for one row of the batch: the encoder frames and
    the token history [y_seq] give [self.output(self.norm_out(dout))[:, -1]],
    the logits of the next token.  (Rows of one batched call do not
    influence each other; the layer cache only saves recomputation.) *)
Variable decoder_logits : list Frame -> list nat -> list Q.

(** [torch.log(torch.softmax(x, dim=1))] on one row. *)
Variable log_softmax : list Q -> list Q.

(** The first-pass language model: [lm.predict(y, lmstate)] takes the last
    token of every hypothesis and the batched state, and gives the new
    batched state and [scores_lm], one row of log-probabilities per
    hypothesis. *)
Record LM : Type := {
  lm_is_RNNLM : bool;
  lm_predict : list nat -> option (list LMState)
               -> option (list LMState) * list (list Q)
}.

(** A second-pass language model: the log-probability of a whole token
    sequence. *)
Definition LM2 : Type := list nat -> Q.

(** [CTCPrefixScore(ctc_log_probs[b], blank, eos)] of [decoders/ctc.py],
    which is not among the sources: [initial_state()] and the call
    [(hyp, candidate tokens, state) -> (ctc_scores, ctc_states)]. *)
Record CTCPrefixScore : Type := {
  initial_state : CTCState;
  prefix_score : list nat -> list nat -> option CTCState
                 -> list Q * list CTCState
}.

Variable new_CTCPrefixScore : list (list Q) -> nat -> nat -> CTCPrefixScore.

(** The decoder object: the fields [beam_search] and [greedy] read or
    write. *)
Record Self : Type := {
  eos : nat;
  blank : nat;
  bwd : bool;
  prev_spk : string;
  lmstate_final : option LMState
}.

(** The dictionary [params]. *)
Record Params : Type := {
  recog_oracle : bool;
  recog_beam_width : Z;
  recog_ctc_weight : Q;
  recog_max_len_ratio : Q;
  recog_min_len_ratio : Q;
  recog_length_penalty : Q;
  recog_length_norm : bool;
  recog_lm_weight : Q;
  recog_lm_second_weight : Q;
  recog_lm_rev_weight : Q;
  recog_eos_threshold : Q;
  recog_lm_state_carry_over : bool;
  recog_softmax_smoothing : Q
}.

(** One hypothesis of the beam.  The tensor ['y_seq'] of a hypothesis that
    a step has made is one row with the tokens of ['hyp'] and is not kept
    apart; the tensor of the root hypothesis has one row per utterance of
    the batch, which [search] accounts for ([root_row_fits]).  ['cache'],
    ['aws'] and ['ensmbl_aws'] are not read by the search. *)
Record Hyp : Type := {
  hyp : list nat;
  score : Q;
  score_attn : Q;
  score_ctc : Q;
  score_lm : Q;
  lmstate : option LMState;
  ctc_state : option CTCState;
  score_lm_2nd : option Q;
  score_lm_2nd_rev : option Q
}.

(** The state of the step loop of one utterance: the live beam, the
    finished set, and the Python variable [beam], which keeps its last
    value when a [for ... beam in hyps] loop runs over an empty beam. *)
Record Loop : Type := {
  hyps : list Hyp;
  end_hyps : list Hyp;
  beam_var : Hyp
}.

Section Utterance.

(** What is fixed while one utterance is decoded. *)
Variable self : Self.
Variable params : Params.
Variable lm : option LM.
Variable ctc_prefix_score : option CTCPrefixScore.
(** [eouts[b:b + 1, :elens[b]]] and [elens[b]] *)
Variable eouts_b : list Frame.
Variable elens_b : nat.
(** [beam_width], at least 1 once the assertion has passed *)
Variable beam_width : nat.
Variable n_models : nat.
(** [len(refs_id[b])] in oracle mode *)
Variable oracle_len : option nat.

Local Abbreviation ctc_weight := (recog_ctc_weight params).
Local Abbreviation lp_weight := (recog_length_penalty params).
Local Abbreviation lm_weight := (recog_lm_weight params).

(** [scores_attn[j]]: [torch.log(probs) / n_models] with
    [probs = softmax(logits * softmax_smoothing)]. *)
Definition scores_attn_row (y_seq : list nat) : list Q :=
  map (fun x => x / inject_Z (Z.of_nat n_models))
    (log_softmax
       (map (fun x => x * recog_softmax_smoothing params)
          (decoder_logits eouts_b y_seq))).

(** [total_scores_attn = beam['score_attn'] + scores_attn[j:j + 1]] *)
Definition total_scores_attn (beam : Hyp) (row : list Q) : list Q :=
  map (fun s => score_attn beam + s) row.

(** [total_scores = total_scores_attn * (1 - ctc_weight)] *)
Definition total_scores (beam : Hyp) (row : list Q) : list Q :=
  map (fun s => s * (1 - ctc_weight)) (total_scores_attn beam row).

(** The first [torch.topk]: the [beam_width] best next tokens by the
    attention score alone. *)
Definition coarse_topk (beam : Hyp) (row : list Q)
  : result (list Q * list nat) :=
  topk beam_width (total_scores beam row).

(** [len(beam['hyp'][1:]) + 1] *)
Definition next_length (beam : Hyp) : Q :=
  inject_Z (Z.of_nat (length (tl (hyp beam))) + 1).

(** The language-model term of the retained candidates:
    [(total_scores_topk, total_scores_lm)]. *)
Definition add_lm (j : nat) (beam : Hyp) (scores_lm : option (list (list Q)))
  (total_scores_topk : list Q) (topk_ids : list nat)
  : result (list Q * list Q) :=
  match scores_lm with
  | Some scores_lm =>
      (row_lm <- index scores_lm j ;;
       picked <- mapM (index row_lm) topk_ids ;;
       let total_scores_lm := map (fun s => score_lm beam + s) picked in
       Ok (zip_with Qplus total_scores_topk
             (map (fun s => s * lm_weight) total_scores_lm),
           total_scores_lm))%result
  | None => Ok (total_scores_topk, repeat 0 beam_width)
  end.

(** [if lp_weight > 0: total_scores_topk += (len(hyp[1:]) + 1) * lp_weight] *)
Definition add_length_penalty (beam : Hyp) (total_scores_topk : list Q)
  : list Q :=
  if Qlt_bool 0 lp_weight
  then map (fun s => s + next_length beam * lp_weight) total_scores_topk
  else total_scores_topk.

(** The retained candidates of one hypothesis, position by position. *)
Record Candidates : Type := {
  total_scores_topk : list Q;
  topk_ids : list nat;
  total_scores_lm : list Q;
  total_scores_ctc : list Q;
  new_ctc_states : list (option CTCState)
}.

(** The CTC term and the second [torch.topk] ("Sort again").  The scorer is
    taken to return one score per candidate. *)
Definition add_ctc (beam : Hyp) (scores : list Q * list nat)
  : result (list Q * list nat * list Q * list (option CTCState)) :=
  let '(total_scores_topk, topk_ids) := scores in
  match ctc_prefix_score with
  | Some scorer =>
      let '(ctc_scores, ctc_states) :=
        prefix_score scorer (hyp beam) topk_ids (ctc_state beam) in
      if (length ctc_scores =? length total_scores_topk)%nat then
        (let total_scores_topk :=
           zip_with Qplus total_scores_topk
             (map (fun s => s * ctc_weight) ctc_scores) in
         ' (total_scores_topk, joint_ids_topk) <-
             topk beam_width total_scores_topk ;;
         Ok (total_scores_topk,
             map (fun i => nth i topk_ids 0%nat) joint_ids_topk,
             ctc_scores,
             map (nth_error ctc_states) joint_ids_topk))%result
      else Raise RuntimeError
  | None =>
      Ok (total_scores_topk, topk_ids, repeat 0 beam_width,
          repeat None beam_width)
  end.

(** Everything before the loop over [k]: coarse top-k, language model,
    length penalty, CTC. *)
Definition scored_candidates (j : nat) (beam : Hyp) (row : list Q)
  (scores_lm : option (list (list Q))) : result Candidates :=
  (' (scores, ids) <- coarse_topk beam row ;;
   ' (scores, total_scores_lm) <- add_lm j beam scores_lm scores ids ;;
   let scores := add_length_penalty beam scores in
   ' (scores, ids, total_scores_ctc, states) <- add_ctc beam (scores, ids) ;;
   Ok {| total_scores_topk := scores;
         topk_ids := ids;
         total_scores_lm := total_scores_lm;
         total_scores_ctc := total_scores_ctc;
         new_ctc_states := states |})%result.

(** "Exclude short hypotheses": [len(beam['hyp']) - 1 < elens[b] * min_len_ratio],
    with the exact product (the code compares with the product of a
    tensor entry and a float, rounded by torch). *)
Definition too_short (beam : Hyp) : bool :=
  Qlt_bool (inject_Z (Z.of_nat (length (hyp beam)) - 1))
    (inject_Z (Z.of_nat elens_b) * recog_min_len_ratio params).

(** "EOS threshold": the attention score of [idx] against the best
    attention score of the other tokens. *)
Definition below_eos_threshold (row : list Q) (idx : nat) : result bool :=
  (m1 <- tensor_max (firstn idx row) ;;
   m2 <- tensor_max (skipn (S idx) row) ;;
   let max_score_no_eos := py_max m1 m2 in
   Ok (Qle_bool (nth idx row 0)
         (recog_eos_threshold params * max_score_no_eos)))%result.

(** The two [continue] of the loop over [k], taken only for [idx == eos]. *)
Definition rejected (beam : Hyp) (row : list Q) (idx : nat) : result bool :=
  if (idx =? eos self)%nat then
    if too_short beam then Ok true else below_eos_threshold row idx
  else Ok false.

(** The body of the loop over [k]: [None] stands for [continue]. *)
Definition candidate (j : nat) (beam : Hyp) (row : list Q)
  (lmstate : option (list LMState)) (c : Candidates) (k : nat)
  : result (option Hyp) :=
  let idx := nth k (topk_ids c) 0%nat in
  let length_norm_factor :=
    if recog_length_norm params then next_length beam else 1 in
  let total_score := nth k (total_scores_topk c) 0 / length_norm_factor in
  (r <- rejected beam row idx ;;
   if r then Ok None
   else
     Ok (Some
       {| hyp := hyp beam ++ [idx];
          score := total_score;
          score_attn := nth idx (total_scores_attn beam row) 0;
          score_ctc := nth k (total_scores_ctc c) 0;
          score_lm := nth k (total_scores_lm c) 0;
          lmstate := match lmstate with
                     | Some states => nth_error states j
                     | None => None
                     end;
          ctc_state := nth k (new_ctc_states c) None;
          score_lm_2nd := None;
          score_lm_2nd_rev := None |}))%result.

Fixpoint somes {A : Type} (l : list (option A)) : list A :=
  match l with
  | [] => []
  | Some a :: r => a :: somes r
  | None :: r => somes r
  end.

(** The hypotheses one live hypothesis adds to [new_hyps]. *)
Definition expand (j : nat) (beam : Hyp) (row : list Q)
  (scores_lm : option (list (list Q))) (lmstate : option (list LMState))
  : result (list Hyp) :=
  (c <- scored_candidates j beam row scores_lm ;;
   new <- mapM (candidate j beam row lmstate c) (seq 0 beam_width) ;;
   Ok (somes new))%result.

(** The batched state of the language model, from the states of the live
    hypotheses ([torch.cat] of an empty list is a runtime error). *)
Definition cat_lmstate (beam : Hyp) (hyps : list Hyp)
  : result (option (list LMState)) :=
  match lm, lmstate beam with
  | Some _, Some _ =>
      match hyps with
      | [] => Raise RuntimeError
      | _ =>
          (states <- mapM (fun beam => match lmstate beam with
                                       | Some s => Ok s
                                       | None => Raise TypeError
                                       end) hyps ;;
           Ok (Some states))%result
      end
  | _, _ => Ok None
  end.

(** "Local pruning" *)
Definition local_pruning (new_hyps : list Hyp) : list Hyp :=
  firstn beam_width (sorted_desc score new_hyps).

(** Whether "Remove complete hypotheses" moves [h] to [end_hyps]. *)
Definition complete (t : nat) (h : Hyp) : bool :=
  match oracle_len with
  | Some len_ref => (t =? len_ref)%nat
  | None => (1 <? length (hyp h))%nat && (last (hyp h) 0 =? eos self)%nat
  end.

(** One iteration of [for t in range(ytime)]: the new state and whether
    the loop was left by [break].  The rows of the step's [y_seq] are the
    tokens of the live hypotheses, as they are once the root hypothesis has
    been assigned ([root_row_fits]). *)
Definition step (t : nat) (st : Loop) : result (Loop * bool) :=
  let beam := last (hyps st) (beam_var st) in
  (lmstate <- cat_lmstate beam (hyps st) ;;
   let '(lmstate, scores_lm) :=
     match lm with
     | Some m =>
         let '(lmstate, scores_lm) :=
           lm_predict m (map (fun h => last (hyp h) 0%nat) (hyps st)) lmstate in
         (lmstate, Some scores_lm)
     | None => (lmstate, None)
     end in
   new_hyps <- mapM (fun jb : nat * Hyp =>
                       let '(j, beam) := jb in
                       expand j beam (scores_attn_row (hyp beam))
                         scores_lm lmstate)
                 (combine (seq 0 (length (hyps st))) (hyps st)) ;;
   let new_hyps_sorted := local_pruning (concat new_hyps) in
   let end_hyps := end_hyps st ++ filter (complete t) new_hyps_sorted in
   let new_hyps := filter (fun h => negb (complete t h)) new_hyps_sorted in
   if (beam_width <=? length end_hyps)%nat then
     Ok ({| hyps := hyps st;
            end_hyps := firstn beam_width end_hyps;
            beam_var := beam |}, true)
   else
     Ok ({| hyps := new_hyps; end_hyps := end_hyps; beam_var := beam |},
         false))%result.

(** [for t in range(ytime)], as the list of the states reached at the end
    of each iteration that was run, and the exception that stopped it, if
    any. *)
Fixpoint steps (ts : list nat) (st : Loop) : list Loop * option Exn :=
  match ts with
  | [] => ([], None)
  | t :: ts' =>
      match step t st with
      | Raise e => ([], Some e)
      | Ok (st', true) => ([st'], None)
      | Ok (st', false) =>
          let '(trace, e) := steps ts' st' in (st' :: trace, e)
      end
  end.

End Utterance.

(** *** One utterance *)

Section Call.

(** The arguments of one call of [beam_search].  [n_ensmbl] is
    [len(ensmbl_decs)]; [idx2token] and [utt_ids] only feed the log. *)
Variable eouts : list (list Frame).
Variable elens : list nat.
Variable params : Params.
Variable lm : option LM.
Variables lm_2nd lm_2nd_rev : option LM2.
Variable ctc_log_probs : option (list (list (list Q))).
Variable nbest : Z.
Variable exclude_eos : bool.
Variable refs_id : option (list (list nat)).
Variable speakers : option (list string).
Variable n_ensmbl : nat.

Definition beam_width : nat := Z.to_nat (recog_beam_width params).
Definition n_models : nat := (n_ensmbl + 1)%nat.

(** "For joint CTC-Attention decoding" *)
Definition init_ctc (self : Self) (b : nat) : result (option CTCPrefixScore) :=
  match ctc_log_probs with
  | Some log_probs =>
      (_ <- assert (Qlt_bool 0 (recog_ctc_weight params)) ;;
       log_probs_b <- index log_probs b ;;
       Ok (Some (new_CTCPrefixScore
                   (if bwd self then rev log_probs_b else log_probs_b)
                   (blank self) (eos self))))%result
  | None => Ok None
  end.

Definition set_prev_spk (self : Self) (spk : string) : Self :=
  {| eos := eos self; blank := blank self; bwd := bwd self;
     prev_spk := spk; lmstate_final := lmstate_final self |}.

Definition set_lmstate_final (self : Self) (s : option LMState) : Self :=
  {| eos := eos self; blank := blank self; bwd := bwd self;
     prev_spk := prev_spk self; lmstate_final := s |}.

Definition is_RNNLM (lm : option LM) : bool :=
  match lm with
  | Some m => lm_is_RNNLM m
  | None => false
  end.

(** The block [if speakers is not None]: the decoder object afterwards and
    the first [lmstate] of the utterance. *)
Definition carry_over (self : Self) (b : nat)
  : result (Self * option LMState) :=
  match speakers with
  | Some speakers =>
      (spk <- index speakers b ;;
       let lmstate :=
         if String.eqb spk (prev_spk self) then
           if recog_lm_state_carry_over params && is_RNNLM lm
           then lmstate_final self else None
         else None in
       Ok (set_prev_spk self spk, lmstate))%result
  | None => Ok (self, None)
  end.

(** [ytime] and, in oracle mode, [len(refs_id[b])].  The floor is that of
    the exact product (the code floors the product of a tensor entry and
    a float, rounded by torch). *)
Definition ytime_of (b : nat) : result (Z * option nat) :=
  if recog_oracle params then
    match refs_id with
    | Some refs =>
        (ref <- index refs b ;;
         Ok ((Z.of_nat (length ref) + 1)%Z, Some (length ref)))%result
    | None => Raise AssertionError
    end
  else
    (elens_b <- index elens b ;;
     Ok ((Qfloor (inject_Z (Z.of_nat elens_b) * recog_max_len_ratio params)
          + 1)%Z,
         None))%result.

(** The hypothesis the search starts from. *)
Definition root (self : Self) (lmstate : option LMState)
  (ctc : option CTCPrefixScore) : Hyp :=
  {| hyp := [eos self];
     score := 0; score_attn := 0; score_ctc := 0; score_lm := 0;
     lmstate := lmstate;
     ctc_state := match ctc with
                  | Some scorer => Some (initial_state scorer)
                  | None => None
                  end;
     score_lm_2nd := None; score_lm_2nd_rev := None |}.

(** "Global pruning" *)
Definition global_pruning (n : nat) (st : Loop) : list Hyp :=
  match end_hyps st with
  | [] => hyps st
  | _ =>
      if (length (end_hyps st) <? n)%nat && (1 <? n)%nat
      then end_hyps st ++ firstn (n - length (end_hyps st)) (hyps st)
      else end_hyps st
  end.

(** Modelled from the spec: [DecoderBase.lm_rescoring], defined in
    [decoder_base.py], which is not among the sources.  The language model
    runs once over the whole token sequence of each finished hypothesis (in
    reverse order for the reverse model), [lm_weight] times its
    log-probability is added to the stored score, and the log-probability
    is kept under the field of the tag; nothing else changes. *)
Definition lm_rescoring (end_hyps : list Hyp) (lm : LM2) (lm_weight : Q)
  (reverse : bool) : list Hyp :=
  map (fun h =>
         let s := lm (if reverse then rev (hyp h) else hyp h) in
         {| hyp := hyp h;
            score := score h + lm_weight * s;
            score_attn := score_attn h;
            score_ctc := score_ctc h;
            score_lm := score_lm h;
            lmstate := lmstate h;
            ctc_state := ctc_state h;
            score_lm_2nd := if reverse then score_lm_2nd h else Some s;
            score_lm_2nd_rev := if reverse then Some s
                                else score_lm_2nd_rev h |})
      end_hyps.

(** From "Global pruning" to "Sort by score". *)
Definition finished (n : nat) (st : Loop) : list Hyp :=
  let end_hyps := global_pruning n st in
  let end_hyps :=
    match lm_2nd with
    | Some m => lm_rescoring end_hyps m (recog_lm_second_weight params) false
    | None => end_hyps
    end in
  let end_hyps :=
    match lm_2nd_rev with
    | Some m => lm_rescoring end_hyps m (recog_lm_rev_weight params) true
    | None => end_hyps
    end in
  sorted_desc score end_hyps.

(** [l[-1] == x] *)
Definition last_is (l : list nat) (x : nat) : result bool :=
  match rev l with
  | y :: _ => Ok (y =? x)%nat
  | [] => Raise IndexError
  end.

(** What one utterance adds to [nbest_hyps_idx], [scores] and [eos_flags],
    and its [end_hyps]. *)
Record Utt : Type := {
  utt_hyps : list (list nat);
  utt_scores : list Q;
  utt_eos_flags : list bool;
  utt_end_hyps : list Hyp
}.

(** "N-best list" and "Check <eos>" *)
Definition nbest_list (self : Self) (n : nat) (end_hyps : list Hyp)
  : result Utt :=
  (hs <- mapM (fun i => h <- index end_hyps i ;;
                        Ok (if bwd self then rev (tl (hyp h))
                            else tl (hyp h)))
           (seq 0 n) ;;
   ss <- mapM (fun i => h <- index end_hyps i ;; Ok (score_attn h))
           (seq 0 n) ;;
   fs <- mapM (fun i => h <- index end_hyps i ;; last_is (hyp h) (eos self))
           (seq 0 n) ;;
   Ok {| utt_hyps := hs; utt_scores := ss; utt_eos_flags := fs;
         utt_end_hyps := end_hyps |})%result.

(** The state the step loop stops in. *)
Definition run_steps (self : Self) (ctc : option CTCPrefixScore)
  (eouts_b : list Frame) (elens_b : nat) (oracle_len : option nat)
  (ytime : Z) (st : Loop) : result Loop :=
  match steps self params lm ctc eouts_b elens_b beam_width n_models
          oracle_len (seq 0 (Z.to_nat ytime)) st with
  | (trace, None) => Ok (last trace st)
  | (_, Some e) => Raise e
  end.

(** [y_seq[j, :] = beam['y_seq']] at step 0, the first statement of the
    step loop that can fail.  The root hypothesis holds the tensor [y_seq]
    of the utterance, [eouts.new_zeros(bs, 1).fill_(self.eos)]: torch
    assigns its [bs] rows to the one row [y_seq[0, :]] for [bs = 1] and
    raises a runtime error for any other batch size.  A hypothesis of a
    later step holds one row ([torch.cat] has appended a column to the row
    that was assigned), which fits.  A loop of no step assigns nothing. *)
Definition root_row_fits (ytime : Z) : result unit :=
  if (1 <=? ytime)%Z && negb (length eouts =? 1)%nat
  then Raise RuntimeError
  else Ok tt.

(** The body of [for b in range(bs)], after the object has been updated by
    [carry_over]. *)
Definition search (self : Self) (b : nat) (ctc : option CTCPrefixScore)
  (lmstate : option LMState) : result Utt :=
  let h := root self lmstate ctc in
  (' (ytime, oracle_len) <- ytime_of b ;;
   _ <- root_row_fits ytime ;;
   elens_b <- index elens b ;;
   st <- run_steps self ctc (firstn elens_b (nth b eouts [])) elens_b
           oracle_len ytime
           {| hyps := [h]; end_hyps := []; beam_var := h |} ;;
   nbest_list self (Z.to_nat nbest) (finished (Z.to_nat nbest) st))%result.

(** One turn of [for b in range(bs)]: the decoder object afterwards and the
    result for utterance [b]. *)
Definition decode_utterance (self : Self) (b : nat) : Self * result Utt :=
  match init_ctc self b with
  | Raise e => (self, Raise e)
  | Ok ctc =>
      match carry_over self b with
      | Raise e => (self, Raise e)
      | Ok (self', lmstate) => (self', search self' b ctc lmstate)
      end
  end.

Fixpoint utterances (bs : list nat) (self : Self) : Self * result (list Utt) :=
  match bs with
  | [] => (self, Ok [])
  | b :: bs' =>
      match decode_utterance self b with
      | (self1, Raise e) => (self1, Raise e)
      | (self1, Ok u) =>
          match utterances bs' self1 with
          | (self2, Ok us) => (self2, Ok (u :: us))
          | (self2, Raise e) => (self2, Raise e)
          end
      end
  end.

(** The assertions at the head of [beam_search]. *)
Definition check_config : result unit :=
  (_ <- assert ((1 <=? nbest)%Z && (nbest <=? recog_beam_width params)%Z) ;;
   _ <- match lm with
        | Some _ => assert (Qlt_bool 0 (recog_lm_weight params))
        | None => Ok tt
        end ;;
   _ <- match lm_2nd with
        | Some _ => assert (Qlt_bool 0 (recog_lm_second_weight params))
        | None => Ok tt
        end ;;
   match lm_2nd_rev with
   | Some _ => assert (Qlt_bool 0 (recog_lm_rev_weight params))
   | None => Ok tt
   end)%result.

(** "Exclude <eos> (<sos> in case of the backward decoder)" *)
Definition strip_eos (self : Self) (u : Utt) : list (list nat) :=
  if exclude_eos then
    zip_with (fun h (flag : bool) =>
                if flag then (if bwd self then tl h else removelast h) else h)
      (utt_hyps u) (utt_eos_flags u)
  else utt_hyps u.

(** [TransformerDecoder.beam_search]: the decoder object afterwards and
    [(nbest_hyps_idx, aws, scores)]; [aws] is never filled. *)
Definition beam_search (self : Self)
  : Self * result (list (list (list nat)) * list unit * list (list Q)) :=
  match check_config with
  | Raise e => (self, Raise e)
  | Ok _ =>
      match utterances (seq 0 (length eouts)) self with
      | (self', Raise e) => (self', Raise e)
      | (self', Ok us) =>
          let nbest_hyps_idx := map (strip_eos self') us in
          let scores := map utt_scores us in
          match rev us with
          | [] => (self', Raise UnboundLocalError)
          | u :: _ =>
              let self'' :=
                match utt_end_hyps u with
                | h :: _ => set_lmstate_final self' (lmstate h)
                | [] => self'
                end in
              (self'', Ok (nbest_hyps_idx, [], scores))
          end
      end
  end.

End Call.

(** *** Greedy decoding *)

Record Greedy : Type := {
  y_seq : list (list nat);
  hyps_batch : list (list nat);
  ylens : list nat;
  eos_flags : list bool
}.

Section GreedyCall.

Variable self : Self.
Variable eouts : list (list Frame).
Variable max_len_ratio : Q.
Variable exclude_eos : bool.
Variable oracle : bool.
Variable refs_id : option (list (list nat)).

(** [max(l)] of Python. *)
Definition py_max_list (l : list nat) : result nat :=
  match l with
  | [] => Raise ValueError
  | x :: r => Ok (fold_left Nat.max r x)
  end.

Definition greedy_ytime : result Z :=
  if oracle then
    match refs_id with
    | Some refs =>
        (lens <- mapM (fun b => ref <- index refs b ;; Ok (length ref))
                   (seq 0 (length eouts)) ;;
         m <- py_max_list lens ;;
         Ok (Z.of_nat m + 1)%Z)%result
    | None => Raise AssertionError
    end
  else
    Ok (Qfloor (inject_Z (Z.of_nat (length (hd [] eouts))) * max_len_ratio) + 1)%Z.

(** One iteration of [for t in range(ytime)] and whether it ends in
    [break]. *)
Definition greedy_step (ytime : Z) (t : nat) (st : Greedy)
  : result (Greedy * bool) :=
  (y <- mapM (fun ey : list Frame * list nat =>
                argmax (decoder_logits (fst ey) (snd ey)))
         (combine eouts (y_seq st)) ;;
   let hyps_batch := hyps_batch st ++ [y] in
   let eos_flags' :=
     zip_with (fun (flag : bool) yb => flag || (yb =? eos self)%nat)
       (eos_flags st) y in
   let ylens :=
     zip_with (fun (flag : bool) n => if flag then n else S n)
       (eos_flags st) (ylens st) in
   let st' := {| y_seq := y_seq st; hyps_batch := hyps_batch;
                 ylens := ylens; eos_flags := eos_flags' |} in
   if forallb (fun flag : bool => flag) eos_flags' then Ok (st', true)
   else if (Z.of_nat t =? ytime - 1)%Z then Ok (st', true)
   else
     y <- (if oracle then
             match refs_id with
             | Some refs =>
                 mapM (fun b => ref <- index refs b ;; index ref t)
                   (seq 0 (length eouts))
             | None => Raise TypeError
             end
           else Ok y) ;;
     Ok ({| y_seq := zip_with (fun ys yb => ys ++ [yb]) (y_seq st) y;
            hyps_batch := hyps_batch;
            ylens := ylens; eos_flags := eos_flags' |}, false))%result.

Fixpoint greedy_steps (ytime : Z) (ts : list nat) (st : Greedy)
  : result Greedy :=
  match ts with
  | [] => Ok st
  | t :: ts' =>
      match greedy_step ytime t st with
      | Raise e => Raise e
      | Ok (st', true) => Ok st'
      | Ok (st', false) => greedy_steps ytime ts' st'
      end
  end.

(** [TransformerDecoder.greedy]: the list [hyps]; the attention weights
    [aws] of the network are not part of the model. *)
Definition greedy : result (list (list nat)) :=
  let bs := length eouts in
  (ytime <- greedy_ytime ;;
   st <- greedy_steps ytime (seq 0 (Z.to_nat ytime))
           {| y_seq := repeat [eos self] bs; hyps_batch := [];
              ylens := repeat 0%nat bs; eos_flags := repeat false bs |} ;;
   _ <- match hyps_batch st with
        | [] => Raise RuntimeError
        | _ => Ok tt
        end ;;
   let hyps :=
     map (fun b =>
            let row := map (fun y => nth b y 0%nat) (hyps_batch st) in
            let h := firstn (nth b (ylens st) 0%nat) row in
            if bwd self then rev h else h)
       (seq 0 bs) in
   Ok (if exclude_eos then
         zip_with (fun h (flag : bool) =>
                     if flag then (if bwd self then tl h else removelast h)
                     else h)
           hyps (eos_flags st)
       else hyps))%result.

End GreedyCall.

End Decoder.

(** The types of frames and states are read off the other arguments. *)
Arguments search {Frame LMState CTCState}.
Arguments decode_utterance {Frame LMState CTCState}.
Arguments utterances {Frame LMState CTCState}.
Arguments run_steps {Frame LMState CTCState}.
Arguments root_row_fits {Frame}.
Arguments step {Frame LMState CTCState}.
Arguments steps {Frame LMState CTCState}.
Arguments beam_search {Frame LMState CTCState}.
Arguments expand {LMState CTCState}.
Arguments candidate {LMState CTCState}.
Arguments rejected {LMState CTCState}.
Arguments scored_candidates {LMState CTCState}.
Arguments coarse_topk {LMState CTCState}.
Arguments add_lm {LMState CTCState}.
Arguments add_ctc {LMState CTCState}.
Arguments add_length_penalty {LMState CTCState}.
Arguments nbest_list {LMState CTCState}.
Arguments finished {LMState CTCState}.
Arguments global_pruning {LMState CTCState}.
Arguments init_ctc {LMState CTCState}.
Arguments strip_eos {LMState CTCState}.
Arguments local_pruning {LMState CTCState}.
Arguments complete {LMState CTCState}.
Arguments cat_lmstate {LMState CTCState}.
Arguments too_short {LMState CTCState}.
Arguments total_scores {LMState CTCState}.
Arguments total_scores_attn {LMState CTCState}.
Arguments root {LMState CTCState}.
Arguments lm_rescoring {LMState CTCState}.
Arguments next_length {LMState CTCState}.
Arguments carry_over {LMState}.
Arguments check_config {LMState}.
Arguments set_prev_spk {LMState}.
Arguments set_lmstate_final {LMState}.
Arguments is_RNNLM {LMState}.
Arguments greedy_step {Frame LMState}.
Arguments greedy_steps {Frame LMState}.
Arguments greedy {Frame LMState}.
Arguments scores_attn_row {Frame}.
Arguments greedy_ytime {Frame}.
Arguments eos {LMState}.
Arguments blank {LMState}.
Arguments bwd {LMState}.
Arguments prev_spk {LMState}.
Arguments lmstate_final {LMState}.
Arguments lm_is_RNNLM {LMState}.
Arguments lm_predict {LMState}.
Arguments initial_state {CTCState}.
Arguments prefix_score {CTCState}.
Arguments hyp {LMState CTCState}.
Arguments score {LMState CTCState}.
Arguments score_attn {LMState CTCState}.
Arguments score_ctc {LMState CTCState}.
Arguments score_lm {LMState CTCState}.
Arguments lmstate {LMState CTCState}.
Arguments ctc_state {LMState CTCState}.
Arguments score_lm_2nd {LMState CTCState}.
Arguments score_lm_2nd_rev {LMState CTCState}.
Arguments hyps {LMState CTCState}.
Arguments end_hyps {LMState CTCState}.
Arguments beam_var {LMState CTCState}.
Arguments utt_hyps {LMState CTCState}.
Arguments utt_scores {LMState CTCState}.
Arguments utt_eos_flags {LMState CTCState}.
Arguments utt_end_hyps {LMState CTCState}.
Arguments total_scores_topk {CTCState}.
Arguments topk_ids {CTCState}.
Arguments total_scores_lm {CTCState}.
Arguments total_scores_ctc {CTCState}.
Arguments new_ctc_states {CTCState}.

End TransformerDecoder.

(** ** transformer.py: the training loss *)

Module TransformerForward.

(** [sub in s] on Python strings. *)
Fixpoint contains (sub s : string) : bool :=
  String.prefix sub s ||
  match s with
  | EmptyString => false
  | String _ s' => contains sub s'
  end.

Section Forward.

(** The encoder outputs and the references are only handed on. *)
Variables Eouts Ys : Type.

(** [self.ctc(eouts, elens, ys)[0]], the CTC loss, and
    [self.forward_att(eouts, elens, ys)], the cross-entropy loss with the
    accuracy and the perplexity. *)
Variable ctc : Eouts -> list nat -> Ys -> Q.
Variable forward_att : Eouts -> list nat -> Ys -> Q * Q * Q.

(** The fields of the decoder object that [forward] reads. *)
Record Self : Type := {
  ctc_weight : Q;
  global_weight : Q;
  mtl_per_batch : bool
}.

(** The dictionary [observation]. *)
Record Observation : Type := {
  loss : option Q;
  loss_att : option Q;
  loss_ctc : option Q;
  loss_mbr : option Q;
  acc_att : option Q;
  ppl_att : option Q
}.

(** [TransformerDecoder.forward]: [(loss, observation)]. *)
Definition forward (self : Self) (eouts : Eouts) (elens : list nat)
  (ys : Ys) (task : string) : Q * Observation :=
  let loss0 := 0 in
  (* CTC loss *)
  let '(loss1, observed_ctc) :=
    if Qlt_bool 0 (ctc_weight self)
       && (String.eqb task "all" || contains "ctc" task)
    then
      let loss_ctc := ctc eouts elens ys in
      (if mtl_per_batch self then loss0 + loss_ctc
       else loss0 + loss_ctc * ctc_weight self,
       Some loss_ctc)
    else (loss0, None) in
  (* XE loss *)
  let '(loss2, observed_att) :=
    if Qlt_bool 0 (global_weight self - ctc_weight self)
       && (String.eqb task "all" || negb (contains "ctc" task))
    then
      let '(loss_att, acc_att, ppl_att) := forward_att eouts elens ys in
      (if mtl_per_batch self then loss1 + loss_att
       else loss1 + loss_att * (global_weight self - ctc_weight self),
       Some (loss_att, acc_att, ppl_att))
    else (loss1, None) in
  (loss2,
   {| loss := Some loss2;
      loss_att := option_map (fun o => fst (fst o)) observed_att;
      loss_ctc := observed_ctc;
      loss_mbr := None;
      acc_att := option_map (fun o => snd (fst o)) observed_att;
      ppl_att := option_map snd observed_att |}).

End Forward.

Arguments forward {Eouts Ys}.

End TransformerForward.

(** * Example inputs *)

Module Examples.

(** A rational squashing function standing for [torch.sigmoid]:
    [sigmoid 0 = 1/2], increasing, with values in [(0, 1)]. *)
Definition sigmoid (x : Q) : Q :=
  (1 + x / (1 + Qabs x)) / 2.

(** A rational stand-in for [torch.exp]: positive, increasing, with
    [exp 0 = 1]. *)
Definition exp (x : Q) : Q :=
  if Qle_bool 0 x then 1 + x else 1 / (1 - x).

(** A batch of two utterances for the hierarchical CTC model: the encoder
    returns two logit tensors (here only tagged by a number) and sorts the
    batch by decreasing length. *)
Definition hctc_encode (_ : unit) (_ : list Z) (_ : bool)
  : Z * Z * list nat := (7%Z, 9%Z, [1%nat; 0%nat]).

Definition hctc_size (_ : Z) : Z * Z := (5%Z, 2%Z).

Definition hctc_div_temperature (logits : Z) (_ : Q) : Z := logits.

Definition hctc_concatenate_labels (labels : list (list Z)) (_ : list Z)
  : list Z := concat labels.

Definition hctc_loss (logits : Z) (labels inputs_seq_len labels_seq_len : list Z)
  : Q := inject_Z (fold_right Z.add logits labels) / 3.

Definition hctc_self : HierarchicalCTC.Self :=
  {| HierarchicalCTC.main_loss_weight := 4 # 5;
     HierarchicalCTC.logits_temperature := 1 |}.

(** A toy decoder over the vocabulary [0 = blank, 1 = a, 2 = eos, 3 = b]:
    it prefers [a] first, then [b], then the end symbol. *)
Definition toy_logits (_ : list unit) (y_seq : list nat) : list Q :=
  match length y_seq with
  | 1%nat => [0; 3; 1; 2]
  | 2%nat => [0; 1; 2; 3]
  | _ => [0; 1; 5; 2]
  end.

(** The largest entry of a row. *)
Definition row_max (row : list Q) : Q :=
  match row with
  | [] => 0
  | x :: r => fold_left (fun m y => if Qlt_bool m y then y else m) r x
  end.

(** An order-preserving stand-in for [log(softmax(x))]: every entry moves
    down by the largest entry and one half more, so that the best token
    has a log-probability of one half below zero. *)
Definition toy_log_softmax (row : list Q) : list Q :=
  map (fun x => x - row_max row - (1 # 2)) row.

(** A CTC prefix scorer that has no opinion. *)
Definition toy_ctc (_ : list (list Q)) (_ _ : nat)
  : TransformerDecoder.CTCPrefixScore unit :=
  {| TransformerDecoder.initial_state := tt;
     TransformerDecoder.prefix_score :=
       fun _ ids _ => (map (fun _ => 0) ids, map (fun _ => tt) ids) |}.

(** A recurrent language model whose state is a number: without a state it
    is indifferent, with a state it favours [b]. *)
Definition toy_lm : TransformerDecoder.LM nat :=
  {| TransformerDecoder.lm_is_RNNLM := true;
     TransformerDecoder.lm_predict :=
       fun y lmstate =>
         (Some (map (fun _ => 1%nat) y),
          map (fun _ => match lmstate with
                        | Some _ => [-9; -9; -9; -1]
                        | None => [-2; -2; -2; -2]
                        end) y) |}.

Definition toy_self : TransformerDecoder.Self nat :=
  {| TransformerDecoder.eos := 2;
     TransformerDecoder.blank := 0;
     TransformerDecoder.bwd := false;
     TransformerDecoder.prev_spk := EmptyString;
     TransformerDecoder.lmstate_final := None |}.

(** The object a call for speaker ["A"] has left behind. *)
Definition toy_self_after : TransformerDecoder.Self nat :=
  {| TransformerDecoder.eos := 2;
     TransformerDecoder.blank := 0;
     TransformerDecoder.bwd := false;
     TransformerDecoder.prev_spk := "A"%string;
     TransformerDecoder.lmstate_final := Some 1%nat |}.

(** The configuration of the examples: the length ratios, the EOS threshold
    and the softmax smoothing are those of a usual run. *)
Definition mk_params (oracle : bool) (beam_width : Z)
  (ctc_weight min_len_ratio length_penalty : Q) (carry_over : bool)
  : TransformerDecoder.Params :=
  {| TransformerDecoder.recog_oracle := oracle;
     TransformerDecoder.recog_beam_width := beam_width;
     TransformerDecoder.recog_ctc_weight := ctc_weight;
     TransformerDecoder.recog_max_len_ratio := 1;
     TransformerDecoder.recog_min_len_ratio := min_len_ratio;
     TransformerDecoder.recog_length_penalty := length_penalty;
     TransformerDecoder.recog_length_norm := false;
     TransformerDecoder.recog_lm_weight := 1;
     TransformerDecoder.recog_lm_second_weight := 0;
     TransformerDecoder.recog_lm_rev_weight := 0;
     TransformerDecoder.recog_eos_threshold := 3 # 2;
     TransformerDecoder.recog_lm_state_carry_over := carry_over;
     TransformerDecoder.recog_softmax_smoothing := 1 |}.

Definition toy_params (beam_width : Z) : TransformerDecoder.Params :=
  mk_params false beam_width 0 0 0 false.

(** The same with LM state carry-over switched on. *)
Definition toy_params_carry (beam_width : Z) : TransformerDecoder.Params :=
  mk_params false beam_width 0 0 0 true.

(** A negative CTC weight, and a negative length penalty with it. *)
Definition toy_params_negative : TransformerDecoder.Params :=
  mk_params false 1 (- (1 # 2)) 0 (- (1)) false.

(** Joint CTC-attention decoding with a length penalty. *)
Definition toy_params_ctc (beam_width : Z) : TransformerDecoder.Params :=
  mk_params false beam_width (3 # 10) 0 (1 # 10) false.

(** Oracle mode. *)
Definition toy_params_oracle (beam_width : Z) : TransformerDecoder.Params :=
  mk_params true beam_width 0 0 0 false.

(** A CTC prefix scorer that likes high token numbers. *)
Definition toy_ctc_scorer : TransformerDecoder.CTCPrefixScore unit :=
  {| TransformerDecoder.initial_state := tt;
     TransformerDecoder.prefix_score :=
       fun _ ids _ =>
         (map (fun i => inject_Z (Z.of_nat i) - 10) ids,
          map (fun _ => tt) ids) |}.

(** A decoder that is sure of [a] at every step: the end symbol comes
    second, far behind. *)
Definition peaked_logits (_ : list unit) (_ : list nat) : list Q :=
  [0; 10; 5; 1].

(** A decoder that wants to stop at once. *)
Definition eos_first_logits (_ : list unit) (_ : list nat) : list Q :=
  [0; 1; 5; 2].

(** A minimum length of a tenth of the input length. *)
Definition toy_params_min_len (beam_width : Z) : TransformerDecoder.Params :=
  mk_params false beam_width 0 (1 # 10) 0 false.

(** A decoder object whose end symbol is the last token of the
    vocabulary. *)
Definition edge_self : TransformerDecoder.Self nat :=
  {| TransformerDecoder.eos := 3;
     TransformerDecoder.blank := 0;
     TransformerDecoder.bwd := false;
     TransformerDecoder.prev_spk := EmptyString;
     TransformerDecoder.lmstate_final := None |}.

(** The state the search of one utterance starts in. *)
Definition toy_start : TransformerDecoder.Loop nat unit :=
  {| TransformerDecoder.hyps :=
       [TransformerDecoder.root toy_self None None];
     TransformerDecoder.end_hyps := [];
     TransformerDecoder.beam_var :=
       TransformerDecoder.root toy_self None None |}.

(** The same for the decoder object [edge_self]. *)
Definition edge_start : TransformerDecoder.Loop nat unit :=
  {| TransformerDecoder.hyps :=
       [TransformerDecoder.root edge_self None None];
     TransformerDecoder.end_hyps := [];
     TransformerDecoder.beam_var :=
       TransformerDecoder.root edge_self None None |}.

(** One utterance of four frames. *)
Definition toy_eouts : list (list unit) := [[tt; tt; tt; tt]].
Definition toy_elens : list nat := [4%nat].

End Examples.

(** * Part II: properties *)

(** ** Hard monotonic attention *)

Section MoChA_hard.

Variable sigmoid : Q -> Q.

Local Abbreviation om := (fun p : Q => 1 - p).

(** A tensor entry that is exactly [0.] or [1.]. *)
Definition bit (x : Q) : Prop := x = 0 \/ x = 1.

(** [p * exclusive_cumprod(1 - p)], with the running product made explicit. *)
Definition masked (acc : Q) (p : list Q) : list Q :=
  zip_with Qmult p (acc :: cumprod_from acc (removelast (map om p))).

Lemma masked_cons (acc a : Q) (r : list Q) :
  masked acc (a :: r) = (a * acc) :: masked (acc * (1 - a)) r.
Proof.
  unfold masked. destruct r as [|b r]; reflexivity.
Qed.

Lemma hard_alpha_masked (e aw : list Q) :
  MoChA.hard_alpha sigmoid e aw
  = masked 1 (zip_with Qmult (MoChA.threshold (map sigmoid e)) (cumsum aw)).
Proof. reflexivity. Qed.

Lemma masked_length (p : list Q) : forall acc, length (masked acc p) = length p.
Proof.
  induction p as [|a r IH]; intros acc.
  - reflexivity.
  - rewrite masked_cons. simpl. now rewrite IH.
Qed.

Lemma masked_zero (p : list Q) :
  Forall bit p -> masked 0 p = repeat 0 (length p).
Proof.
  induction 1 as [|a r Ha _ IH].
  - reflexivity.
  - rewrite masked_cons.
    destruct Ha as [-> | ->]; simpl; f_equal; exact IH.
Qed.

Lemma masked_zeros_prefix (i : nat) (q : list Q) :
  masked 1 (repeat 0 i ++ q) = repeat 0 i ++ masked 1 q.
Proof.
  induction i as [|i IH]; simpl.
  - reflexivity.
  - rewrite masked_cons. f_equal. exact IH.
Qed.

Lemma threshold_bits (l : list Q) : Forall bit (MoChA.threshold l).
Proof.
  induction l as [|p r IH]; simpl; constructor; auto.
  destruct (Qle_bool (1 # 2) p); [now right | now left].
Qed.

(** After the attended frame the running sum of [aw_prev] stays [1]. *)
Lemma gate_ones (l : list Q) : forall m,
  length l = m ->
  zip_with Qmult (MoChA.threshold l) (cumsum_from 1 (repeat 0 m))
  = MoChA.threshold l.
Proof.
  induction l as [|p r IH]; intros m Hm.
  - reflexivity.
  - destruct m as [|m]; [discriminate|]. simpl.
    change (1 + 0) with 1. f_equal.
    + destruct (Qle_bool (1 # 2) p); reflexivity.
    + apply IH. simpl in Hm. lia.
Qed.

(** Before the attended frame the running sum of [aw_prev] is [0]. *)
Lemma cumsum_from_zeros (m : nat) : cumsum_from 0 (repeat 0 m) = repeat 0 m.
Proof.
  induction m as [|m IH]; simpl; [reflexivity|].
  change (0 + 0) with 0. now rewrite IH.
Qed.

Lemma gate_zeros (l : list Q) : forall m,
  length l = m ->
  zip_with Qmult (MoChA.threshold l) (repeat 0 m) = repeat 0 m.
Proof.
  induction l as [|p r IH]; intros m Hm.
  - subst m. reflexivity.
  - destruct m as [|m]; [discriminate|]. simpl. f_equal.
    + destruct (Qle_bool (1 # 2) p); reflexivity.
    + apply IH. simpl in Hm. lia.
Qed.

Lemma cumsum_zero_start (aw : list Q) :
  Forall bit aw -> cumsum aw = cumsum_from 0 aw.
Proof.
  destruct 1 as [|a r Ha _]; [reflexivity|].
  simpl. now destruct Ha as [-> | ->].
Qed.

Lemma cumsum_from_app (l1 l2 : list Q) : forall acc,
  Forall (fun x => x = 0) l1 -> acc = 0 \/ acc = 1 ->
  cumsum_from acc (l1 ++ l2) = repeat acc (length l1) ++ cumsum_from acc l2.
Proof.
  induction l1 as [|a r IH]; intros acc Hz Hacc.
  - reflexivity.
  - inversion Hz as [|? ? Ha Hr]; subst. simpl.
    assert (E : acc + 0 = acc) by (destruct Hacc as [-> | ->]; reflexivity).
    rewrite E. f_equal. now apply IH.
Qed.

Lemma Forall_repeat_zero (n : nat) : Forall (fun x : Q => x = 0) (repeat 0 n).
Proof. induction n; simpl; constructor; auto. Qed.

Lemma zip_with_app {A B C : Type} (f : A -> B -> C) (l1 l2 : list A)
  (m1 m2 : list B) :
  length l1 = length m1 ->
  zip_with f (l1 ++ l2) (m1 ++ m2) = zip_with f l1 m1 ++ zip_with f l2 m2.
Proof.
  revert m1. induction l1 as [|a l1 IH]; intros [|b m1] H; try discriminate.
  - reflexivity.
  - simpl. f_equal. apply IH. simpl in H. lia.
Qed.

Lemma threshold_app (l1 l2 : list Q) :
  MoChA.threshold (l1 ++ l2) = MoChA.threshold l1 ++ MoChA.threshold l2.
Proof. apply map_app. Qed.

(** The first frame whose emission probability reaches one half. *)
Definition first_ge (l : list Q) : option nat := MoChA.first_emit l 0 0.

Lemma first_emit_shift (l : list Q) : forall i pos,
  (i <= pos)%nat ->
  MoChA.first_emit l i pos
  = option_map (fun j => (j + pos)%nat) (MoChA.first_emit l 0 0).
Proof.
  induction l as [|p r IH]; intros i pos Hle.
  - reflexivity.
  - simpl. apply Nat.leb_le in Hle. rewrite Hle. simpl.
    apply Nat.leb_le in Hle.
    destruct (Qle_bool (1 # 2) p); [reflexivity|].
    rewrite (IH i (S pos)) by lia. rewrite (IH 0%nat 1%nat) by lia.
    destruct (MoChA.first_emit r 0 0); simpl; [f_equal; lia | reflexivity].
Qed.

Lemma first_emit_skip (l1 l2 : list Q) : forall pos i,
  (pos + length l1 = i)%nat ->
  MoChA.first_emit (l1 ++ l2) i pos
  = option_map (fun j => (j + i)%nat) (first_ge l2).
Proof.
  induction l1 as [|p r IH]; intros pos i Hi; simpl in *.
  - rewrite Nat.add_0_r in Hi. subst i. apply first_emit_shift. lia.
  - assert (E : (i <=? pos)%nat = false) by (apply Nat.leb_gt; lia).
    rewrite E. simpl. apply IH. lia.
Qed.

(** The frames after the attended one: the first [1] of the thresholded
    row survives, every later entry is removed. *)
Lemma masked_threshold (l : list Q) :
  masked 1 (MoChA.threshold l)
  = match first_ge l with
    | Some j => MoChA.one_hot (length l) j
    | None => MoChA.zeros (length l)
    end.
Proof.
  unfold first_ge. induction l as [|p r IH].
  - reflexivity.
  - simpl MoChA.threshold. rewrite masked_cons. simpl MoChA.first_emit.
    destruct (Qle_bool (1 # 2) p).
    + change (1 * (1 - 1)) with 0. change (1 * 1) with 1.
      rewrite masked_zero by apply threshold_bits.
      unfold MoChA.threshold. rewrite length_map.
      unfold MoChA.one_hot. simpl. now rewrite Nat.sub_0_r.
    + change (1 * (1 - 0)) with 1. change (0 * 1) with 0.
      rewrite IH. rewrite (first_emit_shift r 0 1) by lia.
      destruct (MoChA.first_emit r 0 0) as [j|]; simpl.
      * unfold MoChA.one_hot. rewrite Nat.add_1_r. reflexivity.
      * reflexivity.
Qed.

Lemma hard_alpha_zeros (e : list Q) :
  MoChA.hard_alpha sigmoid e (MoChA.zeros (length e))
  = MoChA.zeros (length e).
Proof.
  rewrite hard_alpha_masked. unfold MoChA.zeros.
  rewrite cumsum_zero_start.
  2:{ eapply Forall_impl; [|apply Forall_repeat_zero]. intros; now left. }
  rewrite cumsum_from_zeros.
  rewrite gate_zeros by now rewrite length_map.
  rewrite <- (app_nil_r (repeat 0 (length e))) at 1.
  now rewrite masked_zeros_prefix, app_nil_r.
Qed.

Lemma hard_alpha_one_hot (e : list Q) (i : nat) :
  (i < length e)%nat ->
  MoChA.hard_alpha sigmoid e (MoChA.one_hot (length e) i)
  = MoChA.expected_alpha sigmoid e i.
Proof.
  intros Hi. rewrite hard_alpha_masked. unfold MoChA.expected_alpha.
  rewrite <- (firstn_skipn i (map sigmoid e)).
  assert (L1 : length (firstn i (map sigmoid e)) = i)
    by (rewrite length_firstn, length_map; lia).
  assert (L2 : length (skipn i (map sigmoid e)) = (length e - i)%nat)
    by (rewrite length_skipn, length_map; lia).
  rewrite (first_emit_skip _ _ 0%nat i) by (simpl; exact L1).
  unfold MoChA.one_hot.
  rewrite cumsum_zero_start.
  2:{ apply Forall_app. split.
      - eapply Forall_impl; [|apply Forall_repeat_zero]. intros; now left.
      - constructor; [now right|].
        eapply Forall_impl; [|apply Forall_repeat_zero]. intros; now left. }
  rewrite cumsum_from_app by (auto using Forall_repeat_zero).
  rewrite repeat_length. simpl cumsum_from. change (0 + 1) with 1.
  rewrite threshold_app.
  rewrite zip_with_app
    by (unfold MoChA.threshold; rewrite length_map, repeat_length; exact L1).
  rewrite (gate_zeros (firstn i (map sigmoid e)) i) by exact L1.
  rewrite masked_zeros_prefix.
  destruct (skipn i (map sigmoid e)) as [|p r] eqn:Es.
  { simpl in L2. lia. }
  assert (Lr : length r = (length e - S i)%nat) by (simpl in L2; lia).
  change (zip_with Qmult (MoChA.threshold (p :: r))
            (1 :: cumsum_from 1 (repeat 0 (length e - S i))))
    with (zip_with Qmult (MoChA.threshold (p :: r))
            (cumsum_from 1 (repeat 0 (S (length e - S i))))).
  rewrite gate_ones by (simpl; lia).
  rewrite masked_threshold.
  destruct (first_ge (p :: r)) as [j|] eqn:Ej; simpl option_map; cbv iota.
  - unfold MoChA.one_hot. simpl length. rewrite Lr.
    rewrite app_assoc, <- repeat_app. f_equal; [f_equal; lia|].
    f_equal. f_equal.
    assert (j < length (p :: r))%nat.
    { clear -Ej. unfold first_ge in Ej. revert Ej.
      generalize (p :: r). intros l. revert j.
      induction l as [|q l IH]; intros j; simpl; [discriminate|].
      destruct (Qle_bool (1 # 2) q).
      - intros [= <-]. lia.
      - rewrite (first_emit_shift l 0 1) by lia.
        destruct (MoChA.first_emit l 0 0) as [k|] eqn:Ek; simpl;
          [|discriminate].
        intros [= <-]. specialize (IH k eq_refl). lia. }
    simpl in H. lia.
  - unfold MoChA.zeros. simpl length. rewrite Lr.
    rewrite <- repeat_app. f_equal. lia.
Qed.

Lemma first_emit_some (l : list Q) : forall i pos j,
  MoChA.first_emit l i pos = Some j ->
  (pos <= j < pos + length l)%nat /\ (i <= j)%nat /\
  Qle_bool (1 # 2) (nth (j - pos) l 0) = true /\
  forall k, (pos <= k < j)%nat -> (i <= k)%nat ->
            Qle_bool (1 # 2) (nth (k - pos) l 0) = false.
Proof.
  induction l as [|p r IH]; intros i pos j; simpl; [discriminate|].
  destruct ((i <=? pos)%nat && Qle_bool (1 # 2) p) eqn:E.
  - intros [= <-]. apply andb_true_iff in E. destruct E as [E1 E2].
    apply Nat.leb_le in E1. rewrite Nat.sub_diag.
    repeat split; try lia; auto.
  - intros H. destruct (IH _ _ _ H) as (H1 & H2 & H3 & H4).
    replace (j - pos)%nat with (S (j - S pos)) by lia.
    repeat split; try lia; auto.
    intros k Hk Hik.
    destruct (Nat.eq_dec k pos) as [-> | Hne].
    + rewrite Nat.sub_diag.
      apply andb_false_iff in E. destruct E as [E | E]; [|exact E].
      apply Nat.leb_gt in E. lia.
    + replace (k - pos)%nat with (S (k - S pos)) by lia.
      apply H4; lia.
Qed.

Lemma first_emit_none (l : list Q) : forall i pos,
  MoChA.first_emit l i pos = None ->
  forall k, (pos <= k < pos + length l)%nat -> (i <= k)%nat ->
            Qle_bool (1 # 2) (nth (k - pos) l 0) = false.
Proof.
  induction l as [|p r IH]; intros i pos; simpl; [intros; lia|].
  destruct ((i <=? pos)%nat && Qle_bool (1 # 2) p) eqn:E; [discriminate|].
  intros H k Hk Hik.
  destruct (Nat.eq_dec k pos) as [-> | Hne].
  - rewrite Nat.sub_diag.
    apply andb_false_iff in E. destruct E as [E | E]; [|exact E].
    apply Nat.leb_gt in E. lia.
  - replace (k - pos)%nat with (S (k - S pos)) by lia.
    apply (IH _ _ H); lia.
Qed.

(** Frame [j] is the first frame at or after frame [i] whose sigmoid
    monotonic energy is at least one half. *)
Definition attends (e_mono : list Q) (i j : nat) : Prop :=
  (i <= j < length e_mono)%nat /\
  1 # 2 <= sigmoid (nth j e_mono 0) /\
  forall k, (i <= k < j)%nat -> ~ 1 # 2 <= sigmoid (nth k e_mono 0).

(** [aw] is a legal previous attention row for [klen] frames. *)
Definition zeros_or_one_hot (klen : nat) (aw : list Q) : Prop :=
  aw = MoChA.zeros klen \/
  exists i, (i < klen)%nat /\ aw = MoChA.one_hot klen i.

(** What hard attention returns for one row. *)
Definition hard_row_spec (e_mono aw alpha : list Q) : Prop :=
  let klen := length e_mono in
  (aw = MoChA.zeros klen /\ alpha = MoChA.zeros klen) \/
  (exists i, (i < klen)%nat /\ aw = MoChA.one_hot klen i /\
     ((exists j, attends e_mono i j /\ alpha = MoChA.one_hot klen j) \/
      ((forall k, (i <= k < klen)%nat -> ~ 1 # 2 <= sigmoid (nth k e_mono 0))
       /\ alpha = MoChA.zeros klen))).

Lemma hard_alpha_row (e aw : list Q) :
  zeros_or_one_hot (length e) aw ->
  hard_row_spec e aw (MoChA.hard_alpha sigmoid e aw).
Proof.
  intros [-> | (i & Hi & ->)].
  - left. split; [reflexivity | apply hard_alpha_zeros].
  - right. exists i. split; [exact Hi|]. split; [reflexivity|].
    rewrite hard_alpha_one_hot by exact Hi.
    unfold MoChA.expected_alpha.
    destruct (MoChA.first_emit (map sigmoid e) i 0) as [j|] eqn:E.
    + left. exists j. split; [|reflexivity].
      destruct (first_emit_some _ _ _ _ E) as (H1 & H2 & H3 & H4).
      rewrite length_map in H1. rewrite Nat.sub_0_r in H3.
      unfold attends. split; [lia|]. split.
      * apply Qle_bool_iff.
        rewrite <- (map_nth sigmoid e 0 j).
        rewrite (nth_indep _ (sigmoid 0) 0) by (rewrite length_map; lia).
        exact H3.
      * intros k Hk Hc. apply Qle_bool_iff in Hc.
        rewrite <- (map_nth sigmoid e 0 k) in Hc.
        rewrite (nth_indep _ (sigmoid 0) 0) in Hc
          by (rewrite length_map; lia).
        specialize (H4 k). rewrite Nat.sub_0_r in H4.
        rewrite H4 in Hc by lia. discriminate.
    + right. split; [|reflexivity].
      intros k Hk Hc. apply Qle_bool_iff in Hc.
      rewrite <- (map_nth sigmoid e 0 k) in Hc.
      rewrite (nth_indep _ (sigmoid 0) 0) in Hc by (rewrite length_map; lia).
      pose proof (first_emit_none _ _ _ E k) as H4.
      rewrite length_map, Nat.sub_0_r in H4.
      rewrite H4 in Hc by lia. discriminate.
Qed.

Lemma nth_error_zip_with {A B C : Type} (f : A -> B -> C) (l : list A) :
  forall (m : list B) (n : nat) (a : A) (b : B),
  nth_error l n = Some a -> nth_error m n = Some b ->
  nth_error (zip_with f l m) n = Some (f a b).
Proof.
  induction l as [|x l IH]; intros [|y m] [|n] a b; simpl;
    try discriminate.
  - now intros [= ->] [= ->].
  - apply IH.
Qed.

(** C9. For every batch row, [MoChA.forward] in mode ['hard'] maps a
    previous attention row that is all zeros or one-hot to a row [alpha]
    that is again all zeros or one-hot: its only [1], if any, sits on the
    first frame at or after the previously attended frame whose sigmoid
    monotonic energy is at least one half. *)
Theorem mocha_hard_alpha_one_hot
  (e_mono aw_prev : list (list Q)) (b : nat) (e aw : list Q) :
  nth_error e_mono b = Some e ->
  nth_error aw_prev b = Some aw ->
  zeros_or_one_hot (length e) aw ->
  exists alpha,
    nth_error (MoChA.forward_hard sigmoid e_mono (Some aw_prev)) b
      = Some alpha /\
    hard_row_spec e aw alpha /\
    zeros_or_one_hot (length e) alpha.
Proof.
  intros He Haw Hz.
  exists (MoChA.hard_alpha sigmoid e aw). split.
  - unfold MoChA.forward_hard. now apply nth_error_zip_with.
  - pose proof (hard_alpha_row e aw Hz) as Hs. split; [exact Hs|].
    destruct Hs as [[_ ->] | (i & Hi & _ & [(j & Hj & ->) | [_ ->]])].
    + now left.
    + right. exists j. split; [|reflexivity]. destruct Hj as [Hj _]. lia.
    + now left.
Qed.

End MoChA_hard.

Lemma mocha_hard_alpha_one_hot_witness :
  exists alpha,
    nth_error
      (MoChA.forward_hard Examples.sigmoid
         [[-1; 2; -3; 1]; [1; 1; 1; 1]]
         (Some [[0; 1; 0; 0]; [0; 0; 0; 0]])) 0
      = Some alpha /\
    hard_row_spec Examples.sigmoid [-1; 2; -3; 1] [0; 1; 0; 0] alpha /\
    zeros_or_one_hot 4 alpha.
Proof.
  apply (mocha_hard_alpha_one_hot Examples.sigmoid
           [[-1; 2; -3; 1]; [1; 1; 1; 1]]
           [[0; 1; 0; 0]; [0; 0; 0; 0]] 0 [-1; 2; -3; 1] [0; 1; 0; 0]).
  - reflexivity.
  - reflexivity.
  - right. exists 1%nat. split; [simpl; lia | reflexivity].
Defined.

(** ** Hierarchical CTC loss *)

Lemma mapM_index_ok {A : Type} (x : list A) (d : A) (perm : list nat) :
  (forall i, In i perm -> (i < length x)%nat) ->
  mapM (index x) perm = Ok (map (fun i => nth i x d) perm).
Proof.
  induction perm as [|i perm IH]; intros H; [reflexivity|].
  simpl. unfold index at 1.
  assert (Hi : (i < length x)%nat) by (apply H; now left).
  rewrite (nth_error_nth' x d Hi).
  rewrite IH by (intros j Hj; apply H; now right).
  reflexivity.
Qed.

Section HierarchicalCTC_forward.

Variables Inputs Logits : Type.
Variable _encode : Inputs -> list Z -> bool -> Logits * Logits * list nat.
Variable size : Logits -> Z * Z.
Variable div_temperature : Logits -> Q -> Logits.
Variable _concatenate_labels : list (list Z) -> list Z -> list Z.
Variable ctc_loss_fn : Logits -> list Z -> list Z -> list Z -> Q.

Local Abbreviation forward :=
  (HierarchicalCTC.forward Inputs Logits _encode size div_temperature
     _concatenate_labels ctc_loss_fn).

(** The logits the loss sees: divided by the temperature unless it is 1. *)
Definition smoothed (self : HierarchicalCTC.Self) (logits : Logits) : Logits :=
  if Qeq_bool (HierarchicalCTC.logits_temperature self) 1 then logits
  else div_temperature logits (HierarchicalCTC.logits_temperature self).

(** The rows [perm] of the label tensor, every label moved up by one. *)
Definition shifted_rows (labels : list (list Z)) (perm : list nat)
  : list (list Z) :=
  map (fun i => map Z.succ (nth i labels [])) perm.

(** The CTC loss of one output layer, on the labels moved up by one. *)
Definition shifted_ctc_loss (logits : Logits) (labels : list (list Z))
  (inputs_seq_len labels_seq_len : list Z) (perm : list nat) : Q :=
  let lens := map (fun i => nth i labels_seq_len 0%Z) perm in
  ctc_loss_fn logits
    (_concatenate_labels (shifted_rows labels perm) lens)
    (map (fun i => nth i inputs_seq_len 0%Z) perm) lens.

(** Every index of [perm] is a row of the batch. *)
Definition rows_of_batch (perm : list nat)
  (labels labels_sub : list (list Z))
  (inputs_seq_len labels_seq_len labels_seq_len_sub : list Z) : Prop :=
  forall i, In i perm ->
    (i < length labels /\ i < length labels_sub /\
     i < length inputs_seq_len /\ i < length labels_seq_len /\
     i < length labels_seq_len_sub)%nat.

(** What [forward] returns, in terms of the two CTC losses. *)
Definition forward_spec (self : HierarchicalCTC.Self) (inputs : Inputs)
  (labels labels_sub : list (list Z))
  (inputs_seq_len labels_seq_len labels_seq_len_sub : list Z)
  (volatile : bool) : Prop :=
  let '(logits, logits_sub, perm) := _encode inputs inputs_seq_len volatile in
  let batch_size := inject_Z (snd (size logits)) in
  let w := HierarchicalCTC.main_loss_weight self in
  let loss_main :=
    shifted_ctc_loss (smoothed self logits) labels inputs_seq_len
      labels_seq_len perm in
  let loss_sub :=
    shifted_ctc_loss (smoothed self logits_sub) labels_sub inputs_seq_len
      labels_seq_len_sub perm in
  exists loss main_part sub_part,
    forward self inputs labels labels_sub inputs_seq_len labels_seq_len
      labels_seq_len_sub volatile = Ok (loss, main_part, sub_part) /\
    loss = (loss_main * w + loss_sub * (1 - w)) / batch_size /\
    main_part = loss_main * w / batch_size /\
    sub_part = loss_sub * (1 - w) / batch_size /\
    loss == main_part + sub_part /\
    (forall row y, In row (shifted_rows labels perm) -> In y row ->
       exists y0, In y0 (concat labels) /\ y = (y0 + 1)%Z) /\
    (forall row y, In row (shifted_rows labels_sub perm) -> In y row ->
       exists y0, In y0 (concat labels_sub) /\ y = (y0 + 1)%Z).

Lemma shifted_rows_take (labels : list (list Z)) (perm : list nat) :
  (forall i, In i perm -> (i < length labels)%nat) ->
  HierarchicalCTC.take (HierarchicalCTC.plus_one labels) perm
  = Ok (shifted_rows labels perm).
Proof.
  intros H. unfold HierarchicalCTC.take.
  rewrite (mapM_index_ok _ []).
  - f_equal. apply map_ext_in. intros i Hi.
    unfold HierarchicalCTC.plus_one.
    change (@nil Z) with (map (fun y => (y + 1)%Z) []) at 1.
    rewrite map_nth. apply map_ext. intros y. lia.
  - intros i Hi. unfold HierarchicalCTC.plus_one. rewrite length_map. auto.
Qed.

Lemma shifted_rows_label (labels : list (list Z)) (perm : list nat) :
  (forall i, In i perm -> (i < length labels)%nat) ->
  forall row y, In row (shifted_rows labels perm) -> In y row ->
    exists y0, In y0 (concat labels) /\ y = (y0 + 1)%Z.
Proof.
  intros H row y Hrow Hy. unfold shifted_rows in Hrow.
  apply in_map_iff in Hrow. destruct Hrow as (i & <- & Hi).
  apply in_map_iff in Hy. destruct Hy as (y0 & <- & Hy0).
  exists y0. split; [|lia].
  apply in_concat. exists (nth i labels []). split; [|exact Hy0].
  apply nth_In. auto.
Qed.

(** C10. [HierarchicalCTC.forward] returns [(loss, main_part, sub_part)]
    with [loss = (w * loss_main + (1 - w) * loss_sub) / batch_size],
    [main_part = w * loss_main / batch_size] and
    [sub_part = (1 - w) * loss_sub / batch_size], so that
    [loss] is [main_part + sub_part]; both CTC losses are computed on the
    labels moved up by one, index 0 being kept for the blank symbol. *)
Theorem hierarchical_ctc_forward_loss (self : HierarchicalCTC.Self)
  (inputs : Inputs) (labels labels_sub : list (list Z))
  (inputs_seq_len labels_seq_len labels_seq_len_sub : list Z)
  (volatile : bool) :
  rows_of_batch (snd (_encode inputs inputs_seq_len volatile))
    labels labels_sub inputs_seq_len labels_seq_len labels_seq_len_sub ->
  (0 < snd (size (fst (fst (_encode inputs inputs_seq_len volatile)))))%Z ->
  forward_spec self inputs labels labels_sub inputs_seq_len labels_seq_len
    labels_seq_len_sub volatile.
Proof.
  unfold forward_spec, HierarchicalCTC.forward, rows_of_batch.
  destruct (_encode inputs inputs_seq_len volatile)
    as [[logits logits_sub] perm].
  simpl fst; simpl snd. intros Hperm Hbs.
  rewrite !shifted_rows_take by (intros i Hi; apply (Hperm i Hi)).
  unfold HierarchicalCTC.take.
  rewrite !(mapM_index_ok _ 0%Z) by (intros i Hi; apply (Hperm i Hi)).
  cbn [bind]. destruct (size logits) as [max_time batch_size].
  unfold shifted_ctc_loss, smoothed. simpl snd.
  destruct (Qeq_bool (HierarchicalCTC.logits_temperature self) 1);
    (do 3 eexists; split; [reflexivity|];
     repeat split; try reflexivity;
     [ unfold Qdiv; ring
     | apply shifted_rows_label; intros i Hi; apply (Hperm i Hi)
     | apply shifted_rows_label; intros i Hi; apply (Hperm i Hi) ]).
Qed.

End HierarchicalCTC_forward.

Lemma hierarchical_ctc_forward_loss_witness :
  forward_spec unit Z Examples.hctc_encode Examples.hctc_size
    Examples.hctc_div_temperature Examples.hctc_concatenate_labels
    Examples.hctc_loss Examples.hctc_self tt
    [[1; 2]; [0; 3]]%Z [[0]; [1]]%Z [5; 4]%Z [2; 2]%Z [1; 1]%Z false.
Proof.
  apply (hierarchical_ctc_forward_loss unit Z Examples.hctc_encode
           Examples.hctc_size Examples.hctc_div_temperature
           Examples.hctc_concatenate_labels Examples.hctc_loss
           Examples.hctc_self tt
           [[1; 2]; [0; 3]]%Z [[0]; [1]]%Z [5; 4]%Z [2; 2]%Z [1; 1]%Z false).
  - intros i [<- | [<- | []]]; simpl; lia.
  - reflexivity.
Defined.

(** ** Beam search: what a call depends on *)

Section Determinism.

Import TransformerDecoder.

Variables Frame LMState CTCState : Type.
Variable decoder_logits : list Frame -> list nat -> list Q.
Variable log_softmax : list Q -> list Q.
Variable new_CTCPrefixScore
  : list (list Q) -> nat -> nat -> CTCPrefixScore CTCState.

Variable eouts : list (list Frame).
Variable elens : list nat.
Variable params : Params.
Variable lm : option (LM LMState).
Variables lm_2nd lm_2nd_rev : option LM2.
Variable ctc_log_probs : option (list (list (list Q))).
Variable nbest : Z.
Variable exclude_eos : bool.
Variable refs_id : option (list (list nat)).
Variable speakers : option (list string).
Variable n_ensmbl : nat.

Local Abbreviation call :=
  (beam_search decoder_logits log_softmax new_CTCPrefixScore eouts elens
     params lm lm_2nd lm_2nd_rev ctc_log_probs nbest exclude_eos refs_id
     speakers n_ensmbl).

Local Abbreviation utterances' :=
  (utterances decoder_logits log_softmax new_CTCPrefixScore eouts elens
     params lm lm_2nd lm_2nd_rev ctc_log_probs nbest refs_id speakers
     n_ensmbl).

Local Abbreviation decode_utterance' :=
  (decode_utterance decoder_logits log_softmax new_CTCPrefixScore eouts elens
     params lm lm_2nd lm_2nd_rev ctc_log_probs nbest refs_id speakers
     n_ensmbl).

Local Abbreviation search' :=
  (search decoder_logits log_softmax eouts elens params lm lm_2nd lm_2nd_rev
     nbest refs_id n_ensmbl).

(** Two decoder objects that differ at most in the fields a call writes:
    [prev_spk] and [lmstate_final]. *)
Definition same_config (s1 s2 : Self LMState) : Prop :=
  eos s1 = eos s2 /\ blank s1 = blank s2 /\ bwd s1 = bwd s2.

Lemma same_config_refl (s : Self LMState) : same_config s s.
Proof. now repeat split. Qed.

Lemma same_config_trans (s1 s2 s3 : Self LMState) :
  same_config s1 s2 -> same_config s2 s3 -> same_config s1 s3.
Proof.
  unfold same_config. intros (-> & -> & ->) (-> & -> & ->). now repeat split.
Qed.

Lemma search_same_config (s1 s2 : Self LMState) (b : nat)
  (ctc : option (CTCPrefixScore CTCState)) (lmstate : option LMState) :
  same_config s1 s2 -> search' s1 b ctc lmstate = search' s2 b ctc lmstate.
Proof.
  destruct s1, s2. unfold same_config. simpl. intros (-> & -> & ->).
  reflexivity.
Qed.

Lemma init_ctc_same_config (s1 s2 : Self LMState) (b : nat) :
  same_config s1 s2 ->
  init_ctc new_CTCPrefixScore params ctc_log_probs s1 b
  = init_ctc new_CTCPrefixScore params ctc_log_probs s2 b.
Proof.
  unfold same_config, init_ctc. now intros (-> & -> & ->).
Qed.

(** Without carry-over every utterance starts from [lmstate = None]. *)
Lemma carry_over_disabled (s : Self LMState) (b : nat) :
  recog_lm_state_carry_over params = false ->
  carry_over params lm speakers s b
  = match speakers with
    | Some spks =>
        match index spks b with
        | Ok spk => Ok (set_prev_spk s spk, None)
        | Raise e => Raise e
        end
    | None => Ok (s, None)
    end.
Proof.
  intros H. unfold carry_over. destruct speakers as [spks|]; [|reflexivity].
  destruct (index spks b) as [spk|e]; [|reflexivity].
  simpl. rewrite H. simpl. now destruct (String.eqb spk (prev_spk s)).
Qed.

Lemma decode_utterance_same_config (s1 s2 : Self LMState) (b : nat) :
  recog_lm_state_carry_over params = false ->
  same_config s1 s2 ->
  snd (decode_utterance' s1 b) = snd (decode_utterance' s2 b) /\
  same_config (fst (decode_utterance' s1 b)) (fst (decode_utterance' s2 b)) /\
  same_config s1 (fst (decode_utterance' s1 b)).
Proof.
  intros Hc Hs. unfold decode_utterance.
  rewrite (init_ctc_same_config s1 s2 b Hs).
  destruct (init_ctc new_CTCPrefixScore params ctc_log_probs s2 b) as [ctc|e].
  2:{ simpl. auto using same_config_refl. }
  rewrite !carry_over_disabled by exact Hc.
  destruct speakers as [spks|].
  - destruct (index spks b) as [spk|e]; simpl.
    + split; [|split].
      * apply search_same_config. destruct Hs as (? & ? & ?).
        now repeat split.
      * destruct Hs as (? & ? & ?). now repeat split.
      * now repeat split.
    + auto using same_config_refl.
  - simpl. split; [now apply search_same_config|].
    auto using same_config_refl.
Qed.

Lemma utterances_same_config (bs : list nat) : forall s1 s2 : Self LMState,
  recog_lm_state_carry_over params = false ->
  same_config s1 s2 ->
  snd (utterances' bs s1) = snd (utterances' bs s2) /\
  same_config (fst (utterances' bs s1)) (fst (utterances' bs s2)) /\
  same_config s1 (fst (utterances' bs s1)).
Proof.
  induction bs as [|b bs IH]; intros s1 s2 Hc Hs.
  - simpl. auto using same_config_refl.
  - simpl.
    destruct (decode_utterance_same_config s1 s2 b Hc Hs) as (E & Hs' & H1).
    destruct (decode_utterance' s1 b) as [s1' r1].
    destruct (decode_utterance' s2 b) as [s2' r2].
    simpl in E, Hs', H1. subst r2.
    destruct r1 as [u|e]; [|simpl; auto].
    destruct (IH s1' s2' Hc Hs') as (E' & Hs'' & H1').
    destruct (utterances' bs s1') as [s1'' r1].
    destruct (utterances' bs s2') as [s2'' r2].
    simpl in E', Hs'', H1'. subst r2.
    destruct r1; simpl; eauto using same_config_trans.
Qed.

(** Whatever [prev_spk] and [lmstate_final] hold, the result is the same. *)
Lemma beam_search_same_config (s1 s2 : Self LMState) :
  recog_lm_state_carry_over params = false ->
  same_config s1 s2 ->
  snd (call s1) = snd (call s2) /\ same_config s1 (fst (call s1)).
Proof.
  intros Hc Hs. unfold beam_search.
  destruct (check_config params lm lm_2nd lm_2nd_rev nbest) as [[]|e].
  2:{ simpl. auto using same_config_refl. }
  destruct (utterances_same_config (seq 0 (length eouts)) s1 s2 Hc Hs)
    as (E & Hs' & H1).
  destruct (utterances' (seq 0 (length eouts)) s1) as [s1' r1].
  destruct (utterances' (seq 0 (length eouts)) s2) as [s2' r2].
  simpl in E, Hs', H1. subst r2.
  destruct r1 as [us|e]; [|simpl; auto].
  assert (Es : map (strip_eos exclude_eos s1') us
               = map (strip_eos exclude_eos s2') us).
  { apply map_ext. intros u. unfold strip_eos.
    destruct Hs' as (_ & _ & ->). reflexivity. }
  rewrite Es.
  destruct (rev us) as [|u ?]; [simpl; auto|].
  simpl. split; [reflexivity|].
  destruct (utt_end_hyps u); [exact H1|].
  destruct H1 as (? & ? & ?). now repeat split.
Qed.

(** C7. With LM state carry-over disabled the output of [beam_search] (token
    sequences and scores) is a function of its arguments alone: it is the
    same for any two values of the hidden fields [prev_spk] and
    [lmstate_final] of the decoder object, and so a second call on the
    object the first call leaves behind returns the same output. *)
Theorem beam_search_deterministic :
  recog_lm_state_carry_over params = false ->
  (forall s1 s2 : Self LMState,
     same_config s1 s2 -> snd (call s1) = snd (call s2)) /\
  (forall s : Self LMState, snd (call (fst (call s))) = snd (call s)).
Proof.
  intros Hc. split.
  - intros s1 s2 Hs. now apply beam_search_same_config.
  - intros s. symmetry. apply beam_search_same_config; [exact Hc|].
    apply (beam_search_same_config s s Hc (same_config_refl s)).
Qed.

End Determinism.

Lemma beam_search_deterministic_witness :
  (forall s1 s2 : TransformerDecoder.Self nat,
     same_config nat s1 s2 ->
     snd (TransformerDecoder.beam_search Examples.toy_logits
            Examples.toy_log_softmax Examples.toy_ctc Examples.toy_eouts
            Examples.toy_elens (Examples.toy_params 2)
            (Some Examples.toy_lm) None None None 1 false None
            (Some ["A"%string]) 0 s1)
     = snd (TransformerDecoder.beam_search Examples.toy_logits
              Examples.toy_log_softmax Examples.toy_ctc Examples.toy_eouts
              Examples.toy_elens (Examples.toy_params 2)
              (Some Examples.toy_lm) None None None 1 false None
              (Some ["A"%string]) 0 s2)) /\
  (forall s : TransformerDecoder.Self nat,
     snd (TransformerDecoder.beam_search Examples.toy_logits
            Examples.toy_log_softmax Examples.toy_ctc Examples.toy_eouts
            Examples.toy_elens (Examples.toy_params 2)
            (Some Examples.toy_lm) None None None 1 false None
            (Some ["A"%string]) 0
            (fst (TransformerDecoder.beam_search Examples.toy_logits
                    Examples.toy_log_softmax Examples.toy_ctc
                    Examples.toy_eouts Examples.toy_elens
                    (Examples.toy_params 2) (Some Examples.toy_lm) None None
                    None 1 false None (Some ["A"%string]) 0 s)))
     = snd (TransformerDecoder.beam_search Examples.toy_logits
              Examples.toy_log_softmax Examples.toy_ctc Examples.toy_eouts
              Examples.toy_elens (Examples.toy_params 2)
              (Some Examples.toy_lm) None None None 1 false None
              (Some ["A"%string]) 0 s)).
Proof.
  apply (beam_search_deterministic unit nat unit Examples.toy_logits
           Examples.toy_log_softmax Examples.toy_ctc Examples.toy_eouts
           Examples.toy_elens (Examples.toy_params 2) (Some Examples.toy_lm)
           None None None 1 false None (Some ["A"%string]) 0%nat).
  reflexivity.
Defined.

(** With carry-over switched on the stored speaker and LM state do reach
    the result: the hypothesis of the theorem above cannot be dropped. *)
Remark carry_over_reaches_the_result :
  snd (TransformerDecoder.beam_search Examples.toy_logits
         Examples.toy_log_softmax Examples.toy_ctc Examples.toy_eouts
         Examples.toy_elens (Examples.toy_params_carry 2)
         (Some Examples.toy_lm) None None None 1 false None
         (Some ["A"%string]) 0 Examples.toy_self)
  <> snd (TransformerDecoder.beam_search Examples.toy_logits
            Examples.toy_log_softmax Examples.toy_ctc Examples.toy_eouts
            Examples.toy_elens (Examples.toy_params_carry 2)
            (Some Examples.toy_lm) None None None 1 false None
            (Some ["A"%string]) 0 Examples.toy_self_after).
Proof. vm_compute. discriminate. Qed.

(** ** Beam search: configuration errors *)

Section Configuration.

Import TransformerDecoder.

Variables Frame LMState CTCState : Type.
Variable decoder_logits : list Frame -> list nat -> list Q.
Variable log_softmax : list Q -> list Q.
Variable new_CTCPrefixScore
  : list (list Q) -> nat -> nat -> CTCPrefixScore CTCState.

(** The call fails at an assertion and leaves the decoder object as it
    was: nothing has been decoded. *)
Definition fails_fast (eouts : list (list Frame)) (elens : list nat)
  (params : Params) (lm : option (LM LMState)) (lm_2nd lm_2nd_rev : option LM2)
  (ctc_log_probs : option (list (list (list Q)))) (nbest : Z)
  (exclude_eos : bool) (refs_id : option (list (list nat)))
  (speakers : option (list string)) (n_ensmbl : nat) : Prop :=
  forall self : Self LMState,
    beam_search decoder_logits log_softmax new_CTCPrefixScore eouts elens
      params lm lm_2nd lm_2nd_rev ctc_log_probs nbest exclude_eos refs_id
      speakers n_ensmbl self
    = (self, Raise AssertionError).

(** One of the weights of the configuration is negative. *)
Definition negative_weight (params : Params) : Prop :=
  recog_ctc_weight params < 0 \/ recog_lm_weight params < 0 \/
  recog_lm_second_weight params < 0 \/ recog_lm_rev_weight params < 0 \/
  recog_length_penalty params < 0.

(** The configuration errors the specification lists. *)
Definition config_error (params : Params) (nbest : Z) : Prop :=
  (recog_beam_width params < nbest)%Z \/ negative_weight params \/
  (recog_beam_width params < 1)%Z.

(** The configuration errors the code checks: the weight of a model is
    looked at only when the model is there. *)
Definition checked_config_error (eouts : list (list Frame)) (params : Params)
  (lm : option (LM LMState)) (lm_2nd lm_2nd_rev : option LM2)
  (ctc_log_probs : option (list (list (list Q)))) (nbest : Z) : Prop :=
  (nbest < 1)%Z \/ (recog_beam_width params < nbest)%Z \/
  (recog_beam_width params < 1)%Z \/
  (lm <> None /\ recog_lm_weight params <= 0) \/
  (lm_2nd <> None /\ recog_lm_second_weight params <= 0) \/
  (lm_2nd_rev <> None /\ recog_lm_rev_weight params <= 0) \/
  (ctc_log_probs <> None /\ recog_ctc_weight params <= 0 /\ eouts <> []).

Lemma Qlt_bool_false (a b : Q) : b <= a -> Qlt_bool a b = false.
Proof.
  intros H. unfold Qlt_bool. apply negb_false_iff. now apply Qle_bool_iff.
Qed.

Lemma Qlt_bool_true (a b : Q) : a < b -> Qlt_bool a b = true.
Proof.
  intros H. unfold Qlt_bool. apply negb_true_iff.
  destruct (Qle_bool b a) eqn:E; [|reflexivity].
  apply Qle_bool_iff in E. exfalso. now apply (Qlt_not_le a b).
Qed.

Lemma check_config_cases (params : Params) (lm : option (LM LMState))
  (lm_2nd lm_2nd_rev : option LM2) (nbest : Z) :
  check_config params lm lm_2nd lm_2nd_rev nbest = Raise AssertionError \/
  (check_config params lm lm_2nd lm_2nd_rev nbest = Ok tt /\
   (1 <= nbest <= recog_beam_width params)%Z /\
   (lm <> None -> Qlt_bool 0 (recog_lm_weight params) = true) /\
   (lm_2nd <> None -> Qlt_bool 0 (recog_lm_second_weight params) = true) /\
   (lm_2nd_rev <> None -> Qlt_bool 0 (recog_lm_rev_weight params) = true)).
Proof.
  unfold check_config, assert.
  destruct ((1 <=? nbest)%Z && (nbest <=? recog_beam_width params)%Z) eqn:E1;
    [|now left].
  apply andb_true_iff in E1. destruct E1 as [E1 E1'].
  apply Z.leb_le in E1, E1'.
  destruct lm as [m|], lm_2nd as [m2|], lm_2nd_rev as [m3|]; cbn [bind];
    repeat match goal with
           | |- context [if Qlt_bool 0 ?w then _ else _] =>
               destruct (Qlt_bool 0 w) eqn:?; cbn [bind]; [|now left]
           end;
    right; repeat split; auto; try lia; try congruence.
Qed.

(** C8, as the code has it.  [beam_search] fails at an assertion, with the
    decoder object untouched and nothing decoded, when [nbest] is below 1
    or above [beam_width] (so also when [beam_width] is below 1), when a
    language model is passed with a weight that is not positive, and when
    CTC log-probabilities are passed for a batch that is not empty with a
    CTC weight that is not positive. *)
Theorem beam_search_checked_config_error
  (eouts : list (list Frame)) (elens : list nat) (params : Params)
  (lm : option (LM LMState)) (lm_2nd lm_2nd_rev : option LM2)
  (ctc_log_probs : option (list (list (list Q)))) (nbest : Z)
  (exclude_eos : bool) (refs_id : option (list (list nat)))
  (speakers : option (list string)) (n_ensmbl : nat) :
  checked_config_error eouts params lm lm_2nd lm_2nd_rev ctc_log_probs nbest ->
  fails_fast eouts elens params lm lm_2nd lm_2nd_rev ctc_log_probs nbest
    exclude_eos refs_id speakers n_ensmbl.
Proof.
  intros H self. unfold beam_search.
  destruct (check_config_cases params lm lm_2nd lm_2nd_rev nbest)
    as [-> | (-> & Hn & H1 & H2 & H3)]; [reflexivity|].
  destruct H as [H | [H | [H | [H | [H | [H | H]]]]]]; try lia.
  - destruct H as [Hlm Hw]. specialize (H1 Hlm).
    now rewrite (Qlt_bool_false _ _ Hw) in H1.
  - destruct H as [Hlm Hw]. specialize (H2 Hlm).
    now rewrite (Qlt_bool_false _ _ Hw) in H2.
  - destruct H as [Hlm Hw]. specialize (H3 Hlm).
    now rewrite (Qlt_bool_false _ _ Hw) in H3.
  - destruct H as (Hctc & Hw & He).
    destruct eouts as [|e0 rest]; [congruence|].
    destruct ctc_log_probs as [log_probs|]; [|congruence].
    simpl. unfold decode_utterance, init_ctc.
    rewrite (Qlt_bool_false _ _ Hw). reflexivity.
Qed.

End Configuration.

Lemma beam_search_checked_config_error_witness :
  fails_fast unit nat unit Examples.toy_logits Examples.toy_log_softmax
    Examples.toy_ctc Examples.toy_eouts Examples.toy_elens
    (Examples.toy_params 1) None None None None 2 false None None 0.
Proof.
  apply (beam_search_checked_config_error unit nat unit Examples.toy_logits
           Examples.toy_log_softmax Examples.toy_ctc Examples.toy_eouts
           Examples.toy_elens (Examples.toy_params 1) None None None None 2
           false None None 0%nat).
  right. left. simpl. lia.
Defined.

(** A negative CTC weight and a negative length penalty, with no CTC
    log-probabilities passed: the call decodes as usual. *)
Lemma negative_weight_is_accepted :
  ~ (config_error Examples.toy_params_negative 1 ->
     fails_fast unit nat unit Examples.toy_logits Examples.toy_log_softmax
       Examples.toy_ctc Examples.toy_eouts Examples.toy_elens
       Examples.toy_params_negative None None None None 1 false None None 0).
Proof.
  intros H.
  assert (E : config_error Examples.toy_params_negative 1).
  { right. left. left. reflexivity. }
  specialize (H E Examples.toy_self). vm_compute in H. discriminate H.
Qed.

(** ** Beam search: the step loop *)

Lemma bind_ok {A B : Type} (m : result A) (f : A -> result B) (b : B) :
  bind m f = Ok b -> exists a, m = Ok a /\ f a = Ok b.
Proof. destruct m as [a|e]; simpl; [eauto | discriminate]. Qed.

Section StepLoop.

Import TransformerDecoder.

Variables Frame LMState CTCState : Type.
Variable decoder_logits : list Frame -> list nat -> list Q.
Variable log_softmax : list Q -> list Q.

Variable self : Self LMState.
Variable params : Params.
Variable lm : option (LM LMState).
Variable ctc_prefix_score : option (CTCPrefixScore CTCState).
Variable eouts_b : list Frame.
Variable elens_b : nat.
Variable beam_width : nat.
Variable n_models : nat.
Variable oracle_len : option nat.

Local Abbreviation step' :=
  (step decoder_logits log_softmax self params lm ctc_prefix_score eouts_b
     elens_b beam_width n_models oracle_len).

Local Abbreviation steps' :=
  (steps decoder_logits log_softmax self params lm ctc_prefix_score eouts_b
     elens_b beam_width n_models oracle_len).

Local Abbreviation expand' :=
  (expand self params ctc_prefix_score elens_b beam_width).

(** The hypotheses one step creates, before "Local pruning". *)
Definition expansions (st : Loop LMState CTCState)
  (scores_lm : option (list (list Q))) (lmstate : option (list LMState))
  : result (list (list (Hyp LMState CTCState))) :=
  mapM (fun jb : nat * Hyp LMState CTCState =>
          let '(j, beam) := jb in
          expand' j beam
            (scores_attn_row decoder_logits log_softmax params eouts_b
               n_models (hyp beam))
            scores_lm lmstate)
    (combine (seq 0 (length (hyps st))) (hyps st)).

(** What a step that does not raise has done. *)
Lemma step_ok (t : nat) (st st' : Loop LMState CTCState) (brk : bool) :
  step' t st = Ok (st', brk) ->
  exists scores_lm lmstate new_hyps,
    (lm = None -> scores_lm = None /\ lmstate = None) /\
    expansions st scores_lm lmstate = Ok new_hyps /\
    let pruned := local_pruning beam_width (concat new_hyps) in
    let finished := end_hyps st ++ filter (complete self oracle_len t) pruned in
    brk = (beam_width <=? length finished)%nat /\
    end_hyps st' = (if brk then firstn beam_width finished else finished) /\
    hyps st' = (if brk then hyps st
                else filter (fun h => negb (complete self oracle_len t h))
                       pruned).
Proof.
  unfold step. intros H.
  apply bind_ok in H. destruct H as (lmstate0 & Hcat & H).
  destruct (match lm with
            | Some m =>
                let '(lmstate, scores_lm) :=
                  lm_predict m
                    (map (fun h => last (hyp h) 0%nat) (hyps st)) lmstate0 in
                (lmstate, Some scores_lm)
            | None => (lmstate0, None)
            end) as [lmstate scores_lm] eqn:Elm.
  apply bind_ok in H. destruct H as (new_hyps & Hnew & H).
  exists scores_lm, lmstate, new_hyps. split; [|split; [exact Hnew|]].
  - intros ->. injection Elm as <- <-. split; [reflexivity|].
    unfold cat_lmstate in Hcat. now injection Hcat as <-.
  - cbv zeta.
    destruct (beam_width <=? _)%nat; injection H as <- <-; auto.
Qed.

Lemma step_break (t : nat) (st st' : Loop LMState CTCState) :
  step' t st = Ok (st', true) -> length (end_hyps st') = beam_width.
Proof.
  intros H. apply step_ok in H.
  destruct H as (sl & ls & new & _ & _ & Hb & He & _).
  rewrite He. symmetry in Hb. apply Nat.leb_le in Hb.
  rewrite length_firstn. lia.
Qed.

Lemma step_continue (t : nat) (st st' : Loop LMState CTCState) :
  step' t st = Ok (st', false) -> (length (end_hyps st') < beam_width)%nat.
Proof.
  intros H. apply step_ok in H.
  destruct H as (sl & ls & new & _ & _ & Hb & He & _).
  rewrite He. symmetry in Hb. apply Nat.leb_gt in Hb. exact Hb.
Qed.

(** The iterations of the step loop that were started. *)
Definition iterations (r : list (Loop LMState CTCState) * option Exn) : nat :=
  match snd r with
  | Some _ => S (length (fst r))
  | None => length (fst r)
  end.

Lemma steps_trace (ts : list nat) : forall st : Loop LMState CTCState,
  (iterations (steps' ts st) <= length ts)%nat /\
  (forall i st', nth_error (fst (steps' ts st)) i = Some st' ->
     (S i < length (fst (steps' ts st)))%nat ->
     (length (end_hyps st') < beam_width)%nat) /\
  (forall i st', nth_error (fst (steps' ts st)) i = Some st' ->
     (beam_width <= length (end_hyps st'))%nat ->
     length (end_hyps st') = beam_width /\
     S i = length (fst (steps' ts st))).
Proof.
  induction ts as [|t ts IH]; intros st.
  - simpl. unfold iterations. simpl. split; [lia|].
    split; intros [|i] st'; simpl; discriminate.
  - simpl. destruct (step' t st) as [[st1 [|]]|e] eqn:E.
    + unfold iterations. simpl. split; [lia|]. split.
      * intros i st' _ Hi. lia.
      * intros [|i] st'; simpl.
        -- intros [= <-] _. split; [|reflexivity]. now apply step_break in E.
        -- destruct i; discriminate.
    + specialize (IH st1). destruct (steps' ts st1) as [trace e'].
      destruct IH as (IH1 & IH2 & IH3). unfold iterations in *.
      simpl in *. split; [destruct e'; lia|]. split.
      * intros [|i] st'; simpl.
        -- intros [= <-] _. now apply step_continue in E.
        -- intros H Hi. apply (IH2 i st' H). lia.
      * intros [|i] st'; simpl.
        -- intros [= <-] Hge. apply step_continue in E. lia.
        -- intros H Hge. destruct (IH3 i st' H Hge). split; [assumption|lia].
    + unfold iterations. simpl. split; [lia|].
      split; intros [|i] st'; simpl; discriminate.
Qed.

End StepLoop.

Section StepBudget.

Import TransformerDecoder.

Variables Frame LMState CTCState : Type.
Variable decoder_logits : list Frame -> list nat -> list Q.
Variable log_softmax : list Q -> list Q.

(** [max_steps] of the specification for utterance [b]. *)
Definition max_steps_spec (elens : list nat) (params : Params)
  (refs_id : option (list (list nat))) (b : nat) (ytime : Z)
  (oracle_len : option nat) : Prop :=
  (recog_oracle params = false /\ oracle_len = None /\
   exists elens_b,
     nth_error elens b = Some elens_b /\
     ytime = (Qfloor (inject_Z (Z.of_nat elens_b)
                      * recog_max_len_ratio params) + 1)%Z) \/
  (recog_oracle params = true /\
   exists refs ref,
     refs_id = Some refs /\ nth_error refs b = Some ref /\
     oracle_len = Some (length ref) /\
     ytime = (Z.of_nat (length ref) + 1)%Z).

(** The step loop of one utterance stays within its budget and stops as
    soon as the finished set is full. *)
Definition step_budget_spec (self : Self LMState) (elens : list nat)
  (params : Params) (lm : option (LM LMState))
  (ctc : option (CTCPrefixScore CTCState)) (eouts_b : list Frame)
  (elens_b beam_width n_models : nat) (refs_id : option (list (list nat)))
  (b : nat) (st0 : Loop LMState CTCState) (ytime : Z)
  (oracle_len : option nat) : Prop :=
  let run :=
    steps decoder_logits log_softmax self params lm ctc eouts_b elens_b
      beam_width n_models oracle_len (seq 0 (Z.to_nat ytime)) st0 in
  max_steps_spec elens params refs_id b ytime oracle_len /\
  (iterations LMState CTCState run <= Z.to_nat ytime)%nat /\
  (0 <= ytime -> Z.of_nat (iterations LMState CTCState run) <= ytime)%Z /\
  (forall i st, nth_error (fst run) i = Some st ->
     (S i < length (fst run))%nat ->
     (length (end_hyps st) < beam_width)%nat) /\
  (forall i st, nth_error (fst run) i = Some st ->
     (beam_width <= length (end_hyps st))%nat ->
     length (end_hyps st) = beam_width /\ S i = length (fst run)).

Lemma ytime_of_spec (elens : list nat) (params : Params)
  (refs_id : option (list (list nat))) (b : nat) (ytime : Z)
  (oracle_len : option nat) :
  ytime_of elens params refs_id b = Ok (ytime, oracle_len) ->
  max_steps_spec elens params refs_id b ytime oracle_len.
Proof.
  unfold ytime_of, max_steps_spec.
  destruct (recog_oracle params).
  - destruct refs_id as [refs|]; [|discriminate].
    unfold index. destruct (nth_error refs b) as [ref|] eqn:E;
      [|discriminate].
    simpl. intros [= <- <-]. right. split; [reflexivity|].
    exists refs, ref. auto.
  - unfold index. destruct (nth_error elens b) as [elens_b|] eqn:E;
      [|discriminate].
    simpl. intros [= <- <-]. left. split; [reflexivity|].
    split; [reflexivity|]. exists elens_b. auto.
Qed.

(** C4. For every utterance the step loop runs at most [max_steps]
    iterations, [max_steps] being [floor(elens[b] * max_len_ratio) + 1]
    in normal mode and [len(refs_id[b]) + 1] in oracle mode; an iteration
    after which the finished set holds [beam_width] hypotheses or more is
    the last one, and leaves exactly [beam_width] of them.  The loop is a
    recursion over the finite range of [t], so it always ends. *)
Theorem step_loop_within_budget (self : Self LMState) (elens : list nat)
  (params : Params) (lm : option (LM LMState))
  (ctc : option (CTCPrefixScore CTCState)) (eouts_b : list Frame)
  (elens_b beam_width n_models : nat) (refs_id : option (list (list nat)))
  (b : nat) (st0 : Loop LMState CTCState) (ytime : Z)
  (oracle_len : option nat) :
  ytime_of elens params refs_id b = Ok (ytime, oracle_len) ->
  step_budget_spec self elens params lm ctc eouts_b elens_b beam_width
    n_models refs_id b st0 ytime oracle_len.
Proof.
  intros Hy. unfold step_budget_spec. cbv zeta.
  split; [now apply ytime_of_spec|].
  pose proof (steps_trace Frame LMState CTCState decoder_logits log_softmax
                self params lm ctc eouts_b elens_b beam_width n_models
                oracle_len (seq 0 (Z.to_nat ytime)) st0) as (H1 & H2 & H3).
  rewrite length_seq in H1.
  split; [exact H1|]. split; [lia|]. split; assumption.
Qed.

End StepBudget.

Lemma step_loop_within_budget_witness :
  step_budget_spec unit nat unit Examples.toy_logits Examples.toy_log_softmax
    Examples.toy_self Examples.toy_elens (Examples.toy_params 2) None None
    [tt; tt; tt; tt] 4 2 1 None 0 Examples.toy_start 5 None.
Proof.
  apply (step_loop_within_budget unit nat unit Examples.toy_logits
           Examples.toy_log_softmax Examples.toy_self Examples.toy_elens
           (Examples.toy_params 2) None None [tt; tt; tt; tt] 4%nat 2%nat
           1%nat None 0%nat).
  reflexivity.
Defined.

(** ** Sorting by decreasing score *)

Section SortedDesc.

Import TransformerDecoder.

Variable A : Type.
Variable key : A -> Q.

(** [a] may stand before [b]. *)
Definition ge_key (a b : A) : Prop := key b <= key a.

Lemma insert_desc_perm (a : A) (l : list A) :
  Permutation (insert_desc key a l) (a :: l).
Proof.
  induction l as [|b r IH]; simpl; [reflexivity|].
  destruct (Qle_bool (key b) (key a)); [reflexivity|].
  rewrite IH. apply perm_swap.
Qed.

Lemma sorted_desc_perm (l : list A) : Permutation (sorted_desc key l) l.
Proof.
  induction l as [|a r IH]; simpl; [reflexivity|].
  rewrite insert_desc_perm. now constructor.
Qed.

Lemma sorted_desc_length (l : list A) : length (sorted_desc key l) = length l.
Proof. apply Permutation_length, sorted_desc_perm. Qed.

Lemma insert_desc_sorted (a : A) (l : list A) :
  StronglySorted ge_key l -> StronglySorted ge_key (insert_desc key a l).
Proof.
  induction 1 as [|b r Hr IH Hb]; simpl.
  - constructor; constructor.
  - destruct (Qle_bool (key b) (key a)) eqn:E.
    + apply Qle_bool_iff in E. constructor.
      * now constructor.
      * constructor; [exact E|].
        eapply Forall_impl; [|exact Hb]. intros c Hc. unfold ge_key in *.
        now apply Qle_trans with (key b).
    + constructor; [exact IH|].
      assert (Hab : ge_key b a).
      { unfold ge_key. destruct (Qlt_le_dec (key b) (key a)) as [Hlt | Hle];
          [|exact Hle].
        apply Qlt_le_weak, Qle_bool_iff in Hlt. congruence. }
      apply Forall_forall. intros c Hc.
      apply (Permutation_in _ (insert_desc_perm a r)) in Hc.
      destruct Hc as [<- | Hc]; [exact Hab|].
      rewrite Forall_forall in Hb. now apply Hb.
Qed.

Lemma sorted_desc_sorted (l : list A) : StronglySorted ge_key (sorted_desc key l).
Proof.
  induction l as [|a r IH]; simpl; [constructor|].
  now apply insert_desc_sorted.
Qed.

(** Two keys that compare the elements of [l] alike sort [l] alike. *)
Lemma insert_desc_ext (key' : A -> Q) (a : A) (l : list A) :
  (forall b, In b l -> Qle_bool (key b) (key a) = Qle_bool (key' b) (key' a)) ->
  insert_desc key a l = insert_desc key' a l.
Proof.
  induction l as [|b r IH]; intros H; simpl; [reflexivity|].
  rewrite <- (H b) by now left.
  destruct (Qle_bool (key b) (key a)); [reflexivity|].
  f_equal. apply IH. intros c Hc. apply H. now right.
Qed.

Lemma sorted_desc_ext (key' : A -> Q) (l : list A) :
  (forall a b, In a l -> In b l ->
     Qle_bool (key b) (key a) = Qle_bool (key' b) (key' a)) ->
  sorted_desc key l = sorted_desc key' l.
Proof.
  induction l as [|a r IH]; intros H; simpl; [reflexivity|].
  rewrite <- IH by (intros; apply H; now right).
  apply insert_desc_ext. intros b Hb. apply H; [now left|].
  right. now apply (Permutation_in _ (sorted_desc_perm r)).
Qed.

End SortedDesc.

(** ** Beam search: the finished set *)

Lemma in_firstn {A : Type} (n : nat) (l : list A) (x : A) :
  In x (firstn n l) -> In x l.
Proof.
  intros H. rewrite <- (firstn_skipn n l). apply in_or_app. now left.
Qed.

Lemma mapM_pure {A B : Type} (g : A -> B) (l : list A) :
  mapM (fun a => Ok (g a)) l = Ok (map g l).
Proof.
  induction l as [|a r IH]; simpl; [reflexivity|]. now rewrite IH.
Qed.

Lemma mapM_ext_in {A B : Type} (f g : A -> result B) (l : list A) :
  (forall a, In a l -> f a = g a) -> mapM f l = mapM g l.
Proof.
  induction l as [|a r IH]; intros H; simpl; [reflexivity|].
  rewrite (H a) by now left. rewrite IH; [reflexivity|].
  intros b Hb. apply H. now right.
Qed.

Lemma mapM_index_seq {A B : Type} (f : A -> result B) (l : list A) :
  forall n s, (s + n <= length l)%nat ->
  mapM (fun i => bind (index l i) f) (seq s n)
  = mapM f (firstn n (skipn s l)).
Proof.
  induction n as [|n IH]; intros s H; [reflexivity|].
  simpl seq. cbn [mapM].
  destruct (skipn s l) as [|a r] eqn:E.
  { apply (f_equal (@length A)) in E. rewrite length_skipn in E.
    simpl in E. lia. }
  assert (Ha : nth_error l s = Some a).
  { rewrite <- (firstn_skipn s l), E.
    rewrite nth_error_app2 by (rewrite length_firstn; lia).
    rewrite length_firstn. replace (s - Nat.min s (length l))%nat with 0%nat
      by lia. reflexivity. }
  unfold index at 1. rewrite Ha. cbn [bind firstn mapM].
  rewrite IH by lia.
  replace (skipn (S s) l) with r; [reflexivity|].
  change (S s) with (1 + s)%nat. rewrite <- skipn_skipn, E. reflexivity.
Qed.

Section Finalize.

Import TransformerDecoder.

Variables LMState CTCState : Type.
Variable params : Params.
Variables lm_2nd lm_2nd_rev : option LM2.

Local Abbreviation Hyp' := (Hyp LMState CTCState).

(** The second-pass rescoring, as [finished] applies it. *)
Definition rescored (pool : list Hyp') : list Hyp' :=
  let pool :=
    match lm_2nd with
    | Some m => lm_rescoring pool m (recog_lm_second_weight params) false
    | None => pool
    end in
  match lm_2nd_rev with
  | Some m => lm_rescoring pool m (recog_lm_rev_weight params) true
  | None => pool
  end.

Lemma rescored_tokens (pool : list Hyp') :
  map (fun h => (hyp h, score_attn h)) (rescored pool)
  = map (fun h => (hyp h, score_attn h)) pool.
Proof.
  unfold rescored, lm_rescoring.
  destruct lm_2nd, lm_2nd_rev; rewrite ?map_map; reflexivity.
Qed.

Lemma rescored_none (pool : list Hyp') :
  lm_2nd = None -> lm_2nd_rev = None -> rescored pool = pool.
Proof. unfold rescored. now intros -> ->. Qed.

(** The tokens a hypothesis contributes to the output. *)
Definition output_tokens (self : Self LMState) (h : Hyp') : list nat :=
  if bwd self then rev (tl (hyp h)) else tl (hyp h).

Lemma last_is_ok (l : list nat) (x : nat) :
  l <> [] -> last_is l x = Ok (last l 0 =? x)%nat.
Proof.
  intros H. unfold last_is.
  destruct (exists_last H) as (l' & y & ->).
  rewrite rev_app_distr, last_last. reflexivity.
Qed.

Lemma nbest_list_ok (self : Self LMState) (n : nat) (fin : list Hyp') :
  (n <= length fin)%nat ->
  (forall h, In h fin -> hyp h <> []) ->
  nbest_list self n fin
  = Ok {| utt_hyps := map (output_tokens self) (firstn n fin);
          utt_scores := map score_attn (firstn n fin);
          utt_eos_flags :=
            map (fun h => (last (hyp h) 0 =? eos self)%nat) (firstn n fin);
          utt_end_hyps := fin |}.
Proof.
  intros Hn Hne. unfold nbest_list.
  rewrite !(mapM_index_seq _ fin n 0) by (simpl; exact Hn). simpl skipn.
  rewrite (mapM_pure (output_tokens self)), (mapM_pure score_attn).
  cbn [bind].
  rewrite (mapM_ext_in _
             (fun h => Ok (last (hyp h) 0 =? eos self)%nat)).
  - rewrite mapM_pure. reflexivity.
  - intros h Hh. apply last_is_ok, Hne. eapply in_firstn. exact Hh.
Qed.

(** "Global pruning" to "N-best list".  With an empty finished set the
    whole live beam becomes the finished set; a finished set that is not
    empty but holds fewer than [nbest] hypotheses is filled up from the head
    of the live beam; the finished set is then (after the optional
    second-pass rescoring, which leaves the tokens alone) sorted by
    decreasing score, and its first [nbest] hypotheses are what the
    utterance returns, provided it holds that many. *)
Lemma finished_set_spill_pad_sort (self : Self LMState) (n : nat)
  (st : Loop LMState CTCState) :
  let pool := global_pruning n st in
  let fin := finished params lm_2nd lm_2nd_rev n st in
  (end_hyps st = [] -> pool = hyps st) /\
  (end_hyps st <> [] -> (length (end_hyps st) < n)%nat ->
   pool = end_hyps st ++ firstn (n - length (end_hyps st)) (hyps st)) /\
  (end_hyps st <> [] -> (n <= length (end_hyps st))%nat ->
   pool = end_hyps st) /\
  fin = sorted_desc score (rescored pool) /\
  Permutation fin (rescored pool) /\
  (lm_2nd = None -> lm_2nd_rev = None -> Permutation fin pool) /\
  StronglySorted (fun a b => score b <= score a) fin /\
  ((n <= length fin)%nat ->
   (forall h, In h (hyps st ++ end_hyps st) -> hyp h <> []) ->
   exists u,
     nbest_list self n fin = Ok u /\
     utt_hyps u = map (output_tokens self) (firstn n fin) /\
     utt_scores u = map score_attn (firstn n fin)).
Proof.
  cbv zeta.
  assert (Hfin : finished params lm_2nd lm_2nd_rev n st
                 = sorted_desc score (rescored (global_pruning n st)))
    by reflexivity.
  split; [|split; [|split; [|split; [exact Hfin|]]]].
  - unfold global_pruning. now intros ->.
  - unfold global_pruning. intros Hne Hlt.
    destruct (end_hyps st) as [|h r] eqn:E; [congruence|].
    assert (E1 : (length (h :: r) <? n)%nat = true) by now apply Nat.ltb_lt.
    assert (E2 : (1 <? n)%nat = true) by (apply Nat.ltb_lt; simpl in Hlt; lia).
    now rewrite E1, E2.
  - unfold global_pruning. intros Hne Hge.
    destruct (end_hyps st) as [|h r] eqn:E; [congruence|].
    assert (E1 : (length (h :: r) <? n)%nat = false) by now apply Nat.ltb_ge.
    now rewrite E1.
  - rewrite Hfin. split; [apply sorted_desc_perm|].
    split; [intros H1 H2; rewrite (rescored_none _ H1 H2);
            apply sorted_desc_perm|].
    split; [apply (sorted_desc_sorted Hyp' score)|].
    intros Hn Hne.
    eexists. split; [apply nbest_list_ok; [exact Hn|]|split; reflexivity].
    intros h Hh.
    apply (Permutation_in _ (sorted_desc_perm Hyp' score _)) in Hh.
    assert (Hin : In (hyp h) (map hyp (global_pruning n st))).
    { apply (in_map (fun h => (hyp h, score_attn h))) in Hh.
      rewrite rescored_tokens in Hh. apply in_map_iff in Hh.
      destruct Hh as (h' & Eh & Hh'). injection Eh as Eh _.
      rewrite <- Eh. now apply in_map. }
    apply in_map_iff in Hin. destruct Hin as (h' & <- & Hh').
    apply Hne. unfold global_pruning in Hh'.
    destruct (end_hyps st) as [|e r] eqn:E.
    + rewrite app_nil_r. exact Hh'.
    + destruct ((length (e :: r) <? n)%nat && (1 <? n)%nat).
      * apply in_app_or in Hh'. apply in_or_app.
        destruct Hh' as [Hh' | Hh']; [now right|left].
        eapply in_firstn. exact Hh'.
      * apply in_or_app. now right.
Qed.

End Finalize.

(** ** Selection of the best candidates *)

Section TopK.

Import TransformerDecoder.

(** The positions of [row], best value first. *)
Definition ranking (row : list Q) : list nat :=
  sorted_desc (fun i => nth i row 0) (seq 0 (length row)).

Lemma topk_ok (k : nat) (row : list Q) :
  (k <= length row)%nat ->
  topk k row
  = Ok (map (fun i => nth i row 0) (firstn k (ranking row)),
        firstn k (ranking row)).
Proof.
  intros H. unfold topk. apply Nat.leb_le in H. now rewrite H.
Qed.

Lemma ranking_perm (row : list Q) :
  Permutation (ranking row) (seq 0 (length row)).
Proof. apply sorted_desc_perm. Qed.

Lemma ranking_length (row : list Q) : length (ranking row) = length row.
Proof. unfold ranking. now rewrite sorted_desc_length, length_seq. Qed.

Lemma ranking_in (row : list Q) (i : nat) :
  In i (ranking row) -> (i < length row)%nat.
Proof.
  intros H. apply (Permutation_in _ (ranking_perm row)) in H.
  apply in_seq in H. lia.
Qed.

(** Rows that compare their entries alike are ranked alike. *)
Lemma ranking_ext (r1 r2 : list Q) :
  length r1 = length r2 ->
  (forall i j, (i < length r1)%nat -> (j < length r1)%nat ->
     Qle_bool (nth j r1 0) (nth i r1 0) = Qle_bool (nth j r2 0) (nth i r2 0)) ->
  ranking r1 = ranking r2.
Proof.
  intros Hl H. unfold ranking. rewrite <- Hl.
  apply sorted_desc_ext. intros i j Hi Hj.
  apply in_seq in Hi, Hj. apply H; lia.
Qed.

Lemma StronglySorted_firstn {A : Type} (R : A -> A -> Prop) (l : list A) :
  forall k, StronglySorted R l -> StronglySorted R (firstn k l).
Proof.
  induction l as [|a r IH]; intros [|k] H; simpl; try constructor.
  - apply IH. now inversion H.
  - inversion H as [|? ? _ Hall]; subst.
    apply Forall_forall. intros x Hx. rewrite Forall_forall in Hall.
    apply Hall. eapply in_firstn. exact Hx.
Qed.

Lemma StronglySorted_map {A B : Type} (R : B -> B -> Prop) (f : A -> B)
  (l : list A) :
  StronglySorted (fun a b => R (f a) (f b)) l -> StronglySorted R (map f l).
Proof.
  induction 1 as [|a r _ IH Hall]; simpl; constructor; [exact IH|].
  apply Forall_forall. intros y Hy. apply in_map_iff in Hy.
  destruct Hy as (x & <- & Hx). rewrite Forall_forall in Hall. now apply Hall.
Qed.

(** The values [torch.topk] returns come largest first. *)
Lemma topk_sorted (k : nat) (row : list Q) :
  StronglySorted (fun a b => b <= a)
    (map (fun i => nth i row 0) (firstn k (ranking row))).
Proof.
  apply StronglySorted_map, StronglySorted_firstn.
  apply (sorted_desc_sorted nat (fun i => nth i row 0)).
Qed.

Lemma Qle_bool_ext (a b c d : Q) :
  (a <= b <-> c <= d) -> Qle_bool a b = Qle_bool c d.
Proof.
  intros H. destruct (Qle_bool a b) eqn:E1, (Qle_bool c d) eqn:E2; auto.
  - apply Qle_bool_iff, H, Qle_bool_iff in E1. congruence.
  - apply Qle_bool_iff, H, Qle_bool_iff in E2. congruence.
Qed.

Lemma nth_map_lt {A B : Type} (f : A -> B) (l : list A) (d : A) (d' : B)
  (i : nat) :
  (i < length l)%nat -> nth i (map f l) d' = f (nth i l d).
Proof.
  intros H. rewrite (nth_indep _ d' (f d)) by now rewrite length_map.
  apply map_nth.
Qed.

End TopK.

(** ** Beam search: two-stage pruning *)

Lemma zip_with_length {A B C : Type} (f : A -> B -> C) (l : list A) :
  forall m : list B, length l = length m -> length (zip_with f l m) = length l.
Proof.
  induction l as [|a l IH]; intros [|b m] H; simpl in *; try discriminate;
    auto.
Qed.

Section TwoStage.

Import TransformerDecoder.

Variables LMState CTCState : Type.
Variable params : Params.
Variable ctc_prefix_score : option (CTCPrefixScore CTCState).
Variable beam_width : nat.
Variable n_models : nat.

Local Abbreviation Hyp' := (Hyp LMState CTCState).
Local Abbreviation ctc_weight := (recog_ctc_weight params).

(** The partial score of the specification:
    [attention_score + log(decoder_probs) * (1 - ctc_weight)]. *)
Definition spec_partial_score (beam : Hyp') (log_probs : list Q) : list Q :=
  map (fun l => score_attn beam + l * (1 - ctc_weight)) log_probs.

(** [scores_attn[j]] from [log(probs)]. *)
Definition ensemble_mean (log_probs : list Q) : list Q :=
  map (fun x => x / inject_Z (Z.of_nat n_models)) log_probs.

(** The language model has a row for hypothesis [j] that covers the
    vocabulary. *)
Definition lm_covers (scores_lm : option (list (list Q))) (j vocab : nat)
  : Prop :=
  match scores_lm with
  | Some rows =>
      exists row_lm, nth_error rows j = Some row_lm /\
                     (vocab <= length row_lm)%nat
  | None => True
  end.

(** The CTC prefix scorer returns one score per candidate token. *)
Definition ctc_covers (beam : Hyp') : Prop :=
  match ctc_prefix_score with
  | Some scorer =>
      forall ids,
        length (fst (prefix_score scorer (hyp beam) ids (ctc_state beam)))
        = length ids
  | None => True
  end.

(** What [scored_candidates] returns when the coarse stage has kept the
    tokens [ids0] and the scores before the CTC term are [scores2]. *)
Definition refined (beam : Hyp') (ids0 : list nat) (scores2 : list Q)
  (c : Candidates CTCState) : Prop :=
  match ctc_prefix_score with
  | None => topk_ids c = ids0 /\ total_scores_topk c = scores2
  | Some scorer =>
      let ctc_scores :=
        fst (prefix_score scorer (hyp beam) ids0 (ctc_state beam)) in
      let complete :=
        zip_with Qplus scores2 (map (fun s => s * ctc_weight) ctc_scores) in
      exists joint,
        Permutation joint (seq 0 beam_width) /\
        topk_ids c = map (fun i => nth i ids0 0%nat) joint /\
        total_scores_topk c = map (fun i => nth i complete 0) joint /\
        StronglySorted (fun a b => b <= a) (total_scores_topk c) /\
        length (topk_ids c) = beam_width
  end.

Definition two_stage_spec (j : nat) (beam : Hyp') (log_probs : list Q)
  (scores_lm : option (list (list Q))) : Prop :=
  let row := ensemble_mean log_probs in
  exists scores0 ids0 scores1 total_scores_lm c,
    coarse_topk params beam_width beam row = Ok (scores0, ids0) /\
    topk beam_width (spec_partial_score beam log_probs)
    = Ok (map (fun i => nth i (spec_partial_score beam log_probs) 0) ids0,
          ids0) /\
    scores0 = map (fun i => nth i (total_scores params beam row) 0) ids0 /\
    length ids0 = beam_width /\
    add_lm params beam_width j beam scores_lm scores0 ids0
    = Ok (scores1, total_scores_lm) /\
    scored_candidates params ctc_prefix_score beam_width j beam row scores_lm
    = Ok c /\
    refined beam ids0 (add_length_penalty params beam scores1) c.

Lemma Qdiv_pos_le (a b n : Q) : 0 < n -> (a / n <= b / n <-> a <= b).
Proof.
  intros Hn. unfold Qdiv. split; intros H.
  - apply (Qmult_le_r a b (/ n)); [now apply Qinv_lt_0_compat | exact H].
  - apply (Qmult_le_r a b (/ n)); [now apply Qinv_lt_0_compat | exact H].
Qed.

(** The key of the code and the key of the specification order the
    tokens of one hypothesis alike. *)
Lemma partial_score_order (a w n x y : Q) :
  0 < n ->
  ((a + x / n) * (1 - w) <= (a + y / n) * (1 - w)
   <-> a + x * (1 - w) <= a + y * (1 - w)).
Proof.
  intros Hn.
  assert (E1 : forall z, (a + z / n) * (1 - w) == a * (1 - w) + (z * (1 - w)) / n)
    by (intros z; field; intros Hc; rewrite Hc in Hn; now apply Qlt_irrefl in Hn).
  rewrite !E1, !Qplus_le_r. now apply Qdiv_pos_le.
Qed.

Lemma spec_ranking (beam : Hyp') (log_probs : list Q) :
  (1 <= n_models)%nat ->
  ranking (total_scores params beam (ensemble_mean log_probs))
  = ranking (spec_partial_score beam log_probs).
Proof.
  intros Hn.
  assert (Hq : 0 < inject_Z (Z.of_nat n_models)).
  { change 0 with (inject_Z 0). rewrite <- Zlt_Qlt. lia. }
  unfold total_scores, total_scores_attn, ensemble_mean, spec_partial_score.
  apply ranking_ext.
  - now rewrite !length_map.
  - rewrite !length_map. intros i j Hi Hj.
    rewrite !map_map.
    rewrite !(nth_map_lt _ log_probs 0 0) by assumption.
    apply Qle_bool_ext. now apply partial_score_order.
Qed.

Lemma add_length_penalty_length (beam : Hyp') (scores : list Q) :
  length (add_length_penalty params beam scores) = length scores.
Proof.
  unfold add_length_penalty.
  destruct (Qlt_bool 0 (recog_length_penalty params));
    [apply length_map | reflexivity].
Qed.

Lemma add_lm_ok (j : nat) (beam : Hyp') (scores_lm : option (list (list Q)))
  (scores0 : list Q) (ids0 : list nat) (vocab : nat) :
  lm_covers scores_lm j vocab ->
  (forall i, In i ids0 -> (i < vocab)%nat) ->
  length scores0 = length ids0 ->
  exists scores1 total_scores_lm,
    add_lm params beam_width j beam scores_lm scores0 ids0
    = Ok (scores1, total_scores_lm) /\
    length scores1 = length ids0.
Proof.
  intros Hlm Hids Hlen. unfold add_lm.
  destruct scores_lm as [rows|]; [|eauto].
  destruct Hlm as (row_lm & Hrow & Hv).
  unfold index at 1. rewrite Hrow. cbn [bind].
  rewrite (mapM_index_ok row_lm 0 ids0)
    by (intros i Hi; specialize (Hids i Hi); lia).
  cbn [bind]. do 2 eexists. split; [reflexivity|].
  rewrite zip_with_length; [exact Hlen|].
  now rewrite !length_map.
Qed.

(** C1. In every step and for every live hypothesis the next tokens are
    ranked by the attention score alone,
    [attention_score + log(decoder_probs) * (1 - ctc_weight)] (the code
    multiplies the sum by [1 - ctc_weight] and divides the log-probability
    by the number of models, which orders the tokens of one hypothesis the
    same way), and the best [beam_width] are kept with nothing but that
    partial score; the language-model and length-penalty terms are added
    to the kept candidates only.  When CTC is configured, [ctc_weight]
    times the CTC score is added and the kept candidates are ordered again,
    and cut to [beam_width] again, by the now complete score. *)
Theorem two_stage_pruning (j : nat) (beam : Hyp') (log_probs : list Q)
  (scores_lm : option (list (list Q))) :
  (1 <= n_models)%nat ->
  (beam_width <= length log_probs)%nat ->
  lm_covers scores_lm j (length log_probs) ->
  ctc_covers beam ->
  two_stage_spec j beam log_probs scores_lm.
Proof.
  intros Hn Hbw Hlm Hctc. unfold two_stage_spec. cbv zeta.
  set (row := ensemble_mean log_probs).
  assert (Lrow : length (total_scores params beam row) = length log_probs).
  { unfold total_scores, total_scores_attn, row, ensemble_mean.
    now rewrite !length_map. }
  set (ids0 := firstn beam_width (ranking (total_scores params beam row))).
  set (scores0 := map (fun i => nth i (total_scores params beam row) 0) ids0).
  assert (Lids : length ids0 = beam_width).
  { unfold ids0. rewrite length_firstn, ranking_length, Lrow. lia. }
  assert (Hcoarse : coarse_topk params beam_width beam row
                    = Ok (scores0, ids0)).
  { unfold coarse_topk. apply topk_ok. now rewrite Lrow. }
  assert (Hin : forall i, In i ids0 -> (i < length log_probs)%nat).
  { intros i Hi. rewrite <- Lrow. apply ranking_in.
    eapply in_firstn. exact Hi. }
  destruct (add_lm_ok j beam scores_lm scores0 ids0 (length log_probs)
              Hlm Hin) as (scores1 & tlm & Hadd & L1).
  { unfold scores0. apply length_map. }
  set (scores2 := add_length_penalty params beam scores1).
  assert (L2 : length scores2 = beam_width).
  { unfold scores2. now rewrite add_length_penalty_length, L1. }
  assert (Hsc : exists c,
             scored_candidates params ctc_prefix_score beam_width j beam row
               scores_lm = Ok c /\ refined beam ids0 scores2 c).
  { unfold scored_candidates. rewrite Hcoarse. cbn [bind].
    rewrite Hadd. cbn [bind]. fold scores2.
    unfold add_ctc, refined, ctc_covers in *.
    destruct ctc_prefix_score as [scorer|].
    - specialize (Hctc ids0).
      destruct (prefix_score scorer (hyp beam) ids0 (ctc_state beam))
        as [ctc_scores ctc_states].
      simpl fst in *.
      assert (E : (length ctc_scores =? length scores2)%nat = true)
        by (apply Nat.eqb_eq; lia).
      rewrite E.
      set (complete := zip_with Qplus scores2
                         (map (fun s => s * ctc_weight) ctc_scores)).
      assert (Lc : length complete = beam_width).
      { unfold complete. rewrite zip_with_length; [exact L2|].
        rewrite length_map. lia. }
      rewrite (topk_ok beam_width complete) by lia. cbn [bind].
      eexists. split; [reflexivity|].
      exists (firstn beam_width (ranking complete)). cbn.
      assert (Ef : firstn beam_width (ranking complete) = ranking complete)
        by (apply firstn_all2; rewrite ranking_length; lia).
      split; [|split; [reflexivity|split; [reflexivity|split]]].
      + rewrite Ef, <- Lc. apply ranking_perm.
      + apply topk_sorted.
      + rewrite length_map, Ef, ranking_length. exact Lc.
    - cbn [bind]. eexists. split; [reflexivity|]. cbn. auto. }
  destruct Hsc as (c & Hc & Hr).
  exists scores0, ids0, scores1, tlm, c.
  split; [exact Hcoarse|]. split.
  - rewrite (topk_ok beam_width (spec_partial_score beam log_probs))
      by (unfold spec_partial_score; now rewrite length_map).
    unfold ids0, row. now rewrite (spec_ranking beam log_probs Hn).
  - auto.
Qed.

End TwoStage.

(** The row a step hands to [expand] is the mean over the models of
    [log(softmax(logits * softmax_smoothing))]. *)
Lemma scores_attn_row_mean (Frame : Type)
  (decoder_logits : list Frame -> list nat -> list Q)
  (log_softmax : list Q -> list Q) (params : TransformerDecoder.Params)
  (eouts_b : list Frame) (n_models : nat) (y_seq : list nat) :
  TransformerDecoder.scores_attn_row decoder_logits log_softmax params
    eouts_b n_models y_seq
  = ensemble_mean n_models
      (log_softmax
         (map (fun x => x * TransformerDecoder.recog_softmax_smoothing params)
            (decoder_logits eouts_b y_seq))).
Proof. reflexivity. Qed.

Lemma two_stage_pruning_witness :
  two_stage_spec nat unit (Examples.toy_params_ctc 2)
    (Some Examples.toy_ctc_scorer) 2 1 0
    (TransformerDecoder.root Examples.toy_self None
       (Some Examples.toy_ctc_scorer))
    [-10; -7; -9; -8] (Some [[-2; -1; -2; -5]]).
Proof.
  apply (two_stage_pruning nat unit (Examples.toy_params_ctc 2)
           (Some Examples.toy_ctc_scorer) 2%nat 1%nat 0%nat
           (TransformerDecoder.root Examples.toy_self None
              (Some Examples.toy_ctc_scorer))
           [-10; -7; -9; -8] (Some [[-2; -1; -2; -5]])).
  - lia.
  - simpl. lia.
  - exists [-2; -1; -2; -5]. split; [reflexivity | simpl; lia].
  - intros ids. simpl. apply length_map.
Defined.

(** ** Beam search: the end symbol *)

Lemma Qlt_bool_iff (a b : Q) : Qlt_bool a b = true <-> a < b.
Proof.
  unfold Qlt_bool. rewrite negb_true_iff. split; intros H.
  - apply Qnot_le_lt. intros Hc. apply Qle_bool_iff in Hc. congruence.
  - destruct (Qle_bool b a) eqn:E; [|reflexivity].
    apply Qle_bool_iff in E. exfalso. now apply (Qlt_not_le a b).
Qed.

Lemma fold_max_spec (r : list Q) : forall x,
  let m := fold_left (fun m y => if Qlt_bool m y then y else m) r x in
  (m = x \/ In m r) /\ x <= m /\ forall y, In y r -> y <= m.
Proof.
  induction r as [|a r IH]; intros x; simpl.
  - split; [now left|]. split; [apply Qle_refl | intros y []].
  - destruct (Qlt_bool x a) eqn:E.
    + apply Qlt_bool_iff in E.
      destruct (IH a) as (H1 & H2 & H3). split; [|split].
      * destruct H1 as [-> | H1]; auto.
      * apply Qle_trans with a; [now apply Qlt_le_weak | exact H2].
      * intros y [<- | Hy]; auto.
    + destruct (IH x) as (H1 & H2 & H3). split; [|split].
      * destruct H1 as [-> | H1]; auto.
      * exact H2.
      * intros y [<- | Hy]; auto.
        apply Qle_trans with x; [|exact H2].
        unfold Qlt_bool in E. apply negb_false_iff in E.
        now apply Qle_bool_iff.
Qed.

(** [tensor_max] returns an entry of the row that no entry exceeds. *)
Lemma tensor_max_spec (l : list Q) (m : Q) :
  TransformerDecoder.tensor_max l = Ok m ->
  In m l /\ forall x, In x l -> x <= m.
Proof.
  destruct l as [|x r]; simpl; [discriminate|]. intros [= <-].
  destruct (fold_max_spec r x) as (H1 & H2 & H3). split.
  - destruct H1 as [-> | H1]; auto.
  - intros y [<- | Hy]; auto.
Qed.

Lemma py_max_spec (a b : Q) :
  (TransformerDecoder.py_max a b = a \/ TransformerDecoder.py_max a b = b) /\
  a <= TransformerDecoder.py_max a b /\ b <= TransformerDecoder.py_max a b.
Proof.
  unfold TransformerDecoder.py_max. destruct (Qlt_bool a b) eqn:E.
  - apply Qlt_bool_iff in E. split; [now right|].
    split; [now apply Qlt_le_weak | apply Qle_refl].
  - split; [now left|]. split; [apply Qle_refl|].
    unfold Qlt_bool in E. apply negb_false_iff in E. now apply Qle_bool_iff.
Qed.

Section EndSymbol.

Import TransformerDecoder.

Variables Frame LMState CTCState : Type.
Variable decoder_logits : list Frame -> list nat -> list Q.
Variable log_softmax : list Q -> list Q.

Variable self : Self LMState.
Variable params : Params.
Variable lm : option (LM LMState).
Variable ctc_prefix_score : option (CTCPrefixScore CTCState).
Variable eouts_b : list Frame.
Variable elens_b : nat.
Variable beam_width : nat.
Variable n_models : nat.

Local Abbreviation Hyp' := (Hyp LMState CTCState).
Local Abbreviation Loop' := (Loop LMState CTCState).

Local Abbreviation candidate' := (candidate self params elens_b).
Local Abbreviation expand' :=
  (expand self params ctc_prefix_score elens_b beam_width).

(** [m] is the best attention score of the tokens other than [idx]. *)
Definition max_of_others (row : list Q) (idx : nat) (m : Q) : Prop :=
  (exists i, (i < length row)%nat /\ i <> idx /\ nth i row 0 = m) /\
  forall i, (i < length row)%nat -> i <> idx -> nth i row 0 <= m.

(** The two tests an end symbol has to pass. *)
Definition prefix_too_short (beam : Hyp') : Prop :=
  inject_Z (Z.of_nat (length (hyp beam)) - 1)
  < inject_Z (Z.of_nat elens_b) * recog_min_len_ratio params.

Definition eos_below_threshold (row : list Q) (idx : nat) : Prop :=
  exists m, max_of_others row idx m /\
            nth idx row 0 <= recog_eos_threshold params * m.

(** The hypothesis a candidate that is not rejected becomes. *)
Definition extends (beam : Hyp') (idx : nat) (r : result (option Hyp'))
  : Prop :=
  exists h, r = Ok (Some h) /\ hyp h = hyp beam ++ [idx].

Lemma too_short_iff (beam : Hyp') :
  too_short params elens_b beam = true <-> prefix_too_short beam.
Proof. unfold too_short, prefix_too_short. apply Qlt_bool_iff. Qed.

Lemma In_nth_lt (l : list Q) (x : Q) :
  In x l -> exists i, (i < length l)%nat /\ nth i l 0 = x.
Proof. apply In_nth. Qed.

Lemma below_eos_threshold_max (row : list Q) (idx : nat) (m1 m2 : Q) :
  (idx < length row)%nat ->
  tensor_max (firstn idx row) = Ok m1 ->
  tensor_max (skipn (S idx) row) = Ok m2 ->
  max_of_others row idx (py_max m1 m2).
Proof.
  intros Hidx H1 H2.
  apply tensor_max_spec in H1, H2.
  destruct H1 as (I1 & M1), H2 as (I2 & M2).
  destruct (py_max_spec m1 m2) as (Hc & Ha & Hb).
  assert (F : forall i, (i < idx)%nat -> nth i (firstn idx row) 0 = nth i row 0).
  { intros i Hi. rewrite <- (firstn_skipn idx row) at 2.
    rewrite app_nth1; [reflexivity|]. rewrite length_firstn. lia. }
  assert (S' : forall i, nth i (skipn (S idx) row) 0 = nth (S idx + i) row 0).
  { intros i. rewrite <- (firstn_skipn (S idx) row) at 2.
    rewrite app_nth2; rewrite length_firstn; [|lia].
    f_equal. lia. }
  split.
  - destruct Hc as [-> | ->].
    + apply In_nth_lt in I1. destruct I1 as (i & Hi & E).
      rewrite length_firstn in Hi. exists i.
      split; [lia|]. split; [lia|]. rewrite <- F by lia. exact E.
    + apply In_nth_lt in I2. destruct I2 as (i & Hi & E).
      rewrite length_skipn in Hi. exists (S idx + i)%nat.
      split; [lia|]. split; [lia|]. rewrite <- S'. exact E.
  - intros i Hi Hne. destruct (Nat.lt_ge_cases i idx) as [Hlt | Hge].
    + apply Qle_trans with m1; [|exact Ha]. apply M1.
      rewrite <- F by exact Hlt. apply nth_In. rewrite length_firstn. lia.
    + apply Qle_trans with m2; [|exact Hb]. apply M2.
      replace i with (S idx + (i - S idx))%nat by lia.
      rewrite <- S'. apply nth_In. rewrite length_skipn. lia.
Qed.

Lemma tensor_max_cons (l : list Q) :
  l <> [] -> exists m, tensor_max l = Ok m.
Proof. destruct l; [congruence | simpl; eauto]. Qed.

(** With the end symbol inside the vocabulary row the threshold test does
    not raise, and it answers [eos_below_threshold]. *)
Lemma below_eos_threshold_iff (row : list Q) (idx : nat) :
  (0 < idx)%nat -> (S idx < length row)%nat ->
  exists r, below_eos_threshold params row idx = Ok r /\
            (r = true <-> eos_below_threshold row idx).
Proof.
  intros H0 H1. unfold below_eos_threshold.
  destruct (tensor_max_cons (firstn idx row)) as (m1 & E1).
  { intros Hc. apply (f_equal (@length Q)) in Hc.
    rewrite length_firstn in Hc. simpl in Hc. lia. }
  destruct (tensor_max_cons (skipn (S idx) row)) as (m2 & E2).
  { intros Hc. apply (f_equal (@length Q)) in Hc.
    rewrite length_skipn in Hc. simpl in Hc. lia. }
  rewrite E1, E2. cbn [bind]. eexists. split; [reflexivity|].
  assert (Hmax : max_of_others row idx (py_max m1 m2))
    by (apply below_eos_threshold_max; auto; lia).
  rewrite Qle_bool_iff. unfold eos_below_threshold. split.
  - intros H. exists (py_max m1 m2). auto.
  - intros (m & (((i & Hi & Hne & Em) & Hall) & Hle)).
    destruct Hmax as ((i' & Hi' & Hne' & Em') & Hall').
    assert (Eq : m == py_max m1 m2).
    { apply Qle_antisym.
      - rewrite <- Em. now apply Hall'.
      - rewrite <- Em'. now apply Hall. }
    now rewrite <- Eq.
Qed.

Lemma candidate_accepted (j : nat) (beam : Hyp') (row : list Q)
  (lmstate : option (list LMState)) (c : Candidates CTCState) (k : nat) :
  rejected self params elens_b beam row (nth k (topk_ids c) 0%nat) = Ok false ->
  extends beam (nth k (topk_ids c) 0%nat)
    (candidate' j beam row lmstate c k).
Proof.
  intros H. unfold candidate. rewrite H. cbn [bind].
  eexists. split; reflexivity.
Qed.

Lemma candidate_rejected (j : nat) (beam : Hyp') (row : list Q)
  (lmstate : option (list LMState)) (c : Candidates CTCState) (k : nat) :
  rejected self params elens_b beam row (nth k (topk_ids c) 0%nat) = Ok true ->
  candidate' j beam row lmstate c k = Ok None.
Proof. intros H. unfold candidate. now rewrite H. Qed.

(** At the first and at the last index of the row one of the two slices
    the threshold test takes the maximum of is empty, and the test
    raises. *)
Lemma below_eos_threshold_edge (row : list Q) (idx : nat) :
  idx = 0%nat \/ (length row <= S idx)%nat ->
  exists e, below_eos_threshold params row idx = Raise e.
Proof.
  intros H. unfold below_eos_threshold. destruct H as [-> | H].
  - cbn [firstn tensor_max bind]. eauto.
  - rewrite (skipn_all2 row) by exact H.
    destruct (tensor_max (firstn idx row)); cbn [bind tensor_max]; eauto.
Qed.

(** The fate of one candidate.  A token other than the end symbol always
    extends the hypothesis.  The end symbol is dropped after a prefix that
    is too short.  After a prefix that is long enough the threshold test
    decides when the end symbol has a token on either side in the
    vocabulary, and raises when the end symbol is the first or the last
    index. *)
Definition candidate_spec (j : nat) (beam : Hyp') (row : list Q)
  (lmstate : option (list LMState)) (c : Candidates CTCState) (k : nat)
  : Prop :=
  let idx := nth k (topk_ids c) 0%nat in
  let r := candidate' j beam row lmstate c k in
  (idx <> eos self -> extends beam idx r) /\
  (idx = eos self ->
   (prefix_too_short beam -> r = Ok None) /\
   (~ prefix_too_short beam ->
    ((0 < idx)%nat /\ (S idx < length row)%nat ->
     (eos_below_threshold row idx -> r = Ok None) /\
     (~ eos_below_threshold row idx -> extends beam idx r)) /\
    (idx = 0%nat \/ (length row <= S idx)%nat -> exists e, r = Raise e))).

Lemma candidate_fate (j : nat) (beam : Hyp') (row : list Q)
  (lmstate : option (list LMState)) (c : Candidates CTCState) (k : nat) :
  candidate_spec j beam row lmstate c k.
Proof.
  unfold candidate_spec. cbv zeta. split.
  - intros Hne. apply candidate_accepted. unfold rejected.
    apply Nat.eqb_neq in Hne. now rewrite Hne.
  - intros He. split.
    + intros Hshort. apply candidate_rejected. unfold rejected.
      rewrite He, Nat.eqb_refl. apply too_short_iff in Hshort.
      now rewrite Hshort.
    + intros Hlong.
      assert (Hts : too_short params elens_b beam = false).
      { destruct (too_short params elens_b beam) eqn:E; [|reflexivity].
        exfalso. apply Hlong. now apply too_short_iff. }
      assert (Hrej : rejected self params elens_b beam row
                       (nth k (topk_ids c) 0%nat)
                     = below_eos_threshold params row
                         (nth k (topk_ids c) 0%nat)).
      { unfold rejected. rewrite He, Nat.eqb_refl, Hts. reflexivity. }
      split.
      * intros (H0 & H1).
        destruct (below_eos_threshold_iff row _ H0 H1) as (r & Er & Hr).
        split.
        -- intros Hb. apply candidate_rejected. rewrite Hrej, Er. f_equal.
           now apply Hr.
        -- intros Hb. apply candidate_accepted. rewrite Hrej, Er. f_equal.
           destruct r; [|reflexivity]. exfalso. apply Hb. now apply Hr.
      * intros Hedge.
        destruct (below_eos_threshold_edge row _ Hedge) as (e & Ee).
        exists e. unfold candidate. rewrite Hrej, Ee. reflexivity.
Qed.

Lemma mapM_in {A B : Type} (f : A -> result B) (l : list A) :
  forall ys, mapM f l = Ok ys ->
  forall y, In y ys -> exists x, In x l /\ f x = Ok y.
Proof.
  induction l as [|a r IH]; simpl; intros ys H y Hy.
  - injection H as <-. destruct Hy.
  - destruct (f a) as [b|] eqn:Ea; [|discriminate].
    destruct (mapM f r) as [bs|] eqn:Er; [|discriminate].
    injection H as <-. destruct Hy as [<- | Hy].
    + exists a. auto.
    + destruct (IH bs eq_refl y Hy) as (x & Hx & Ex). exists x. auto.
Qed.

Lemma somes_in {A : Type} (l : list (option A)) (a : A) :
  In a (somes l) -> In (Some a) l.
Proof.
  induction l as [|[b|] r IH]; simpl; auto.
  intros [-> | H]; auto.
Qed.

Lemma candidate_hyp (j : nat) (beam : Hyp') (row : list Q)
  (lmstate : option (list LMState)) (c : Candidates CTCState) (k : nat)
  (h : Hyp') :
  candidate' j beam row lmstate c k = Ok (Some h) ->
  hyp h = hyp beam ++ [nth k (topk_ids c) 0%nat].
Proof.
  unfold candidate. intros H. apply bind_ok in H.
  destruct H as ([|] & _ & H); [discriminate|].
  now injection H as <-.
Qed.

Lemma expand_hyp (j : nat) (beam : Hyp') (row : list Q)
  (scores_lm : option (list (list Q))) (lmstate : option (list LMState))
  (hs : list Hyp') :
  expand' j beam row scores_lm lmstate = Ok hs ->
  forall h, In h hs -> exists idx, hyp h = hyp beam ++ [idx].
Proof.
  unfold expand. intros H h Hh.
  apply bind_ok in H. destruct H as (c & _ & H).
  apply bind_ok in H. destruct H as (new & Hnew & H).
  injection H as <-. apply somes_in in Hh.
  destruct (mapM_in _ _ _ Hnew _ Hh) as (k & _ & Hk).
  eexists. eapply candidate_hyp. exact Hk.
Qed.

Lemma expansions_hyp (st : Loop') (scores_lm : option (list (list Q)))
  (lmstate : option (list LMState)) (new_hyps : list (list Hyp')) :
  expansions Frame LMState CTCState decoder_logits log_softmax self params
    ctc_prefix_score eouts_b elens_b beam_width n_models st scores_lm lmstate
  = Ok new_hyps ->
  forall h, In h (concat new_hyps) ->
  exists beam idx, In beam (hyps st) /\ hyp h = hyp beam ++ [idx].
Proof.
  unfold expansions. intros H h Hh.
  apply in_concat in Hh. destruct Hh as (hs & Hhs & Hh).
  destruct (mapM_in _ _ _ H _ Hhs) as ([j beam] & Hjb & E).
  apply in_combine_r in Hjb.
  destruct (expand_hyp _ _ _ _ _ _ E h Hh) as (idx & Hidx).
  exists beam, idx. auto.
Qed.

(** A hypothesis ends in the end symbol. *)
Definition ends_in_eos (h : Hyp') : bool := (last (hyp h) 0 =? eos self)%nat.

(** What one step does with the candidates that were not rejected, outside
    oracle mode. *)
Definition step_split_spec (st st' : Loop') (brk : bool) : Prop :=
  exists scores_lm lmstate new_hyps,
    expansions Frame LMState CTCState decoder_logits log_softmax self params
      ctc_prefix_score eouts_b elens_b beam_width n_models st scores_lm
      lmstate = Ok new_hyps /\
    let pruned := local_pruning beam_width (concat new_hyps) in
    let ended := filter ends_in_eos pruned in
    let live := filter (fun h => negb (ends_in_eos h)) pruned in
    end_hyps st' = (if brk then firstn beam_width (end_hyps st ++ ended)
                    else end_hyps st ++ ended) /\
    (brk = false -> hyps st' = live).

Lemma filter_ext_in' {A : Type} (f g : A -> bool) (l : list A) :
  (forall a, In a l -> f a = g a) -> filter f l = filter g l.
Proof.
  induction l as [|a r IH]; intros H; simpl; [reflexivity|].
  rewrite (H a) by now left. rewrite IH; [reflexivity|].
  intros b Hb. apply H. now right.
Qed.

Lemma step_split (t : nat) (st st' : Loop') (brk : bool) :
  (forall h, In h (hyps st) -> hyp h <> []) ->
  step decoder_logits log_softmax self params lm ctc_prefix_score eouts_b
    elens_b beam_width n_models None t st = Ok (st', brk) ->
  step_split_spec st st' brk.
Proof.
  intros Hne H. apply step_ok in H.
  destruct H as (sl & ls & new & _ & Hexp & Hb & He & Hh).
  exists sl, ls, new. split; [exact Hexp|]. cbv zeta.
  assert (Hc : forall h, In h (local_pruning beam_width (concat new)) ->
                         complete self None t h = ends_in_eos h).
  { intros h Hin. unfold local_pruning in Hin. apply in_firstn in Hin.
    apply (Permutation_in _ (sorted_desc_perm Hyp' score _)) in Hin.
    destruct (expansions_hyp _ _ _ _ Hexp h Hin) as (beam & idx & Hbeam & E).
    unfold complete, ends_in_eos.
    assert (L : (1 <? length (hyp h))%nat = true).
    { apply Nat.ltb_lt. rewrite E, length_app. simpl.
      specialize (Hne beam Hbeam). destruct (hyp beam); [congruence|].
      simpl. lia. }
    now rewrite L. }
  rewrite (filter_ext_in' _ _ _ Hc) in He.
  split; [exact He|]. intros ->. rewrite Hh.
  apply filter_ext_in'. intros h Hin. now rewrite Hc.
Qed.

(** What one step does with the candidates that were not rejected, in
    oracle mode with a reference of [len_ref] tokens. *)
Definition oracle_split_spec (len_ref t : nat) (st st' : Loop') (brk : bool)
  : Prop :=
  exists scores_lm lmstate new_hyps,
    expansions Frame LMState CTCState decoder_logits log_softmax self params
      ctc_prefix_score eouts_b elens_b beam_width n_models st scores_lm
      lmstate = Ok new_hyps /\
    let pruned := local_pruning beam_width (concat new_hyps) in
    (t = len_ref ->
     end_hyps st' = (if brk then firstn beam_width (end_hyps st ++ pruned)
                     else end_hyps st ++ pruned)) /\
    (t <> len_ref -> brk = false ->
     end_hyps st' = end_hyps st /\ hyps st' = pruned).

Lemma filter_all {A : Type} (l : list A) : filter (fun _ => true) l = l.
Proof. induction l as [|a r IH]; simpl; [reflexivity | now rewrite IH]. Qed.

Lemma filter_none {A : Type} (l : list A) : filter (fun _ => false) l = [].
Proof. induction l as [|a r IH]; simpl; [reflexivity | exact IH]. Qed.

Lemma step_split_oracle (len_ref t : nat) (st st' : Loop') (brk : bool) :
  step decoder_logits log_softmax self params lm ctc_prefix_score eouts_b
    elens_b beam_width n_models (Some len_ref) t st = Ok (st', brk) ->
  oracle_split_spec len_ref t st st' brk.
Proof.
  intros H. apply step_ok in H.
  destruct H as (sl & ls & new & _ & Hexp & Hb & He & Hh).
  exists sl, ls, new. split; [exact Hexp|]. cbv zeta.
  unfold complete in He, Hh. split.
  - intros Ht. apply Nat.eqb_eq in Ht. rewrite Ht in He.
    now rewrite filter_all in He.
  - intros Ht ->. apply Nat.eqb_neq in Ht. rewrite Ht in He, Hh.
    cbn [negb] in Hh. rewrite filter_none, app_nil_r in He.
    rewrite filter_all in Hh. auto.
Qed.


End EndSymbol.


(** With the end symbol at the last index of the vocabulary the threshold
    test has no token after it: the step in which the end symbol is a
    candidate of a prefix that is long enough raises. *)
Lemma eos_at_the_last_index_raises :
  exists e,
    TransformerDecoder.step Examples.toy_logits Examples.toy_log_softmax
      Examples.edge_self (Examples.toy_params 3) None None
      [tt; tt; tt; tt] 4 3 1 None 0 Examples.edge_start
    = Raise e.
Proof. eexists. vm_compute. reflexivity. Qed.


(** ** Beam search: fewer hypotheses than [nbest] *)

(** C2 at an input the code does not handle.  With [beam_width = 2] and
    [nbest = 2] the second candidate of every step is an end symbol below
    the EOS threshold, so one hypothesis is alive when the step budget
    ends, the finished set is that one hypothesis and [end_hyps[1]] does
    not exist: the call raises [IndexError] where two sequences are due.
    The same call with [nbest = 1] returns its one sequence. *)
Theorem beam_search_short_of_nbest :
  snd (TransformerDecoder.beam_search Examples.peaked_logits
         Examples.toy_log_softmax Examples.toy_ctc Examples.toy_eouts
         Examples.toy_elens (Examples.toy_params 2) None None None None 2
         false None None 0 Examples.toy_self)
  = Raise IndexError /\
  exists score,
    snd (TransformerDecoder.beam_search Examples.peaked_logits
           Examples.toy_log_softmax Examples.toy_ctc Examples.toy_eouts
           Examples.toy_elens (Examples.toy_params 2) None None None None 1
           false None None 0 Examples.toy_self)
    = Ok ([[[1; 1; 1; 1; 1]]]%nat, [], [[score]]) /\
    score == - (5 # 2).
Proof.
  split; [vm_compute; reflexivity|].
  eexists. split; [vm_compute; reflexivity | reflexivity].
Qed.

(** C5 at an input the code does not handle.  With [beam_width = 1] the
    only candidate of the first step is an end symbol shorter than the
    minimum length: it is dropped, the live beam is empty from then on, and
    the step budget ends with an empty finished set and nothing to spill.
    The finished set stays empty and the n-best loop raises [IndexError]. *)
Theorem empty_finished_set_is_an_error :
  exists st,
    TransformerDecoder.run_steps Examples.eos_first_logits
      Examples.toy_log_softmax (Examples.toy_params_min_len 1) None 0
      Examples.toy_self None [tt; tt; tt; tt] 4 None 5 Examples.toy_start
    = Ok st /\
    TransformerDecoder.hyps st = [] /\
    TransformerDecoder.end_hyps st = [] /\
    TransformerDecoder.finished (Examples.toy_params_min_len 1) None None 1 st
    = [] /\
    TransformerDecoder.nbest_list Examples.toy_self 1
      (TransformerDecoder.finished (Examples.toy_params_min_len 1) None None
         1 st)
    = Raise IndexError /\
    snd (TransformerDecoder.beam_search Examples.eos_first_logits
           Examples.toy_log_softmax Examples.toy_ctc Examples.toy_eouts
           Examples.toy_elens (Examples.toy_params_min_len 1) None None None
           None 1 false None None 0 Examples.toy_self)
    = Raise IndexError.
Proof.
  eexists. split; [vm_compute; reflexivity|].
  repeat split; vm_compute; reflexivity.
Qed.

(** ** Beam search of width one and greedy decoding *)

Section ArgMax.

Import TransformerDecoder.

Lemma skipn_cons_nth (l : list Q) : forall s,
  (s < length l)%nat -> skipn s l = nth s l 0 :: skipn (S s) l.
Proof.
  induction l as [|x l IH]; intros [|s] H; simpl in *; try lia.
  - reflexivity.
  - apply IH. lia.
Qed.

(** The best position of the whole row heads its ranking. *)
Lemma argmax_from_ranking (row : list Q) : forall m s,
  (s + S m = length row)%nat ->
  exists j,
    argmax_from s (skipn s row) = Some (j, nth j row 0) /\
    hd_error (sorted_desc (fun i => nth i row 0) (seq s (S m))) = Some j /\
    (s <= j < length row)%nat.
Proof.
  induction m as [|m IH]; intros s Hs.
  - rewrite skipn_cons_nth by lia.
    rewrite (skipn_all2 row) by lia.
    exists s. simpl. split; [reflexivity|]. split; [reflexivity|lia].
  - destruct (IH (S s)) as (j & Ha & Hh & Hj); [lia|].
    rewrite skipn_cons_nth by lia.
    cbn [argmax_from]. rewrite Ha.
    change (seq s (S (S m))) with (s :: seq (S s) (S m)).
    cbn [sorted_desc].
    destruct (sorted_desc (fun i => nth i row 0) (seq (S s) (S m)))
      as [|j' rest]; [discriminate|].
    injection Hh as ->. cbn [insert_desc].
    destruct (Qle_bool (nth j row 0) (nth s row 0)).
    + exists s. split; [reflexivity|]. split; [reflexivity|lia].
    + exists j. split; [reflexivity|]. split; [reflexivity|lia].
Qed.

Lemma argmax_ranking (row : list Q) :
  row <> [] ->
  exists j, argmax row = Ok j /\ firstn 1 (ranking row) = [j] /\
            (j < length row)%nat.
Proof.
  intros Hne. destruct row as [|x r] eqn:E; [congruence|]. rewrite <- E.
  destruct (argmax_from_ranking row (length r) 0) as (j & Ha & Hh & Hj).
  { rewrite E. simpl. lia. }
  exists j. unfold argmax, ranking. simpl skipn in Ha. rewrite Ha.
  split; [reflexivity|]. split; [|lia].
  replace (length row) with (S (length r)) by (rewrite E; reflexivity).
  destruct (sorted_desc (fun i => nth i row 0) (seq 0 (S (length r))));
    [discriminate|].
  now injection Hh as ->.
Qed.

(** Rows that compare their entries alike have the same best position. *)
Lemma argmax_ext (r1 r2 : list Q) :
  r1 <> [] -> length r1 = length r2 ->
  (forall i j, (i < length r1)%nat -> (j < length r1)%nat ->
     Qle_bool (nth j r1 0) (nth i r1 0) = Qle_bool (nth j r2 0) (nth i r2 0)) ->
  exists j, argmax r1 = Ok j /\ argmax r2 = Ok j /\
            firstn 1 (ranking r1) = [j] /\ (j < length r1)%nat.
Proof.
  intros Hne Hl Hc.
  destruct (argmax_ranking r1 Hne) as (j & H1 & H2 & H3).
  assert (Hne2 : r2 <> []) by (destruct r1, r2; simpl in *; congruence).
  destruct (argmax_ranking r2 Hne2) as (j' & H1' & H2' & _).
  rewrite <- (ranking_ext r1 r2 Hl Hc), H2 in H2'. injection H2' as <-.
  exists j. auto.
Qed.

End ArgMax.

Section GreedyEquivalence.

Import TransformerDecoder.

Variables Frame LMState CTCState : Type.
Variable decoder_logits : list Frame -> list nat -> list Q.
Variable log_softmax : list Q -> list Q.
Variable new_CTCPrefixScore
  : list (list Q) -> nat -> nat -> CTCPrefixScore CTCState.

Variable self : Self LMState.
Variable params : Params.
(** The encoder output of the only utterance, without padding. *)
Variable enc : list Frame.
Variable n_ensmbl : nat.

Local Abbreviation Hyp' := (Hyp LMState CTCState).
Local Abbreviation Loop' := (Loop LMState CTCState).

Local Abbreviation row :=
  (scores_attn_row decoder_logits log_softmax params enc (n_ensmbl + 1)).

(** [log(softmax(x))] keeps the length and the order of a row. *)
Definition order_preserving (f : list Q -> list Q) : Prop :=
  forall x,
    length (f x) = length x /\
    forall i j, (i < length x)%nat -> (j < length x)%nat ->
      (nth i (f x) 0 <= nth j (f x) 0 <-> nth i x 0 <= nth j x 0).

(** The two tests of the end symbol never reject the token greedy decoding
    would pick. *)
Definition eos_never_rejected : Prop :=
  inject_Z (Z.of_nat (length enc)) * recog_min_len_ratio params <= 0 /\
  forall y_seq,
    argmax (decoder_logits enc y_seq) = Ok (eos self) ->
    below_eos_threshold params (row y_seq) (eos self) = Ok false.

(** The row has one largest entry.  torch fixes no order among equal
    values, neither for [topk] nor for [argmax]: only where the largest
    logit is alone do the two decoders have to pick the same token. *)
Definition single_maximum (row : list Q) : Prop :=
  exists i, (i < length row)%nat /\
    forall j, (j < length row)%nat -> j <> i -> nth j row 0 < nth i row 0.

Hypothesis Hsoftmax : order_preserving log_softmax.
Hypothesis Hties : forall y_seq, single_maximum (decoder_logits enc y_seq).
Hypothesis Hctc : recog_ctc_weight params == 0.
Hypothesis Hsmooth : 0 < recog_softmax_smoothing params.
Hypothesis Heos : eos_never_rejected.

Lemma logits_not_empty (y_seq : list nat) : decoder_logits enc y_seq <> [].
Proof.
  destruct (Hties y_seq) as (i & Hi & _). intros E. rewrite E in Hi.
  simpl in Hi. lia.
Qed.

Lemma score_order (a w n x y : Q) :
  0 < n -> w == 0 ->
  ((a + x / n) * (1 - w) <= (a + y / n) * (1 - w) <-> x <= y).
Proof.
  intros Hn Hw. rewrite (partial_score_order a w n x y Hn).
  rewrite Qplus_le_r.
  assert (E : forall z, z * (1 - w) == z) by (intros z; rewrite Hw; ring).
  now rewrite !E.
Qed.

Lemma row_length (y_seq : list nat) :
  length (row y_seq) = length (decoder_logits enc y_seq).
Proof.
  unfold scores_attn_row. rewrite length_map.
  rewrite (proj1 (Hsoftmax _)). apply length_map.
Qed.

Lemma total_scores_length (beam : Hyp') (y_seq : list nat) :
  length (total_scores params beam (row y_seq))
  = length (decoder_logits enc y_seq).
Proof.
  unfold total_scores, total_scores_attn. rewrite !length_map.
  apply row_length.
Qed.

(** The scores the beam ranks by order the tokens as the logits do. *)
Lemma total_scores_order (beam : Hyp') (y_seq : list nat) (i j : nat) :
  (i < length (decoder_logits enc y_seq))%nat ->
  (j < length (decoder_logits enc y_seq))%nat ->
  Qle_bool (nth j (total_scores params beam (row y_seq)) 0)
    (nth i (total_scores params beam (row y_seq)) 0)
  = Qle_bool (nth j (decoder_logits enc y_seq) 0)
      (nth i (decoder_logits enc y_seq) 0).
Proof.
  intros Hi Hj. apply Qle_bool_ext.
  set (L := decoder_logits enc y_seq) in *.
  set (S := map (fun x => x * recog_softmax_smoothing params) L).
  assert (LS : length S = length L) by apply length_map.
  destruct (Hsoftmax S) as (Hlen & Hord).
  unfold total_scores, total_scores_attn, scores_attn_row. fold L. fold S.
  rewrite !map_map.
  rewrite !(nth_map_lt _ (log_softmax S) 0 0) by (rewrite Hlen, LS; assumption).
  assert (Hq : 0 < inject_Z (Z.of_nat (n_ensmbl + 1))).
  { change 0 with (inject_Z 0). rewrite <- Zlt_Qlt. lia. }
  rewrite (score_order _ _ _ _ _ Hq Hctc).
  rewrite Hord by (rewrite LS; assumption).
  unfold S. rewrite !(nth_map_lt _ L 0 0) by assumption.
  split; intros H.
  - now apply Qmult_le_r in H.
  - now apply Qmult_le_r.
Qed.

Lemma not_too_short (h : Hyp') :
  hyp h <> [] -> too_short params (length enc) h = false.
Proof.
  intros Hne. unfold too_short. apply Qlt_bool_false.
  apply Qle_trans with 0; [exact (proj1 Heos)|].
  change 0 with (inject_Z 0). rewrite <- Zle_Qle.
  destruct (hyp h); [congruence | simpl length; lia].
Qed.

Lemma never_rejected (h : Hyp') (idx : nat) :
  hyp h <> [] ->
  argmax (decoder_logits enc (hyp h)) = Ok idx ->
  rejected self params (length enc) h (row (hyp h)) idx = Ok false.
Proof.
  intros Hne Ha. unfold rejected.
  destruct (idx =? eos self)%nat eqn:E; [|reflexivity].
  apply Nat.eqb_eq in E. subst idx.
  rewrite (not_too_short h Hne). now apply (proj2 Heos).
Qed.

(** With a beam of one, a live hypothesis is extended by the token greedy
    decoding picks. *)
Lemma expand_width_one (h : Hyp') :
  hyp h <> [] ->
  exists idx h',
    argmax (decoder_logits enc (hyp h)) = Ok idx /\
    hyp h' = hyp h ++ [idx] /\
    expand self params None (length enc) 1 0 h (row (hyp h)) None None
    = Ok [h'].
Proof.
  intros Hne.
  destruct (argmax_ext (total_scores params h (row (hyp h)))
              (decoder_logits enc (hyp h))) as (idx & _ & Ha & Hr & Hi).
  { intros Hc. apply (f_equal (@length Q)) in Hc.
    rewrite total_scores_length in Hc.
    destruct (decoder_logits enc (hyp h)) eqn:E; [|discriminate].
    now apply (logits_not_empty (hyp h)). }
  { apply total_scores_length. }
  { rewrite total_scores_length. intros i j Hi Hj.
    now apply total_scores_order. }
  pose proof (never_rejected h idx Hne Ha) as Hrej.
  exists idx. eexists. split; [exact Ha|].
  unfold expand, scored_candidates, coarse_topk.
  rewrite topk_ok by lia. rewrite Hr.
  cbn [bind add_lm map add_ctc repeat].
  cbn [seq mapM].
  unfold candidate at 1. cbn [topk_ids nth]. rewrite Hrej. cbn [bind somes].
  split; [|reflexivity]. reflexivity.
Qed.

Lemma step_width_one (t : nat) (st : Loop') (h : Hyp') :
  hyps st = [h] -> end_hyps st = [] -> hyp h <> [] ->
  exists idx h',
    argmax (decoder_logits enc (hyp h)) = Ok idx /\
    hyp h' = hyp h ++ [idx] /\
    step decoder_logits log_softmax self params None None enc (length enc) 1
      (n_ensmbl + 1) None t st
    = Ok (if (idx =? eos self)%nat
          then {| hyps := [h]; end_hyps := [h']; beam_var := h |}
          else {| hyps := [h']; end_hyps := []; beam_var := h |},
          (idx =? eos self)%nat).
Proof.
  intros Hh He Hne.
  destruct (expand_width_one h Hne) as (idx & h' & Ha & Hh' & Hx).
  exists idx, h'. split; [exact Ha|]. split; [exact Hh'|].
  unfold step. rewrite Hh, He.
  cbn [last cat_lmstate bind length seq combine mapM].
  rewrite Hx. cbn [bind concat app local_pruning sorted_desc insert_desc firstn].
  assert (Hc : complete self None t h' = (idx =? eos self)%nat).
  { unfold complete. rewrite Hh', last_last, length_app.
    assert (L : (1 <? length (hyp h) + length [idx])%nat = true).
    { apply Nat.ltb_lt. destruct (hyp h); [congruence | simpl; lia]. }
    now rewrite L. }
  cbn [filter]. rewrite Hc.
  destruct (idx =? eos self)%nat; reflexivity.
Qed.

(** The tokens greedy selection emits from the history [y_seq] in at most
    [k] steps: it stops after the end symbol. *)
Fixpoint greedy_path (k : nat) (y_seq : list nat) : list nat :=
  match k with
  | O => []
  | S k' =>
      match argmax (decoder_logits enc y_seq) with
      | Ok idx =>
          if (idx =? eos self)%nat then [idx]
          else idx :: greedy_path k' (y_seq ++ [idx])
      | Raise _ => []
      end
  end.

(** The last token of a path is the end symbol. *)
Definition path_ends_in_eos (p : list nat) : bool :=
  (last p (S (eos self)) =? eos self)%nat.

Lemma last_cons_default {A : Type} (a d : A) (l : list A) :
  last (a :: l) d = last l a.
Proof.
  revert a d. induction l as [|b l IH]; intros a d; [reflexivity|].
  change (last (a :: b :: l) d) with (last (b :: l) d).
  rewrite (IH b d). symmetry. apply IH.
Qed.

Lemma path_ends_in_eos_cons (idx : nat) (p : list nat) :
  (idx =? eos self)%nat = false ->
  path_ends_in_eos (idx :: p) = path_ends_in_eos p.
Proof.
  intros H. unfold path_ends_in_eos. rewrite last_cons_default.
  assert (Hs : (S (eos self) =? eos self)%nat = false)
    by (apply Nat.eqb_neq; lia).
  destruct p as [|a p].
  - cbn [last]. now rewrite H, Hs.
  - now rewrite !last_cons_default.
Qed.

Lemma argmax_defined (y_seq : list nat) :
  exists idx, argmax (decoder_logits enc y_seq) = Ok idx.
Proof.
  destruct (argmax_ranking (decoder_logits enc y_seq) (logits_not_empty y_seq))
    as (idx & H & _).
  eauto.
Qed.

(** The beam of width one follows the greedy path. *)
Lemma beam_follows_path (k : nat) : forall (t : nat) (st : Loop') (h : Hyp'),
  hyps st = [h] -> end_hyps st = [] -> hyp h <> [] ->
  exists trace hf,
    steps decoder_logits log_softmax self params None None enc (length enc) 1
      (n_ensmbl + 1) None (seq t k) st = (trace, None) /\
    global_pruning 1 (last trace st) = [hf] /\
    hyp hf = hyp h ++ greedy_path k (hyp h).
Proof.
  induction k as [|k IH]; intros t st h Hh He Hne.
  - exists [], h. simpl. split; [reflexivity|].
    unfold global_pruning. rewrite He, Hh, app_nil_r. auto.
  - destruct (step_width_one t st h Hh He Hne) as (idx & h' & Ha & Hh' & Hs).
    cbn [seq steps greedy_path]. rewrite Hs, Ha.
    destruct (idx =? eos self)%nat eqn:E.
    + eexists. exists h'. split; [reflexivity|]. simpl. auto.
    + destruct (IH (S t) {| hyps := [h']; end_hyps := []; beam_var := h |} h')
        as (trace & hf & Ht & Hg & Hf); try reflexivity.
      { rewrite Hh'. now destruct (hyp h). }
      rewrite Ht. eexists. exists hf. split; [reflexivity|].
      rewrite last_cons_default. split; [exact Hg|].
      rewrite Hf, Hh', <- app_assoc. reflexivity.
Qed.

Local Abbreviation greedy_steps' :=
  (greedy_steps decoder_logits self [enc] false None).

(** Greedy decoding of the one utterance follows the greedy path. *)
Lemma greedy_follows_path (ytime : Z) (k : nat) :
  forall (t : nat) (g : Greedy) (ys : list nat) (n : nat),
  Z.of_nat (t + k) = ytime ->
  y_seq g = [ys] -> ylens g = [n] -> eos_flags g = [false] ->
  exists g',
    greedy_steps' ytime (seq t k) g = Ok g' /\
    hyps_batch g' = hyps_batch g ++ map (fun y => [y]) (greedy_path k ys) /\
    ylens g' = [(n + length (greedy_path k ys))%nat] /\
    eos_flags g' = [path_ends_in_eos (greedy_path k ys)].
Proof.
  induction k as [|k IH]; intros t g ys n Hy Hys Hn Hf.
  - exists g. simpl. rewrite app_nil_r, Nat.add_0_r.
    split; [reflexivity|]. split; [reflexivity|]. split; [exact Hn|].
    rewrite Hf. f_equal. unfold path_ends_in_eos. cbn [last].
    symmetry. apply Nat.eqb_neq. lia.
  - destruct (argmax_defined ys) as (idx & Ha).
    cbn [seq greedy_steps greedy_path]. unfold greedy_step.
    rewrite Hys, Hn, Hf. cbn [combine mapM fst snd]. rewrite Ha.
    cbn [bind zip_with orb forallb andb].
    destruct (idx =? eos self)%nat eqn:E.
    + eexists. split; [reflexivity|]. cbn.
      split; [reflexivity|]. split; [f_equal; lia|].
      unfold path_ends_in_eos. cbn [last]. now rewrite E.
    + destruct (Z.of_nat t =? ytime - 1)%Z eqn:Et.
      * assert (k = 0)%nat by (apply Z.eqb_eq in Et; lia). subst k.
        eexists. split; [reflexivity|]. cbn.
        split; [reflexivity|]. split; [f_equal; lia|].
        unfold path_ends_in_eos. cbn [last]. now rewrite E.
      * cbn [bind length seq mapM andb orb].
        match goal with
        | |- context [greedy_steps _ _ _ _ _ _ (seq (S t) k) ?g1] =>
            destruct (IH (S t) g1 (ys ++ [idx]) (S n))
              as (g' & Hg & Hb & Hl & Hfl);
            [rewrite <- Hy; lia | reflexivity | reflexivity | reflexivity |];
            rewrite Hg
        end.
        exists g'. split; [reflexivity|]. rewrite Hb, Hl, Hfl.
        cbn [hyps_batch]. rewrite <- app_assoc.
        split; [reflexivity|]. split; [simpl; f_equal; lia|].
        now rewrite path_ends_in_eos_cons.
Qed.

Variable exclude_eos : bool.

Hypothesis Hwidth : recog_beam_width params = 1%Z.
Hypothesis Horacle : recog_oracle params = false.
Hypothesis Hratio : 0 <= recog_max_len_ratio params.

(** [ytime] of both decoders for the one utterance. *)
Definition ytime : Z :=
  (Qfloor (inject_Z (Z.of_nat (length enc)) * recog_max_len_ratio params)
   + 1)%Z.

Lemma ytime_positive : (1 <= ytime)%Z.
Proof.
  unfold ytime.
  assert (H : 0 <= inject_Z (Z.of_nat (length enc))
                   * recog_max_len_ratio params).
  { apply Qmult_le_0_compat; [|exact Hratio].
    change 0 with (inject_Z 0). rewrite <- Zle_Qle. lia. }
  apply Qfloor_resp_le in H. change (Qfloor 0) with 0%Z in H. lia.
Qed.

(** The tokens of the greedy path of the utterance, and the sequence both
    decoders return for it. *)
Definition path : list nat := greedy_path (Z.to_nat ytime) [eos self].

Definition decoded (p : list nat) : list nat :=
  let h := if bwd self then rev p else p in
  if exclude_eos then
    if path_ends_in_eos p then (if bwd self then tl h else removelast h)
    else h
  else h.

Lemma greedy_path_nonempty (k : nat) (ys : list nat) :
  greedy_path (S k) ys <> [].
Proof.
  simpl. destruct (argmax_defined ys) as (idx & ->).
  destruct (idx =? eos self)%nat; discriminate.
Qed.

Lemma path_nonempty : path <> [].
Proof.
  unfold path. pose proof ytime_positive.
  destruct (Z.to_nat ytime) eqn:E; [lia|]. apply greedy_path_nonempty.
Qed.

Lemma greedy_is_path :
  greedy decoder_logits self [enc] (recog_max_len_ratio params) exclude_eos
    false None
  = Ok [decoded path].
Proof.
  unfold greedy, greedy_ytime. cbn [length hd bind repeat].
  fold ytime.
  destruct (greedy_follows_path ytime (Z.to_nat ytime) 0
              {| y_seq := [[eos self]]; hyps_batch := [];
                 ylens := [0%nat]; eos_flags := [false] |}
              [eos self] 0%nat) as (g' & Hg & Hb & Hl & Hf);
    try reflexivity.
  { pose proof ytime_positive. simpl. lia. }
  rewrite Hg. cbn [bind]. fold path in Hb, Hl, Hf.
  rewrite Hb, Hl, Hf. cbn [app hyps_batch].
  pose proof path_nonempty as Hne.
  destruct (map (fun y => [y]) path) eqn:Em.
  { destruct path; [congruence | discriminate]. }
  rewrite <- Em. cbn [bind seq map nth].
  rewrite map_map. cbn [nth]. rewrite map_id.
  cbn [Nat.add]. rewrite firstn_all.
  unfold decoded. destruct exclude_eos; reflexivity.
Qed.

Lemma last_app_nonempty (l p : list nat) (d d' : nat) :
  p <> [] -> last (l ++ p) d = last p d'.
Proof.
  intros H. destruct (exists_last H) as (p' & y & ->).
  now rewrite app_assoc, !last_last.
Qed.

Local Abbreviation start :=
  {| hyps := [root self None None : Hyp'];
     end_hyps := [];
     beam_var := root self None None |}.

Lemma search_is_path :
  exists hf,
    @search Frame LMState CTCState decoder_logits log_softmax [enc]
      [length enc] params None None None 1 None n_ensmbl self 0 None None
    = Ok {| utt_hyps := [if bwd self then rev path else path];
            utt_scores := [score_attn hf];
            utt_eos_flags := [path_ends_in_eos path];
            utt_end_hyps := [hf] |}.
Proof.
  destruct (beam_follows_path (Z.to_nat ytime) 0 start
              (root self None None)) as (trace & hf & Ht & Hg & Hf);
    try reflexivity; [discriminate|].
  fold path in Hf. cbn [root hyp app] in Hf.
  exists hf. unfold search, ytime_of. rewrite Horacle.
  cbn [index nth_error bind nth]. fold ytime.
  unfold root_row_fits. cbn [length Nat.eqb negb]. rewrite andb_false_r.
  cbn [bind]. rewrite firstn_all.
  unfold run_steps, beam_width, n_models. rewrite Hwidth.
  change (Z.to_nat 1) with 1%nat. rewrite Ht. cbn [bind].
  unfold finished. rewrite Hg. cbn [sorted_desc insert_desc].
  rewrite nbest_list_ok.
  - cbn [firstn map]. unfold output_tokens. rewrite Hf. cbn [tl].
    fold path. rewrite last_cons_default. unfold path_ends_in_eos.
    replace (last path (eos self)) with (last path (S (eos self)))
      by (apply (last_app_nonempty [] path _ _ path_nonempty)).
    reflexivity.
  - simpl. lia.
  - intros h [<- | []]. rewrite Hf. discriminate.
Qed.

Variable speakers : option (list string).

(** The list of speakers, when there is one, names the speaker of the
    utterance. *)
Hypothesis Hspeakers :
  match speakers with
  | Some names => names <> []
  | None => True
  end.

Lemma decode_utterance_is_path :
  exists hf self',
    decode_utterance decoder_logits log_softmax new_CTCPrefixScore [enc]
      [length enc] params None None None None 1 None speakers n_ensmbl self 0
    = (self',
       Ok {| utt_hyps := [if bwd self then rev path else path];
             utt_scores := [score_attn hf];
             utt_eos_flags := [path_ends_in_eos path];
             utt_end_hyps := [hf] |}) /\
    bwd self' = bwd self.
Proof.
  destruct search_is_path as (hf & Hs). exists hf.
  unfold decode_utterance, init_ctc, carry_over.
  destruct speakers as [[|spk names]|]; [congruence| |].
  - cbn [index nth_error bind is_RNNLM].
    rewrite andb_false_r.
    exists (set_prev_spk self spk).
    assert (Hnone : (if String.eqb spk (prev_spk self)
                     then @None LMState else None) = None)
      by (destruct (String.eqb spk (prev_spk self)); reflexivity).
    rewrite Hnone.
    rewrite (search_same_config Frame LMState CTCState decoder_logits
               log_softmax [enc] [length enc] params None None None 1 None
               n_ensmbl (set_prev_spk self spk) self 0 None None)
      by (now repeat split).
    rewrite Hs. split; reflexivity.
  - exists self. rewrite Hs. split; reflexivity.
Qed.


End GreedyEquivalence.

Lemma toy_log_softmax_order : order_preserving Examples.toy_log_softmax.
Proof.
  intros x. unfold Examples.toy_log_softmax. split; [apply length_map|].
  intros i j Hi Hj.
  rewrite !(nth_map_lt _ x 0 0) by assumption.
  unfold Qminus. now rewrite !Qplus_le_l.
Qed.

Lemma toy_logits_single_maximum (y_seq : list nat) :
  single_maximum (Examples.toy_logits [tt; tt; tt; tt] y_seq).
Proof.
  unfold Examples.toy_logits.
  destruct (length y_seq) as [|[|[|n]]];
    [exists 2%nat | exists 1%nat | exists 3%nat | exists 2%nat];
    (split; [simpl; lia|]);
    intros j Hj Hne; simpl in Hj;
    destruct j as [|[|[|[|j]]]]; try lia; vm_compute; reflexivity.
Qed.



(** * Part III: further properties of the code *)

(** ** Sums over rows *)

(** The sum and the product of the entries of a row. *)
Definition Qsum (l : list Q) : Q := fold_right Qplus 0 l.
Definition Qprod (l : list Q) : Q := fold_right Qmult 1 l.

(** [f 0 + f 1 + ... + f (n - 1)] *)
Fixpoint bigsum (f : nat -> Q) (n : nat) : Q :=
  match n with
  | O => 0
  | S m => bigsum f m + f m
  end.

Lemma bigsum_ext (f g : nat -> Q) (n : nat) :
  (forall i, (i < n)%nat -> f i == g i) -> bigsum f n == bigsum g n.
Proof.
  induction n as [|n IH]; intros H; simpl.
  - reflexivity.
  - rewrite IH by (intros; apply H; lia). rewrite (H n) by lia. reflexivity.
Qed.

Lemma bigsum_zero (f : nat -> Q) (n : nat) :
  (forall i, (i < n)%nat -> f i == 0) -> bigsum f n == 0.
Proof.
  induction n as [|n IH]; intros H; simpl.
  - reflexivity.
  - rewrite IH by (intros; apply H; lia). rewrite (H n) by lia. ring.
Qed.

Lemma bigsum_plus (f g : nat -> Q) (n : nat) :
  bigsum (fun i => f i + g i) n == bigsum f n + bigsum g n.
Proof.
  induction n as [|n IH]; simpl.
  - ring.
  - rewrite IH. ring.
Qed.

Lemma bigsum_scale (c : Q) (f : nat -> Q) (n : nat) :
  bigsum (fun i => c * f i) n == c * bigsum f n.
Proof.
  induction n as [|n IH]; simpl.
  - ring.
  - rewrite IH. ring.
Qed.

Lemma bigsum_swap (F : nat -> nat -> Q) (n m : nat) :
  bigsum (fun i => bigsum (fun j => F i j) m) n
  == bigsum (fun j => bigsum (fun i => F i j) n) m.
Proof.
  induction n as [|n IH]; simpl.
  - symmetry. apply bigsum_zero. reflexivity.
  - rewrite IH. symmetry. apply bigsum_plus.
Qed.

Lemma bigsum_split (f : nat -> Q) (a b : nat) :
  bigsum f (a + b) == bigsum f a + bigsum (fun i => f (a + i)%nat) b.
Proof.
  induction b as [|b IH].
  - rewrite Nat.add_0_r. simpl. ring.
  - rewrite Nat.add_succ_r. simpl. rewrite IH. ring.
Qed.

Lemma bigsum_rev (f : nat -> Q) (n : nat) :
  bigsum f n == bigsum (fun i => f (n - 1 - i)%nat) n.
Proof.
  induction n as [|n IH].
  - reflexivity.
  - transitivity (bigsum (fun i => f (S n - 1 - i)%nat) (1 + n));
      [|reflexivity].
    rewrite (bigsum_split _ 1 n). cbn [bigsum].
    rewrite (bigsum_ext (fun i => f (S n - 1 - (1 + i))%nat)
               (fun i => f (n - 1 - i)%nat)).
    + rewrite <- IH. replace (S n - 1 - 0)%nat with n by lia. ring.
    + intros i Hi.
      replace (S n - 1 - (1 + i))%nat with (n - 1 - i)%nat by lia.
      reflexivity.
Qed.

Lemma bigsum_single (f : nat -> Q) (n j : nat) :
  (j < n)%nat -> (forall k, (k < n)%nat -> k <> j -> f k == 0) ->
  bigsum f n == f j.
Proof.
  intros Hj H.
  replace n with (j + (1 + (n - S j)))%nat by lia.
  rewrite bigsum_split, (bigsum_split _ 1). simpl.
  rewrite Nat.add_0_r.
  rewrite (bigsum_zero f j) by (intros; apply H; lia).
  rewrite (bigsum_zero _ (n - S j)) by (intros; apply H; lia).
  ring.
Qed.

Lemma Qsum_map_seq (f : nat -> Q) (n : nat) : forall a,
  Qsum (map f (seq a n)) == bigsum (fun i => f (a + i)%nat) n.
Proof.
  induction n as [|n IH]; intros a.
  - reflexivity.
  - change (S n) with (1 + n)%nat at 2.
    rewrite (bigsum_split _ 1 n). simpl. rewrite IH, Nat.add_0_r.
    rewrite (bigsum_ext (fun i => f (S a + i)%nat)
               (fun i => f (a + S i)%nat)).
    + ring.
    + intros i _. now rewrite Nat.add_succ_r.
Qed.

Lemma Qsum_bigsum (l : list Q) :
  Qsum l == bigsum (fun i => nth i l 0) (length l).
Proof.
  induction l as [|x l IH].
  - reflexivity.
  - change (length (x :: l)) with (1 + length l)%nat.
    rewrite (bigsum_split _ 1). simpl. rewrite IH. ring.
Qed.

Lemma Qsum_app (l1 l2 : list Q) : Qsum (l1 ++ l2) == Qsum l1 + Qsum l2.
Proof.
  induction l1 as [|x l1 IH]; simpl.
  - ring.
  - rewrite IH. ring.
Qed.

Lemma Qsum_zeros (n : nat) : Qsum (repeat 0 n) == 0.
Proof.
  induction n as [|n IH]; simpl; [reflexivity|]. rewrite IH. ring.
Qed.

(** ** The exclusive scans of [mocha.py] *)

Lemma cumprod_from_nth (l : list Q) : forall acc j d,
  (j <= length l)%nat ->
  nth j (acc :: cumprod_from acc l) d == acc * Qprod (firstn j l).
Proof.
  induction l as [|a l IH]; intros acc j d Hj.
  - simpl in Hj. replace j with 0%nat by lia. simpl. ring.
  - destruct j as [|j].
    + simpl. ring.
    + change (nth (S j) (acc :: cumprod_from acc (a :: l)) d)
        with (nth j ((acc * a) :: cumprod_from (acc * a) l) d).
      rewrite IH by (simpl in Hj; lia). simpl. ring.
Qed.

Lemma cumsum_from_nth (l : list Q) : forall acc j d,
  (j <= length l)%nat ->
  nth j (acc :: cumsum_from acc l) d == acc + Qsum (firstn j l).
Proof.
  induction l as [|a l IH]; intros acc j d Hj.
  - simpl in Hj. replace j with 0%nat by lia. simpl. ring.
  - destruct j as [|j].
    + simpl. ring.
    + change (nth (S j) (acc :: cumsum_from acc (a :: l)) d)
        with (nth j ((acc + a) :: cumsum_from (acc + a) l) d).
      rewrite IH by (simpl in Hj; lia). simpl. ring.
Qed.

Lemma cumprod_from_length (l : list Q) : forall acc,
  length (cumprod_from acc l) = length l.
Proof. induction l; intros; simpl; auto. Qed.

Lemma cumsum_from_length (l : list Q) : forall acc,
  length (cumsum_from acc l) = length l.
Proof. induction l; intros; simpl; auto. Qed.

Lemma length_removelast {A : Type} (l : list A) :
  length (removelast l) = (length l - 1)%nat.
Proof.
  rewrite removelast_firstn_len, length_firstn. lia.
Qed.

(** X1. [exclusive_cumprod(x)] has as many entries as [x] (one entry for
    an empty row), and its entry [j] is the product of the entries of [x]
    before position [j]: [[a, b, c] => [1, a, a * b]].  The last entry of
    [x] is never read. *)
Theorem exclusive_cumprod_prefix_products (x : list Q) :
  length (MoChA.exclusive_cumprod x) = Nat.max 1 (length x) /\
  (forall j d, (j < length x)%nat ->
     nth j (MoChA.exclusive_cumprod x) d == Qprod (firstn j x)) /\
  (forall y z, MoChA.exclusive_cumprod (x ++ [y])
               = MoChA.exclusive_cumprod (x ++ [z])).
Proof.
  unfold MoChA.exclusive_cumprod. split; [|split].
  - change (cumprod (1 :: removelast x))
      with (1 :: cumprod_from 1 (removelast x)).
    cbn [length]. rewrite cumprod_from_length, length_removelast. lia.
  - intros j d Hj.
    change (cumprod (1 :: removelast x))
      with (1 :: cumprod_from 1 (removelast x)).
    rewrite cumprod_from_nth by (rewrite length_removelast; lia).
    rewrite firstn_removelast by exact Hj. ring.
  - intros y z. now rewrite !removelast_last.
Qed.

(** X2. [exclusive_cumsum(x)] has as many entries as [x] (one entry for an
    empty row), and its entry [j] is the sum of the entries of [x] before
    position [j]: [[a, b, c] => [0, a, a + b]]. *)
Theorem exclusive_cumsum_prefix_sums (x : list Q) :
  length (MoChA.exclusive_cumsum x) = Nat.max 1 (length x) /\
  (forall j d, (j < length x)%nat ->
     nth j (MoChA.exclusive_cumsum x) d == Qsum (firstn j x)).
Proof.
  unfold MoChA.exclusive_cumsum. split.
  - change (cumsum (0 :: removelast x))
      with (0 :: cumsum_from 0 (removelast x)).
    cbn [length]. rewrite cumsum_from_length, length_removelast. lia.
  - intros j d Hj.
    change (cumsum (0 :: removelast x))
      with (0 :: cumsum_from 0 (removelast x)).
    rewrite cumsum_from_nth by (rewrite length_removelast; lia).
    rewrite firstn_removelast by exact Hj. ring.
Qed.

(** ** The moving sum *)

Lemma nth_pad (x : list Q) (back forward m : nat) :
  nth m (MoChA.pad x back forward) 0
  = if (m <? back)%nat then 0 else nth (m - back) x 0.
Proof.
  unfold MoChA.pad. destruct (m <? back)%nat eqn:E.
  - apply Nat.ltb_lt in E.
    rewrite app_nth1 by (rewrite repeat_length; exact E).
    apply nth_repeat.
  - apply Nat.ltb_ge in E.
    rewrite app_nth2 by (rewrite repeat_length; exact E).
    rewrite repeat_length.
    destruct (Nat.lt_ge_cases (m - back) (length x)) as [H | H].
    + now rewrite app_nth1.
    + rewrite app_nth2 by exact H. rewrite (nth_overflow x) by exact H.
      apply nth_repeat.
Qed.

Lemma length_pad (x : list Q) (back forward : nat) :
  length (MoChA.pad x back forward) = (back + length x + forward)%nat.
Proof.
  unfold MoChA.pad. rewrite !length_app, !repeat_length. lia.
Qed.

Lemma dot_ones (l : list Q) : forall k,
  (k <= length l)%nat -> MoChA.dot l (repeat 1 k) == Qsum (firstn k l).
Proof.
  unfold MoChA.dot.
  induction l as [|a l IH]; intros [|k] Hk.
  - reflexivity.
  - simpl in Hk. lia.
  - reflexivity.
  - simpl in Hk. simpl. rewrite IH by lia. ring.
Qed.

Lemma firstn_skipn_seq (l : list Q) (i k : nat) :
  (i + k <= length l)%nat ->
  firstn k (skipn i l) = map (fun d => nth (i + d) l 0) (seq 0 k).
Proof.
  intros H. apply (nth_ext _ _ 0 0).
  - rewrite length_firstn, length_skipn, length_map, length_seq. lia.
  - intros n Hn. rewrite length_firstn, length_skipn in Hn.
    rewrite nth_firstn.
    assert (E : (n <? k)%nat = true) by (apply Nat.ltb_lt; lia).
    rewrite E, nth_skipn.
    rewrite (nth_map_lt _ (seq 0 k) 0%nat) by (rewrite length_seq; lia).
    rewrite seq_nth by lia. reflexivity.
Qed.

(** The sum of the entries of [x] at the positions [lo, ..., hi]; a
    position beyond the end of [x] adds nothing. *)
Definition window (x : list Q) (lo hi : nat) : Q :=
  Qsum (map (fun k => nth k x 0) (seq lo (S hi - lo))).

Lemma conv1d_ones (x : list Q) (k : nat) :
  (k <= length x)%nat ->
  MoChA.conv1d x (repeat 1 k)
  = Ok (map (fun i => MoChA.dot (firstn k (skipn i x)) (repeat 1 k))
          (seq 0 (length x + 1 - k))).
Proof.
  intros H. unfold MoChA.conv1d. rewrite repeat_length.
  apply Nat.leb_le in H. now rewrite H.
Qed.

(** Entry [i] of the moving sum, as the sum the convolution forms. *)
Lemma moving_sum_entry (x : list Q) (back forward : nat) :
  x <> [] ->
  exists y,
    MoChA.moving_sum x back forward = Ok y /\
    length y = length x /\
    forall i, (i < length x)%nat ->
      nth i y 0
      == bigsum (fun d => if (i + d <? back)%nat then 0
                          else nth (i + d - back) x 0)
           (back + forward + 1).
Proof.
  intros Hx. unfold MoChA.moving_sum.
  assert (Hl : (0 < length x)%nat) by (destruct x; [congruence | simpl; lia]).
  rewrite conv1d_ones by (rewrite length_pad; lia).
  rewrite length_pad.
  replace (back + length x + forward + 1 - (back + forward + 1))%nat
    with (length x) by lia.
  eexists. split; [reflexivity|]. split.
  - now rewrite length_map, length_seq.
  - intros i Hi.
    rewrite (nth_map_lt _ (seq 0 (length x)) 0%nat)
      by (rewrite length_seq; exact Hi).
    rewrite seq_nth by exact Hi. cbn [Nat.add].
    rewrite dot_ones
      by (rewrite length_firstn, length_skipn, length_pad; lia).
    rewrite firstn_firstn, Nat.min_id.
    rewrite firstn_skipn_seq by (rewrite length_pad; lia).
    rewrite Qsum_map_seq. apply bigsum_ext. intros d _.
    cbn [Nat.add]. rewrite nth_pad. reflexivity.
Qed.

Lemma window_bigsum (x : list Q) (lo n : nat) :
  Qsum (map (fun k => nth k x 0) (seq lo n))
  == bigsum (fun d => nth (lo + d) x 0) n.
Proof. apply Qsum_map_seq. Qed.

(** The sum the convolution forms at position [i] is the sum over the
    window around [i]. *)
Lemma bigsum_window (x : list Q) (back forward i : nat) :
  bigsum (fun d => if (i + d <? back)%nat then 0
                   else nth (i + d - back) x 0)
    (back + forward + 1)
  == window x (i - back) (i + forward).
Proof.
  unfold window. rewrite window_bigsum.
  destruct (Nat.le_ge_cases back i) as [Hle | Hge].
  - replace (S (i + forward) - (i - back))%nat
      with (back + forward + 1)%nat by lia.
    apply bigsum_ext. intros d _.
    assert (E : (i + d <? back)%nat = false) by (apply Nat.ltb_ge; lia).
    rewrite E. replace (i - back + d)%nat with (i + d - back)%nat by lia.
    reflexivity.
  - replace (i - back)%nat with 0%nat by lia.
    replace (back + forward + 1)%nat
      with ((back - i) + (S (i + forward) - 0))%nat by lia.
    rewrite bigsum_split.
    rewrite bigsum_zero.
    + rewrite Qplus_0_l. apply bigsum_ext. intros d _.
      assert (E : (i + (back - i + d) <? back)%nat = false)
        by (apply Nat.ltb_ge; lia).
      rewrite E.
      replace (i + (back - i + d) - back)%nat with (0 + d)%nat by lia.
      reflexivity.
    + intros d Hd.
      assert (E : (i + d <? back)%nat = true) by (apply Nat.ltb_lt; lia).
      now rewrite E.
Qed.

(** X3. On a row that is not empty, [moving_sum(x, back, forward)] returns
    a row of the length of [x] whose entry [i] is the sum of the entries
    of [x] at the positions [i - back, ..., i + forward] that exist. *)
Theorem moving_sum_is_windowed_sum (x : list Q) (back forward : nat)
  (Hx : x <> []) :
  exists y,
    MoChA.moving_sum x back forward = Ok y /\
    length y = length x /\
    forall i, (i < length x)%nat ->
      nth i y 0 == window x (i - back) (i + forward).
Proof.
  destruct (moving_sum_entry x back forward Hx) as (y & Hy & Hlen & Hent).
  exists y. split; [exact Hy|]. split; [exact Hlen|].
  intros i Hi. rewrite (Hent i Hi). apply bigsum_window.
Qed.

(** The moving sum of three entries around each position of a row. *)
Lemma moving_sum_is_windowed_sum_witness :
  exists y,
    MoChA.moving_sum [1; 2; 3; 4] 1 1 = Ok y /\
    length y = length [1; 2; 3; 4] /\
    forall i, (i < length [1; 2; 3; 4])%nat ->
      nth i y 0 == window [1; 2; 3; 4] (i - 1) (i + 1).
Proof.
  apply (moving_sum_is_windowed_sum [1; 2; 3; 4] 1 1). discriminate.
Defined.

(** ** Chunkwise attention *)

Lemma nth_zip_with {A B C : Type} (f : A -> B -> C) (l : list A) :
  forall (m : list B) (i : nat) (a : A) (b : B) (c : C),
  (i < length l)%nat -> (i < length m)%nat ->
  nth i (zip_with f l m) c = f (nth i l a) (nth i m b).
Proof.
  induction l as [|x l IH]; intros [|y m] [|i] a b c Hl Hm; simpl in *;
    try lia.
  - reflexivity.
  - apply IH; lia.
Qed.

Lemma bigsum_nonneg (f : nat -> Q) (n : nat) :
  (forall i, (i < n)%nat -> 0 <= f i) -> 0 <= bigsum f n.
Proof.
  induction n as [|n IH]; intros H; simpl.
  - apply Qle_refl.
  - rewrite <- (Qplus_0_l 0). apply Qplus_le_compat.
    + apply IH. intros; apply H; lia.
    + apply H. lia.
Qed.

Lemma Qplus_nonneg_pos (a b : Q) : 0 <= a -> 0 < b -> 0 < a + b.
Proof.
  intros Ha Hb. apply Qlt_le_trans with (0 + b).
  - now rewrite Qplus_0_l.
  - apply Qplus_le_compat; [exact Ha | apply Qle_refl].
Qed.

Lemma Qplus_pos_nonneg (a b : Q) : 0 < a -> 0 <= b -> 0 < a + b.
Proof.
  intros Ha Hb. rewrite Qplus_comm. now apply Qplus_nonneg_pos.
Qed.

Lemma bigsum_pos (f : nat -> Q) (n j : nat) :
  (forall i, (i < n)%nat -> 0 <= f i) -> (j < n)%nat -> 0 < f j ->
  0 < bigsum f n.
Proof.
  intros H Hj Hp.
  replace n with (j + (1 + (n - S j)))%nat by lia.
  rewrite bigsum_split, (bigsum_split _ 1). simpl.
  rewrite Nat.add_0_r.
  assert (H1 : 0 <= bigsum f j)
    by (apply bigsum_nonneg; intros; apply H; lia).
  assert (H2 : 0 <= bigsum (fun i => f (j + (1 + i))%nat) (n - S j))
    by (apply bigsum_nonneg; intros; apply H; lia).
  apply Qplus_nonneg_pos; [exact H1|].
  apply Qplus_pos_nonneg; [|exact H2].
  rewrite Qplus_0_l. exact Hp.
Qed.

(** A sum over the pairs [(i, i + d)] read as a sum over the second
    index. *)
Lemma bigsum_reindex (a G : nat -> Q) (n d : nat) :
  (forall k, (n <= k)%nat -> G k == 0) ->
  bigsum (fun i => a i * G (i + d)%nat) n
  == bigsum (fun j => (if (d <=? j)%nat then a (j - d)%nat else 0) * G j) n.
Proof.
  intros HG. destruct (Nat.le_gt_cases n d) as [Hle | Hlt].
  - rewrite !bigsum_zero; [reflexivity | |].
    + intros j Hj.
      assert (E : (d <=? j)%nat = false) by (apply Nat.leb_gt; lia).
      rewrite E. ring.
    + intros i Hi. rewrite HG by lia. ring.
  - assert (Hk : exists k, n = (d + k)%nat) by (exists (n - d)%nat; lia).
    destruct Hk as [k ->].
    transitivity (bigsum (fun i => a i * G (i + d)%nat) (k + d)).
    { now rewrite (Nat.add_comm k d). }
    rewrite (bigsum_split _ k d), (bigsum_split _ d k).
    rewrite (bigsum_zero (fun i => a (k + i)%nat * G (k + i + d)%nat)).
    2:{ intros i Hi. rewrite HG by lia. ring. }
    rewrite (bigsum_zero _ d).
    2:{ intros j Hj.
        assert (E : (d <=? j)%nat = false) by (apply Nat.leb_gt; lia).
        rewrite E. ring. }
    rewrite Qplus_0_r, Qplus_0_l. apply bigsum_ext. intros i Hi.
    assert (E : (d <=? d + i)%nat = true) by (apply Nat.leb_le; lia).
    rewrite E. replace (d + i - d)%nat with i by lia.
    replace (i + d)%nat with (d + i)%nat by lia. reflexivity.
Qed.

Lemma clamp_min_pos (x m : Q) : 0 < m -> 0 < MoChA.clamp_min x m.
Proof.
  intros Hm. unfold MoChA.clamp_min.
  destruct (Qlt_bool x m) eqn:E; [exact Hm|].
  unfold Qlt_bool in E. apply negb_false_iff in E.
  apply Qle_bool_iff in E. eapply Qlt_le_trans; eassumption.
Qed.

Section Chunkwise.

Variable exp : Q -> Q.

(** The entry of the clamped exponentials [d] positions before [j]. *)
Definition back_entry (s : list Q) (j d : nat) : Q :=
  if (d <=? j)%nat then nth (j - d) s 0 else 0.

Lemma softmax_exp_ok (e : list Q) :
  e <> [] ->
  exists s, MoChA.softmax_exp exp e = Ok s /\
            length s = length e /\
            forall i, (i < length e)%nat -> 0 < nth i s 0.
Proof.
  intros He. unfold MoChA.softmax_exp.
  destruct e as [|x r]; [congruence|].
  cbn [MoChA.row_max bind]. eexists. split; [reflexivity|]. split.
  - now rewrite !length_map.
  - intros i Hi.
    rewrite (nth_map_lt _ _ 0) by (rewrite length_map; exact Hi).
    apply clamp_min_pos. reflexivity.
Qed.

(** What [efficient_chunkwise_attention] computes, entry by entry: [s] are
    the clamped exponentials, [den] the chunkwise denominators. *)
Lemma chunkwise_entries (alpha e : list Q) (chunk_size : nat) (sf : Q) :
  (1 <= chunk_size)%nat -> length alpha = length e -> e <> [] ->
  exists s den beta,
    MoChA.softmax_exp exp e = Ok s /\
    MoChA.moving_sum s (chunk_size - 1) 0 = Ok den /\
    MoChA.efficient_chunkwise_attention exp alpha e chunk_size sf = Ok beta /\
    length s = length e /\ length den = length e /\
    length beta = length e /\
    (forall i, (i < length e)%nat -> 0 < nth i s 0) /\
    (forall j, (j < length e)%nat ->
       nth j den 0 == bigsum (back_entry s j) chunk_size /\
       0 < nth j den 0) /\
    (forall i, (i < length e)%nat ->
       nth i beta 0
       == nth i s 0
          * bigsum (fun d => if (i + d <? length e)%nat
                             then nth (i + d) alpha 0 * sf
                                  / nth (i + d) den 0
                             else 0)
              chunk_size).
Proof.
  intros Hc Hlen He.
  destruct (softmax_exp_ok e He) as (s & Hs & Ls & Ps).
  assert (Hs' : s <> []) by (intros ->; destruct e; simpl in Ls; congruence).
  destruct (moving_sum_entry s (chunk_size - 1) 0 Hs')
    as (den & Hden & Lden & Eden).
  replace (chunk_size - 1 + 0 + 1)%nat with chunk_size in Eden by lia.
  set (g := zip_with Qdiv (map (fun a => a * sf) alpha) den).
  assert (Lg : length g = length e).
  { unfold g. rewrite zip_with_length; rewrite length_map; lia. }
  assert (Hg' : g <> []) by (intros E; rewrite E in Lg; destruct e;
                             simpl in Lg; congruence).
  destruct (moving_sum_entry g 0 (chunk_size - 1) Hg')
    as (m & Hm & Lm & Em).
  replace (0 + (chunk_size - 1) + 1)%nat with chunk_size in Em by lia.
  exists s, den, (zip_with Qmult s m).
  split; [exact Hs|]. split; [exact Hden|]. split.
  { unfold MoChA.efficient_chunkwise_attention.
    rewrite Hs. cbn [bind]. rewrite Hden. cbn [bind].
    fold g. rewrite Hm. reflexivity. }
  split; [exact Ls|]. split; [lia|]. split.
  { rewrite zip_with_length; lia. }
  split; [exact Ps|]. split.
  - intros j Hj.
    assert (E : nth j den 0 == bigsum (back_entry s j) chunk_size).
    { rewrite Eden by lia. rewrite bigsum_rev.
      apply bigsum_ext. intros d Hd. unfold back_entry.
      destruct (Nat.le_gt_cases d j) as [H | H].
      - assert (E1 : (j + (chunk_size - 1 - d) <? chunk_size - 1)%nat = false)
          by (apply Nat.ltb_ge; lia).
        assert (E2 : (d <=? j)%nat = true) by (apply Nat.leb_le; lia).
        rewrite E1, E2.
        replace (j + (chunk_size - 1 - d) - (chunk_size - 1))%nat
          with (j - d)%nat by lia.
        reflexivity.
      - assert (E1 : (j + (chunk_size - 1 - d) <? chunk_size - 1)%nat = true)
          by (apply Nat.ltb_lt; lia).
        assert (E2 : (d <=? j)%nat = false) by (apply Nat.leb_gt; lia).
        now rewrite E1, E2. }
    split; [exact E|]. rewrite E.
    apply (bigsum_pos _ _ 0%nat); [|lia|].
    + intros d _. unfold back_entry.
      destruct (d <=? j)%nat; [|apply Qle_refl].
      apply Qlt_le_weak, Ps. lia.
    + unfold back_entry. cbn [Nat.leb]. rewrite Nat.sub_0_r. apply Ps, Hj.
  - intros i Hi.
    rewrite (nth_zip_with _ _ _ _ 0 0) by lia.
    rewrite (Em i) by lia.
    apply Qmult_comp; [reflexivity|].
    apply bigsum_ext. intros d _.
    change (i + d <? 0)%nat with false. cbv iota.
    rewrite Nat.sub_0_r.
    destruct (i + d <? length e)%nat eqn:E.
    + apply Nat.ltb_lt in E. unfold g.
      rewrite (nth_zip_with _ _ _ _ 0 0)
        by (rewrite ?length_map; lia).
      rewrite (nth_map_lt _ _ 0) by lia. reflexivity.
    + apply Nat.ltb_ge in E. rewrite nth_overflow by lia. reflexivity.
Qed.

End Chunkwise.

(** The sum of [beta] from its entries: the double sum over frames and
    chunk offsets, summed by the attended frame first. *)
Lemma chunk_sum_exchange (alpha s den beta : list Q) (w n : nat) (sf : Q) :
  length alpha = n -> length beta = n ->
  (forall j, (j < n)%nat ->
     nth j den 0 == bigsum (back_entry s j) w /\ 0 < nth j den 0) ->
  (forall i, (i < n)%nat ->
     nth i beta 0
     == nth i s 0
        * bigsum (fun d => if (i + d <? n)%nat
                           then nth (i + d) alpha 0 * sf / nth (i + d) den 0
                           else 0) w) ->
  Qsum beta == sf * Qsum alpha.
Proof.
  intros Hlen Lb Hden Hbeta.
  set (G := fun k => if (k <? n)%nat
                     then nth k alpha 0 * sf / nth k den 0
                     else 0).
  assert (HG : forall k, (n <= k)%nat -> G k == 0).
  { intros k Hk. unfold G.
    assert (E : (k <? n)%nat = false) by (apply Nat.ltb_ge; exact Hk).
    now rewrite E. }
  rewrite Qsum_bigsum, Lb.
  rewrite (bigsum_ext _
             (fun i => bigsum (fun d => nth i s 0 * G (i + d)%nat) w)).
  2:{ intros i Hi. rewrite (Hbeta i Hi). symmetry. apply bigsum_scale. }
  rewrite bigsum_swap.
  rewrite (bigsum_ext _
             (fun d => bigsum (fun j => back_entry s j d * G j) n)).
  2:{ intros d _. apply (bigsum_reindex (fun i => nth i s 0) G n d HG). }
  rewrite bigsum_swap.
  rewrite (bigsum_ext _ (fun j => sf * nth j alpha 0)).
  - rewrite bigsum_scale, Qsum_bigsum, Hlen. reflexivity.
  - intros j Hj.
    rewrite (bigsum_ext _ (fun d => G j * back_entry s j d))
      by (intros; apply Qmult_comm).
    rewrite bigsum_scale.
    destruct (Hden j Hj) as [Ej Pj]. rewrite <- Ej.
    unfold G. assert (E : (j <? n)%nat = true) by (apply Nat.ltb_lt; exact Hj).
    rewrite E. field. intros H0. rewrite H0 in Pj.
    exact (Qlt_irrefl _ Pj).
Qed.

Section ChunkwiseMass.

Variable exp : Q -> Q.

(** X4. [efficient_chunkwise_attention] spreads the attention of every
    frame over the chunk that ends there without changing its amount: for
    rows of the same length that are not empty and a chunk size of at
    least 1, the entries of [beta] add up to [sharpening_factor] times the
    sum of the entries of [alpha], whatever the energies are. *)
Theorem chunkwise_attention_keeps_the_mass (alpha e : list Q)
  (chunk_size : nat) (sharpening_factor : Q)
  (Hchunk : (1 <= chunk_size)%nat) (Hlen : length alpha = length e)
  (He : e <> []) :
  exists beta,
    MoChA.efficient_chunkwise_attention exp alpha e chunk_size
      sharpening_factor = Ok beta /\
    length beta = length e /\
    Qsum beta == sharpening_factor * Qsum alpha.
Proof.
  destruct (chunkwise_entries exp alpha e chunk_size sharpening_factor
              Hchunk Hlen He)
    as (s & den & beta & _ & _ & Hb & Ls & Ld & Lb & Ps & Hden & Hbeta).
  exists beta. split; [exact Hb|]. split; [exact Lb|].
  exact (chunk_sum_exchange alpha s den beta chunk_size (length e)
           sharpening_factor Hlen Lb Hden Hbeta).
Qed.

End ChunkwiseMass.

Lemma nth_one_hot (n j k : nat) :
  (j < n)%nat ->
  nth k (MoChA.one_hot n j) 0 = if (k =? j)%nat then 1 else 0.
Proof.
  intros Hj. unfold MoChA.one_hot.
  destruct (Nat.lt_ge_cases k j) as [H | H].
  - rewrite app_nth1 by (rewrite repeat_length; exact H).
    assert (E : (k =? j)%nat = false) by (apply Nat.eqb_neq; lia).
    rewrite E. apply nth_repeat.
  - rewrite app_nth2 by (rewrite repeat_length; exact H).
    rewrite repeat_length.
    destruct (k =? j)%nat eqn:E.
    + apply Nat.eqb_eq in E. subst k. now rewrite Nat.sub_diag.
    + apply Nat.eqb_neq in E.
      replace (k - j)%nat with (S (k - S j)) by lia.
      cbn [nth]. apply nth_repeat.
Qed.

Lemma length_one_hot (n j : nat) :
  (j < n)%nat -> length (MoChA.one_hot n j) = n.
Proof.
  intros Hj. unfold MoChA.one_hot.
  rewrite length_app. cbn [length]. rewrite !repeat_length. lia.
Qed.

Section ChunkwiseWindow.

Variable exp : Q -> Q.

(** X5. When [alpha] attends frame [j] alone (the row hard attention
    returns), [efficient_chunkwise_attention] returns the softmax of the
    energies over the chunk of [chunk_size] frames that ends at [j], times
    [sharpening_factor]: with [s] the clamped exponentials of the shifted
    energies, entry [i] of [beta] is
    [sharpening_factor * s[i] / (s[j - chunk_size + 1] + ... + s[j])] for
    a frame of the chunk, and zero for every other frame. *)
Theorem chunkwise_attention_of_one_frame (e : list Q) (j chunk_size : nat)
  (sharpening_factor : Q)
  (Hchunk : (1 <= chunk_size)%nat) (Hj : (j < length e)%nat) :
  exists s beta,
    MoChA.softmax_exp exp e = Ok s /\
    MoChA.efficient_chunkwise_attention exp
      (MoChA.one_hot (length e) j) e chunk_size sharpening_factor = Ok beta /\
    length beta = length e /\
    forall i, (i < length e)%nat ->
      nth i beta 0
      == if (j + 1 - chunk_size <=? i)%nat && (i <=? j)%nat
         then sharpening_factor * nth i s 0
              / window s (j - (chunk_size - 1)) j
         else 0.
Proof.
  assert (He : e <> []) by (intros ->; simpl in Hj; lia).
  destruct (chunkwise_entries exp (MoChA.one_hot (length e) j) e chunk_size
              sharpening_factor Hchunk (length_one_hot _ _ Hj) He)
    as (s & den & beta & Hs & Hd & Hb & Ls & Ld & Lb & Ps & Hden & Hbeta).
  assert (Hs' : s <> []) by (intros ->; destruct e; simpl in Ls; congruence).
  destruct (moving_sum_entry s (chunk_size - 1) 0 Hs')
    as (den' & Hd' & _ & Hw).
  rewrite Hd in Hd'. injection Hd' as <-.
  exists s, beta. split; [exact Hs|]. split; [exact Hb|].
  split; [exact Lb|].
  intros i Hi. rewrite (Hbeta i Hi).
  assert (Wj : nth j den 0 == window s (j - (chunk_size - 1)) j).
  { rewrite (Hw j) by lia. rewrite bigsum_window. now rewrite Nat.add_0_r. }
  assert (Pj : ~ nth j den 0 == 0).
  { intros H0. destruct (Hden j Hj) as [_ P]. rewrite H0 in P.
    exact (Qlt_irrefl _ P). }
  destruct ((j + 1 - chunk_size <=? i)%nat && (i <=? j)%nat) eqn:E.
  - apply andb_true_iff in E. destruct E as [E1 E2].
    apply Nat.leb_le in E1. apply Nat.leb_le in E2.
    transitivity (nth i s 0 * (1 * sharpening_factor / nth j den 0)).
    + apply Qmult_comp; [reflexivity|].
      etransitivity; [apply (bigsum_single _ chunk_size (j - i)%nat)|].
      * lia.
      * intros d Hd0 Hne. cbv beta.
        destruct (i + d <? length e)%nat; [|reflexivity].
        rewrite nth_one_hot by exact Hj.
        assert (E : (i + d =? j)%nat = false) by (apply Nat.eqb_neq; lia).
        rewrite E. unfold Qdiv. ring.
      * cbv beta. replace (i + (j - i))%nat with j by lia.
        assert (E : (j <? length e)%nat = true)
          by (apply Nat.ltb_lt; exact Hj).
        rewrite E, nth_one_hot by exact Hj. rewrite Nat.eqb_refl.
        reflexivity.
    + rewrite <- Wj. field. exact Pj.
  - rewrite bigsum_zero; [ring|].
    intros d Hd0. destruct (i + d <? length e)%nat; [|reflexivity].
    rewrite nth_one_hot by exact Hj.
    assert (E' : (i + d =? j)%nat = false).
    { apply Nat.eqb_neq. intros Heq.
      apply andb_false_iff in E. destruct E as [E | E].
      - apply Nat.leb_gt in E. lia.
      - apply Nat.leb_gt in E. lia. }
    rewrite E'. unfold Qdiv. ring.
Qed.

End ChunkwiseWindow.

(** Four frames and a chunk of two: the attention is spread, not
    changed. *)
Lemma chunkwise_attention_keeps_the_mass_witness :
  exists beta,
    MoChA.efficient_chunkwise_attention Examples.exp
      [1 # 4; 1 # 2; 1 # 4; 0] [1; 3; 2; 0] 2 1 = Ok beta /\
    length beta = 4%nat /\
    Qsum beta == 1 * Qsum [1 # 4; 1 # 2; 1 # 4; 0].
Proof.
  apply (chunkwise_attention_keeps_the_mass Examples.exp
           [1 # 4; 1 # 2; 1 # 4; 0] [1; 3; 2; 0] 2 1).
  - lia.
  - reflexivity.
  - discriminate.
Defined.

(** Hard attention on the third of four frames, with a chunk of two. *)
Lemma chunkwise_attention_of_one_frame_witness :
  exists s beta,
    MoChA.softmax_exp Examples.exp [1; 3; 2; 0] = Ok s /\
    MoChA.efficient_chunkwise_attention Examples.exp
      (MoChA.one_hot (length [1; 3; 2; 0]) 2) [1; 3; 2; 0] 2 1 = Ok beta /\
    length beta = length [1; 3; 2; 0] /\
    forall i, (i < length [1; 3; 2; 0])%nat ->
      nth i beta 0
      == if (2 + 1 - 2 <=? i)%nat && (i <=? 2)%nat
         then 1 * nth i s 0 / window s (2 - (2 - 1)) 2
         else 0.
Proof.
  apply (chunkwise_attention_of_one_frame Examples.exp [1; 3; 2; 0] 2 2 1).
  - lia.
  - simpl. lia.
Defined.

(** ** The recursive mode of monotonic attention *)

(** [alpha] of the recursive mode with the state of the loop made
    explicit: [s] is the entry of [shifted_1mp_choose_i] and [q] the entry
    of [q] the next turn of the loop reads. *)
Fixpoint carried (s q : Q) (p aw : list Q) : list Q :=
  match p, aw with
  | p0 :: p', a :: aw' =>
      let q' := s * q + a in
      (p0 * q') :: carried (1 - p0) q' p' aw'
  | _, _ => []
  end.

Lemma recursive_q_carried (p : list Q) : forall s q aw,
  zip_with Qmult p
    (MoChA.recursive_q q (s :: map (fun p => 1 - p) (removelast p)) aw)
  = carried s q p aw.
Proof.
  induction p as [|p0 p IH]; intros s q aw.
  - reflexivity.
  - destruct aw as [|a aw]; [reflexivity|].
    destruct p as [|p1 p].
    + reflexivity.
    + change (removelast (p0 :: p1 :: p)) with (p0 :: removelast (p1 :: p)).
      cbn [map MoChA.recursive_q zip_with carried].
      f_equal. apply IH.
Qed.

Lemma recursive_alpha_carried (p aw : list Q) :
  MoChA.recursive_alpha p aw = carried 1 0 p aw.
Proof. unfold MoChA.recursive_alpha. cbn [tl]. apply recursive_q_carried. Qed.

Lemma Qsum_nonneg (l : list Q) : Forall (fun a => 0 <= a) l -> 0 <= Qsum l.
Proof.
  induction 1 as [|a l Ha _ IH]; simpl; [apply Qle_refl | lra].
Qed.

Lemma carried_length (p : list Q) : forall s q aw,
  (length p <= length aw)%nat -> length (carried s q p aw) = length p.
Proof.
  induction p as [|p0 p IH]; intros s q [|a aw] H; simpl in *; try lia.
  f_equal. apply IH. lia.
Qed.

Lemma carried_mass (p : list Q) : forall s q aw,
  0 <= s -> 0 <= q ->
  Forall (fun x => 0 <= x /\ x <= 1) p -> Forall (fun a => 0 <= a) aw ->
  Forall (fun x => 0 <= x) (carried s q p aw) /\
  Qsum (carried s q p aw) <= s * q + Qsum aw.
Proof.
  induction p as [|p0 p IH]; intros s q aw Hs Hq Hp Haw.
  - split; [constructor|]. simpl.
    pose proof (Qsum_nonneg aw Haw). pose proof (Qmult_le_0_compat s q Hs Hq).
    lra.
  - destruct aw as [|a aw].
    + split; [constructor|]. simpl.
      pose proof (Qmult_le_0_compat s q Hs Hq). lra.
    + inversion Hp as [|? ? [Hp0 Hp1] Hp']; subst.
      inversion Haw as [|? ? Ha Haw']; subst.
      pose proof (Qmult_le_0_compat s q Hs Hq) as Hsq.
      assert (Hq' : 0 <= s * q + a) by lra.
      assert (Hs' : 0 <= 1 - p0) by lra.
      destruct (IH (1 - p0) (s * q + a) aw Hs' Hq' Hp' Haw') as [IH1 IH2].
      cbn [carried]. split.
      * constructor; [|exact IH1]. now apply Qmult_le_0_compat.
      * cbn [Qsum fold_right]. fold (Qsum (carried (1 - p0) (s * q + a) p aw)).
        fold (Qsum aw). lra.
Qed.

Section RecursiveMass.

Variable sigmoid : Q -> Q.

(** X6. In mode ['recursive'] attention is never created: when
    [torch.sigmoid] has its values in [[0, 1]] and the previous attention
    row has no negative entry, whatever the energies and the noise are,
    [alpha] has one entry per frame, none of them negative, and their sum
    is at most the sum of the previous attention. *)
Theorem recursive_attention_gains_no_mass (e_mono noise aw_prev : list Q)
  (Hsigmoid : forall x, 0 <= sigmoid x /\ sigmoid x <= 1)
  (Hnoise : length noise = length e_mono)
  (Hlen : (length e_mono <= length aw_prev)%nat)
  (Haw : Forall (fun a => 0 <= a) aw_prev) :
  exists alpha,
    MoChA.forward_recursive sigmoid e_mono noise aw_prev = Ok alpha /\
    length alpha = length e_mono /\
    Forall (fun a => 0 <= a) alpha /\
    Qsum alpha <= Qsum aw_prev.
Proof.
  unfold MoChA.forward_recursive, MoChA.add_gaussian_noise.
  set (p := map sigmoid (zip_with Qplus e_mono noise)).
  assert (Lp : length p = length e_mono).
  { unfold p. rewrite length_map, zip_with_length; auto. }
  assert (E : (length p <=? length aw_prev)%nat = true)
    by (apply Nat.leb_le; lia).
  rewrite E. eexists. split; [reflexivity|].
  rewrite recursive_alpha_carried. split.
  - rewrite carried_length; lia.
  - assert (Hp : Forall (fun x => 0 <= x /\ x <= 1) p).
    { unfold p. apply Forall_forall. intros x Hx.
      apply in_map_iff in Hx. destruct Hx as (y & <- & _). apply Hsigmoid. }
    destruct (carried_mass p 1 0 aw_prev) as [H1 H2];
      try assumption; try lra.
    split; [exact H1 | lra].
Qed.

End RecursiveMass.

Lemma sigmoid_unit_interval (x : Q) :
  0 <= Examples.sigmoid x /\ Examples.sigmoid x <= 1.
Proof.
  unfold Examples.sigmoid.
  assert (Ha : 0 <= Qabs x) by apply Qabs_nonneg.
  assert (Hp : 0 < 1 + Qabs x) by lra.
  assert (Hx1 : x <= Qabs x) by apply Qle_Qabs.
  assert (Hx2 : - x <= Qabs x) by (rewrite <- Qabs_opp; apply Qle_Qabs).
  assert (H1 : - (1) <= x / (1 + Qabs x)).
  { apply Qle_shift_div_l; [exact Hp | lra]. }
  assert (H2 : x / (1 + Qabs x) <= 1).
  { apply Qle_shift_div_r; [exact Hp | lra]. }
  split.
  - apply Qle_shift_div_l; [reflexivity | lra].
  - apply Qle_shift_div_r; [reflexivity | lra].
Qed.

(** Four frames, the previous attention on the second one. *)
Lemma recursive_attention_gains_no_mass_witness :
  exists alpha,
    MoChA.forward_recursive Examples.sigmoid [-1; 2; -3; 1]
      [1 # 10; - (1 # 5); 0; 3 # 10] [0; 1; 0; 0] = Ok alpha /\
    length alpha = length [-1; 2; -3; 1] /\
    Forall (fun a => 0 <= a) alpha /\
    Qsum alpha <= Qsum [0; 1; 0; 0].
Proof.
  apply (recursive_attention_gains_no_mass Examples.sigmoid [-1; 2; -3; 1]
           [1 # 10; - (1 # 5); 0; 3 # 10] [0; 1; 0; 0]
           sigmoid_unit_interval).
  - reflexivity.
  - simpl. lia.
  - repeat constructor; discriminate.
Defined.

(** ** Hard attention and the recursive rule *)

Lemma bit_complement (b : Q) : bit b -> bit (1 - b).
Proof. intros [-> | ->]; [now right | now left]. Qed.

Lemma carried_from_zero (p aw : list Q) (s : Q) :
  bit s -> carried s 0 p aw = carried 1 0 p aw.
Proof.
  intros Hs. destruct p as [|p0 p]; [reflexivity|].
  destruct aw as [|a aw]; [reflexivity|].
  destruct Hs as [-> | ->]; reflexivity.
Qed.

Lemma carried_zeros (p : list Q) : forall m,
  Forall bit p -> length p = m -> carried 1 0 p (repeat 0 m) = repeat 0 m.
Proof.
  induction p as [|p0 p IH]; intros m Hp Hm.
  - subst m. reflexivity.
  - destruct m as [|m]; [discriminate|].
    inversion Hp as [|? ? Hp0 Hp']; subst.
    cbn [repeat carried].
    change (1 * 0 + 0) with 0.
    rewrite carried_from_zero by now apply bit_complement.
    rewrite IH by (auto; simpl in Hm; lia).
    destruct Hp0 as [-> | ->]; reflexivity.
Qed.

Lemma carried_zeros_prefix (p1 : list Q) : forall i p2 aw2,
  Forall bit p1 -> length p1 = i ->
  carried 1 0 (p1 ++ p2) (repeat 0 i ++ aw2)
  = repeat 0 i ++ carried 1 0 p2 aw2.
Proof.
  induction p1 as [|p0 p1 IH]; intros i p2 aw2 Hp Hi.
  - subst i. reflexivity.
  - destruct i as [|i]; [discriminate|].
    inversion Hp as [|? ? Hp0 Hp']; subst.
    cbn [repeat app carried].
    change (1 * 0 + 0) with 0.
    rewrite carried_from_zero by now apply bit_complement.
    rewrite IH by (auto; simpl in Hi; lia).
    destruct Hp0 as [-> | ->]; reflexivity.
Qed.

(** Once the previous frame has been passed, the recursive rule on
    probabilities that are [0] or [1] keeps the first [1] and removes the
    rest, as the exclusive product of hard attention does. *)
Lemma carried_masked (p : list Q) : forall s,
  Forall bit p -> bit s ->
  carried s 1 p (repeat 0 (length p)) = masked s p.
Proof.
  induction p as [|p0 p IH]; intros s Hp Hs.
  - reflexivity.
  - inversion Hp as [|? ? Hp0 Hp']; subst.
    cbn [length repeat carried]. rewrite masked_cons.
    destruct Hs as [-> | ->].
    + change (0 * 1 + 0) with 0.
      rewrite carried_from_zero by now apply bit_complement.
      rewrite carried_zeros by auto.
      destruct Hp0 as [-> | ->].
      * change (0 * (1 - 0)) with 0.
        rewrite masked_zero by exact Hp'. reflexivity.
      * change (0 * (1 - 1)) with 0.
        rewrite masked_zero by exact Hp'. reflexivity.
    + change (1 * 1 + 0) with 1.
      rewrite IH by (auto using bit_complement).
      destruct Hp0 as [-> | ->]; reflexivity.
Qed.

Section HardIsRecursive.

Variable sigmoid : Q -> Q.

Lemma hard_alpha_split (e : list Q) (i : nat) :
  (i < length e)%nat ->
  MoChA.hard_alpha sigmoid e (MoChA.one_hot (length e) i)
  = repeat 0 i ++ masked 1 (MoChA.threshold (skipn i (map sigmoid e))).
Proof.
  intros Hi. rewrite hard_alpha_masked.
  rewrite <- (firstn_skipn i (map sigmoid e)) at 1.
  assert (L1 : length (firstn i (map sigmoid e)) = i)
    by (rewrite length_firstn, length_map; lia).
  assert (L2 : length (skipn i (map sigmoid e)) = (length e - i)%nat)
    by (rewrite length_skipn, length_map; lia).
  unfold MoChA.one_hot.
  rewrite cumsum_zero_start.
  2:{ apply Forall_app. split.
      - eapply Forall_impl; [|apply Forall_repeat_zero]. intros; now left.
      - constructor; [now right|].
        eapply Forall_impl; [|apply Forall_repeat_zero]. intros; now left. }
  rewrite cumsum_from_app by (auto using Forall_repeat_zero).
  rewrite repeat_length. simpl cumsum_from. change (0 + 1) with 1.
  rewrite threshold_app.
  rewrite zip_with_app
    by (unfold MoChA.threshold; rewrite length_map, repeat_length; exact L1).
  rewrite (gate_zeros (firstn i (map sigmoid e)) i) by exact L1.
  rewrite masked_zeros_prefix.
  destruct (skipn i (map sigmoid e)) as [|p r] eqn:Es.
  { simpl in L2. lia. }
  assert (Lr : length r = (length e - S i)%nat) by (simpl in L2; lia).
  change (zip_with Qmult (MoChA.threshold (p :: r))
            (1 :: cumsum_from 1 (repeat 0 (length e - S i))))
    with (zip_with Qmult (MoChA.threshold (p :: r))
            (cumsum_from 1 (repeat 0 (S (length e - S i))))).
  rewrite gate_ones by (simpl; lia).
  reflexivity.
Qed.

Lemma recursive_alpha_split (e : list Q) (i : nat) :
  (i < length e)%nat ->
  MoChA.recursive_alpha (MoChA.threshold (map sigmoid e))
    (MoChA.one_hot (length e) i)
  = repeat 0 i ++ masked 1 (MoChA.threshold (skipn i (map sigmoid e))).
Proof.
  intros Hi. rewrite recursive_alpha_carried.
  rewrite <- (firstn_skipn i (map sigmoid e)) at 1.
  assert (L1 : length (firstn i (map sigmoid e)) = i)
    by (rewrite length_firstn, length_map; lia).
  assert (L2 : length (skipn i (map sigmoid e)) = (length e - i)%nat)
    by (rewrite length_skipn, length_map; lia).
  rewrite threshold_app. unfold MoChA.one_hot.
  rewrite carried_zeros_prefix
    by (try apply threshold_bits;
        unfold MoChA.threshold; rewrite length_map; exact L1).
  f_equal.
  destruct (skipn i (map sigmoid e)) as [|p r] eqn:Es.
  { simpl in L2. lia. }
  assert (Lr : length r = (length e - S i)%nat) by (simpl in L2; lia).
  pose proof (threshold_bits (p :: r)) as Hb.
  change (MoChA.threshold (p :: r))
    with ((if Qle_bool (1 # 2) p then 1 else 0) :: MoChA.threshold r) in *.
  inversion Hb as [|? ? Hb0 Hb']; subst.
  cbn [carried]. rewrite masked_cons.
  change (1 * 0 + 1) with 1.
  replace (length e - S i)%nat with (length (MoChA.threshold r))
    by (unfold MoChA.threshold; rewrite length_map; exact Lr).
  rewrite carried_masked by (auto using bit_complement).
  destruct (Qle_bool (1 # 2) p); reflexivity.
Qed.

(** X7. Hard attention is the recursive rule of the training mode at
    probabilities rounded to [0] or [1]: for a previous attention row that
    is all zeros or one-hot, the branch [mode == 'hard'] returns the row
    the recurrence of the branch [mode == 'recursive'] gives for
    [p_choose_i = (sigmoid(e_mono) >= 0.5)]. *)
Theorem hard_attention_is_the_recursive_rule (e_mono aw_prev : list Q)
  (Haw : zeros_or_one_hot (length e_mono) aw_prev) :
  MoChA.hard_alpha sigmoid e_mono aw_prev
  = MoChA.recursive_alpha (MoChA.threshold (map sigmoid e_mono)) aw_prev.
Proof.
  destruct Haw as [-> | (i & Hi & ->)].
  - rewrite hard_alpha_zeros, recursive_alpha_carried.
    unfold MoChA.zeros. symmetry. apply carried_zeros.
    + apply threshold_bits.
    + unfold MoChA.threshold. now rewrite !length_map.
  - now rewrite hard_alpha_split, recursive_alpha_split.
Qed.

End HardIsRecursive.

Lemma hard_attention_is_the_recursive_rule_witness :
  MoChA.hard_alpha Examples.sigmoid [-1; 2; -3; 1] [0; 1; 0; 0]
  = MoChA.recursive_alpha
      (MoChA.threshold (map Examples.sigmoid [-1; 2; -3; 1])) [0; 1; 0; 0].
Proof.
  apply (hard_attention_is_the_recursive_rule Examples.sigmoid
           [-1; 2; -3; 1] [0; 1; 0; 0]).
  right. exists 1%nat. split; [simpl; lia | reflexivity].
Defined.

(** ** The energy layer and its cache *)

Section EnergyCache.

Variables Key Query ProjKey : Type.
Variable w_key : Key -> ProjKey.
Variable v : ProjKey -> Query -> list (list Q).

Local Abbreviation forward := (MoChA.energy_forward w_key v).

(** X8. The energy layer reads its cache until it is reset: after a first
    call on a layer that has been reset, a call with [cache=True] leaves
    the layer as it is and returns the energy of the key and the mask of
    the first call at the new query, whatever key and mask it is given;
    a call with [cache=False] does what it does on a layer that has been
    reset. *)
Theorem energy_cache_is_read_until_reset (self : MoChA.Energy ProjKey)
  (key1 key2 : Key) (query1 query2 : Query)
  (mask1 mask2 : option (list (list Z))) (cache1 : bool) :
  let self1 := fst (forward (MoChA.reset self) key1 query1 mask1 cache1) in
  forward self1 key2 query2 mask2 true
  = (self1, snd (forward (MoChA.reset self) key1 query2 mask1 cache1)) /\
  forward self1 key2 query2 mask2 false
  = forward (MoChA.reset self) key2 query2 mask2 false.
Proof.
  unfold MoChA.energy_forward, MoChA.reset. cbn. split; reflexivity.
Qed.

End EnergyCache.

(** ** Hard attention and the mask *)

Lemma nth_error_zip_with_inv {A B C : Type} (f : A -> B -> C) (l : list A) :
  forall (m : list B) (n : nat) (c : C),
  nth_error (zip_with f l m) n = Some c ->
  exists a b, nth_error l n = Some a /\ nth_error m n = Some b /\ c = f a b.
Proof.
  induction l as [|x l IH]; intros [|y m] [|n] c H; simpl in *;
    try discriminate.
  - injection H as <-. now exists x, y.
  - now apply IH.
Qed.

Lemma nth_of_nth_error {A : Type} (l : list A) (n : nat) (d : A) :
  nth n l d = match nth_error l n with Some x => x | None => d end.
Proof.
  revert n. induction l as [|x l IH]; intros [|n]; simpl; auto.
Qed.

Lemma zip_mult_zero_l (l m : list Q) (j : nat) :
  (forall a, nth_error l j = Some a -> a == 0) ->
  nth j (zip_with Qmult l m) 0 == 0.
Proof.
  intros H. rewrite nth_of_nth_error.
  destruct (nth_error (zip_with Qmult l m) j) as [c|] eqn:E; [|reflexivity].
  destruct (nth_error_zip_with_inv _ _ _ _ _ E) as (a & b & Ha & _ & ->).
  rewrite (H a Ha). ring.
Qed.

Section HardMask.

Variable sigmoid : Q -> Q.

Lemma hard_alpha_masked_entry (e aw : list Q) (j : nat) :
  sigmoid MoChA.NEG_INF < 1 # 2 ->
  (forall x, nth_error e j = Some x -> x = MoChA.NEG_INF) ->
  nth j (MoChA.hard_alpha sigmoid e aw) 0 == 0.
Proof.
  intros Hs He. unfold MoChA.hard_alpha.
  apply zip_mult_zero_l. intros a Ha.
  destruct (nth_error_zip_with_inv _ _ _ _ _ Ha) as (t & c & Ht & _ & ->).
  unfold MoChA.threshold in Ht. rewrite map_map in Ht.
  rewrite nth_error_map in Ht.
  destruct (nth_error e j) as [x|] eqn:Ex; [|discriminate].
  injection Ht as <-. rewrite (He x eq_refl).
  destruct (Qle_bool (1 # 2) (sigmoid MoChA.NEG_INF)) eqn:E.
  - apply Qle_bool_iff in E. lra.
  - ring.
Qed.

Section Layer.

Variables Key Query ProjKey : Type.
Variable w_key : Key -> ProjKey.
Variable v : ProjKey -> Query -> list (list Q).

Lemma energy_forward_mask (self : MoChA.Energy ProjKey) (key' : Key)
  (query : Query) (mask' : option (list (list Z))) (cache : bool)
  (m : list (list Z)) :
  MoChA.mask (fst (MoChA.energy_forward w_key v self key' query mask' cache))
  = Some m ->
  exists energy,
    snd (MoChA.energy_forward w_key v self key' query mask' cache)
    = MoChA.masked_fill energy m.
Proof.
  unfold MoChA.energy_forward.
  destruct (MoChA.key self) as [k|] eqn:Ek; [destruct cache|]; cbn;
    try rewrite Ek; intros ->; eexists; reflexivity.
Qed.

(** X9. A frame the mask of the energy layer rules out is never attended
    in mode ['hard']: when [torch.sigmoid] maps [NEG_INF] below one half,
    [alpha] is zero wherever the mask the layer holds after the call is
    zero. *)
Theorem masked_frame_gets_no_hard_attention
  (Hsigmoid : sigmoid MoChA.NEG_INF < 1 # 2)
  (monotonic_energy : MoChA.Energy ProjKey) (key' : Key) (query : Query)
  (mask' : option (list (list Z))) (aw_prev : option (list (list Q)))
  (cache : bool) (b j : nat) (m : list (list Z)) (mask_b : list Z)
  (Hmask :
     MoChA.mask
       (fst (MoChA.forward_hard_alpha w_key v sigmoid monotonic_energy
               key' query mask' aw_prev cache)) = Some m)
  (Hb : nth_error m b = Some mask_b)
  (Hj : nth_error mask_b j = Some 0%Z) :
  nth j
    (nth b
       (snd (MoChA.forward_hard_alpha w_key v sigmoid monotonic_energy
               key' query mask' aw_prev cache)) []) 0
  == 0.
Proof.
  unfold MoChA.forward_hard_alpha in *.
  destruct (MoChA.energy_forward w_key v monotonic_energy key' query mask'
              cache) as [self' e_mono] eqn:Ef.
  cbn [fst snd] in *.
  assert (Hm : MoChA.mask
                 (fst (MoChA.energy_forward w_key v monotonic_energy key'
                         query mask' cache)) = Some m)
    by (rewrite Ef; exact Hmask).
  destruct (energy_forward_mask _ _ _ _ _ _ Hm) as [energy He].
  rewrite Ef in He. cbn [snd] in He. subst e_mono.
  unfold MoChA.forward_hard.
  rewrite (nth_of_nth_error _ b).
  match goal with
  | |- context [nth_error (zip_with ?f ?l ?a) b] =>
      destruct (nth_error (zip_with f l a) b) as [row|] eqn:Er
  end.
  2:{ destruct j; reflexivity. }
  destruct (nth_error_zip_with_inv _ _ _ _ _ Er) as (e & aw & He & _ & ->).
  apply hard_alpha_masked_entry; [exact Hsigmoid|].
  intros x Hx. unfold MoChA.masked_fill in He.
  destruct (nth_error_zip_with_inv _ _ _ _ _ He) as (e0 & mb & _ & Hmb & ->).
  rewrite Hb in Hmb. injection Hmb as <-.
  destruct (nth_error_zip_with_inv _ _ _ _ _ Hx) as (x0 & z & _ & Hz & ->).
  rewrite Hj in Hz. injection Hz as <-. reflexivity.
Qed.

End Layer.

End HardMask.

Lemma sigmoid_NEG_INF : Examples.sigmoid MoChA.NEG_INF < 1 # 2.
Proof. vm_compute. reflexivity. Qed.

(** Three frames of which the second is masked; the layer scores it
    highest. *)
Lemma masked_frame_gets_no_hard_attention_witness :
  nth 1
    (nth 0
       (snd (MoChA.forward_hard_alpha (fun k : unit => k)
               (fun _ (_ : unit) => [[-1; 5; 2]]) Examples.sigmoid
               {| MoChA.key := None; MoChA.mask := None |}
               tt tt (Some [[1; 0; 1]%Z]) None true)) []) 0
  == 0.
Proof.
  apply (masked_frame_gets_no_hard_attention Examples.sigmoid unit unit unit
           (fun k : unit => k) (fun _ (_ : unit) => [[-1; 5; 2]])
           sigmoid_NEG_INF {| MoChA.key := None; MoChA.mask := None |}
           tt tt (Some [[1; 0; 1]%Z]) None true 0 1
           [[1; 0; 1]%Z] [1; 0; 1]%Z).
  - reflexivity.
  - reflexivity.
  - reflexivity.
Defined.

(** ** The context vector of hard attention *)

Lemma dot_bigsum (a b : list Q) :
  length a = length b ->
  MoChA.dot a b == bigsum (fun k => nth k a 0 * nth k b 0) (length a).
Proof.
  intros H. unfold MoChA.dot.
  fold (Qsum (zip_with Qmult a b)). rewrite Qsum_bigsum.
  rewrite zip_with_length by exact H.
  apply bigsum_ext. intros k Hk.
  rewrite (nth_zip_with _ _ _ _ 0 0) by lia. reflexivity.
Qed.

Lemma context_vector_length (w : list Q) (value : list (list Q)) (n : nat) :
  length (MoChA.context_vector w value n) = n.
Proof. unfold MoChA.context_vector. now rewrite length_map, length_seq. Qed.

Lemma context_vector_entry (w : list Q) (value : list (list Q)) (n d : nat) :
  (d < n)%nat -> length w = length value ->
  nth d (MoChA.context_vector w value n) 0
  == bigsum (fun k => nth k w 0 * nth d (nth k value []) 0) (length w).
Proof.
  intros Hd Hl. unfold MoChA.context_vector.
  rewrite (nth_map_lt _ (seq 0 n) 0%nat) by (rewrite length_seq; exact Hd).
  rewrite seq_nth by exact Hd. cbn [Nat.add].
  rewrite dot_bigsum by (now rewrite length_map).
  apply bigsum_ext. intros k Hk.
  rewrite (nth_map_lt _ value []) by lia. reflexivity.
Qed.

Lemma context_vector_one_hot (value : list (list Q)) (n j d : nat) :
  (d < n)%nat -> (j < length value)%nat ->
  nth d (MoChA.context_vector (MoChA.one_hot (length value) j) value n) 0
  == nth d (nth j value []) 0.
Proof.
  intros Hd Hj.
  rewrite context_vector_entry
    by (try exact Hd; now apply length_one_hot).
  rewrite length_one_hot by exact Hj.
  etransitivity; [apply (bigsum_single _ (length value) j Hj)|].
  - intros k _ Hne. cbv beta. rewrite nth_one_hot by exact Hj.
    assert (E : (k =? j)%nat = false) by (now apply Nat.eqb_neq).
    rewrite E. ring.
  - cbv beta. rewrite nth_one_hot by exact Hj. rewrite Nat.eqb_refl. ring.
Qed.

Lemma context_vector_zeros (value : list (list Q)) (n d : nat) :
  (d < n)%nat ->
  nth d (MoChA.context_vector (MoChA.zeros (length value)) value n) 0 == 0.
Proof.
  intros Hd. unfold MoChA.zeros.
  rewrite context_vector_entry
    by (try exact Hd; now rewrite repeat_length).
  apply bigsum_zero. intros k _. rewrite nth_repeat. ring.
Qed.

Section HardContextVector.

Variable sigmoid : Q -> Q.

(** Hard attention after frame [i]. *)
Lemma hard_alpha_from_frame (e_mono : list Q) (i : nat) :
  (i < length e_mono)%nat ->
  let alpha :=
    MoChA.hard_alpha sigmoid e_mono (MoChA.one_hot (length e_mono) i) in
  (exists j, attends sigmoid e_mono i j /\
             alpha = MoChA.one_hot (length e_mono) j) \/
  ((forall k, (i <= k < length e_mono)%nat ->
      ~ 1 # 2 <= sigmoid (nth k e_mono 0)) /\
   alpha = MoChA.zeros (length e_mono)).
Proof.
  intros Hi. cbv zeta.
  assert (Hz : zeros_or_one_hot (length e_mono)
                 (MoChA.one_hot (length e_mono) i))
    by (right; exists i; split; [exact Hi | reflexivity]).
  destruct (hard_alpha_row sigmoid e_mono _ Hz)
    as [[Habs _] | (i' & Hi' & Hoh & Hcase)].
  { exfalso. apply (f_equal (fun l => nth i l 0)) in Habs.
    rewrite nth_one_hot, Nat.eqb_refl in Habs by exact Hi.
    unfold MoChA.zeros in Habs. rewrite nth_repeat in Habs. discriminate. }
  assert (i' = i) as ->.
  { apply (f_equal (fun l => nth i l 0)) in Hoh.
    rewrite !nth_one_hot, Nat.eqb_refl in Hoh by assumption.
    destruct (i =? i')%nat eqn:E; [|discriminate].
    apply Nat.eqb_eq in E. congruence. }
  destruct Hcase as [(j & Hj & Ha) | (Hnone & Ha)].
  - left. exists j. auto.
  - right. auto.
Qed.

(** X10. With [chunk_size == 1] and mode ['hard'], the context vector is
    the value of one frame: for a previous attention on frame [i], it is
    the row of [value] at the first frame at or after [i] whose sigmoid
    monotonic energy is at least one half, and the zero vector when there
    is no such frame. *)
Theorem hard_context_is_one_frame (e_mono : list Q) (value : list (list Q))
  (value_dim i : nat)
  (Hvalue : length value = length e_mono) (Hi : (i < length e_mono)%nat) :
  let klen := length e_mono in
  let '(cv, alpha) :=
    MoChA.forward_hard_cv sigmoid e_mono (MoChA.one_hot klen i) value
      value_dim in
  length cv = value_dim /\
  ((exists j, attends sigmoid e_mono i j /\
              alpha = MoChA.one_hot klen j /\
              forall d, (d < value_dim)%nat ->
                nth d cv 0 == nth d (nth j value []) 0) \/
   ((forall k, (i <= k < klen)%nat ->
       ~ 1 # 2 <= sigmoid (nth k e_mono 0)) /\
    alpha = MoChA.zeros klen /\
    forall d, (d < value_dim)%nat -> nth d cv 0 == 0)).
Proof.
  cbv zeta. unfold MoChA.forward_hard_cv.
  split; [apply context_vector_length|].
  destruct (hard_alpha_from_frame e_mono i Hi)
    as [(j & Hj & ->) | (Hnone & ->)].
  - left. exists j. split; [exact Hj|]. split; [reflexivity|].
    intros d Hd. rewrite <- Hvalue.
    apply context_vector_one_hot; [exact Hd|].
    destruct Hj as [Hj _]. lia.
  - right. split; [exact Hnone|]. split; [reflexivity|].
    intros d Hd. rewrite <- Hvalue. now apply context_vector_zeros.
Qed.

End HardContextVector.

(** Four frames with values of width two; the previous attention is on
    the second frame, which is attended again. *)
Lemma hard_context_is_one_frame_witness :
  let '(cv, alpha) :=
    MoChA.forward_hard_cv Examples.sigmoid [-1; 2; -3; 1]
      (MoChA.one_hot 4 1) [[1; 2]; [3; 4]; [5; 6]; [7; 8]] 2 in
  length cv = 2%nat /\
  ((exists j, attends Examples.sigmoid [-1; 2; -3; 1] 1 j /\
              alpha = MoChA.one_hot 4 j /\
              forall d, (d < 2)%nat ->
                nth d cv 0
                == nth d (nth j [[1; 2]; [3; 4]; [5; 6]; [7; 8]] []) 0) \/
   ((forall k, (1 <= k < 4)%nat ->
       ~ 1 # 2 <= Examples.sigmoid (nth k [-1; 2; -3; 1] 0)) /\
    alpha = MoChA.zeros 4 /\
    forall d, (d < 2)%nat -> nth d cv 0 == 0)).
Proof.
  apply (hard_context_is_one_frame Examples.sigmoid [-1; 2; -3; 1]
           [[1; 2]; [3; 4]; [5; 6]; [7; 8]] 2 1).
  - reflexivity.
  - simpl. lia.
Defined.

(** ** Beam search: the shape of the hypotheses *)

Lemma last_snoc_cons {A : Type} (a x d : A) (l : list A) :
  last (a :: l ++ [x]) d = x.
Proof.
  change (a :: l ++ [x]) with ((a :: l) ++ [x]). apply last_last.
Qed.

Lemma Forall_filter {A : Type} (P : A -> Prop) (f : A -> bool) (l : list A) :
  Forall P l -> Forall P (filter f l).
Proof.
  intros H. apply Forall_forall. intros x Hx.
  apply filter_In in Hx. destruct Hx as [Hx _].
  revert x Hx. now apply Forall_forall.
Qed.

Lemma Forall_firstn {A : Type} (P : A -> Prop) (n : nat) (l : list A) :
  Forall P l -> Forall P (firstn n l).
Proof.
  intros H. apply Forall_forall. intros x Hx.
  apply in_firstn in Hx. revert x Hx. now apply Forall_forall.
Qed.

Section BeamShape.

Import TransformerDecoder.

Variables Frame LMState CTCState : Type.
Variable decoder_logits : list Frame -> list nat -> list Q.
Variable log_softmax : list Q -> list Q.

Variable self : Self LMState.
Variable params : Params.
Variable lm : option (LM LMState).
Variable ctc_prefix_score : option (CTCPrefixScore CTCState).
Variable eouts_b : list Frame.
Variable elens_b : nat.
Variable beam_width : nat.
Variable n_models : nat.
Variable oracle_len : option nat.

Local Abbreviation Hyp' := (Hyp LMState CTCState).
Local Abbreviation Loop' := (Loop LMState CTCState).

Local Abbreviation step' :=
  (step decoder_logits log_softmax self params lm ctc_prefix_score eouts_b
     elens_b beam_width n_models oracle_len).

Local Abbreviation steps' :=
  (steps decoder_logits log_softmax self params lm ctc_prefix_score eouts_b
     elens_b beam_width n_models oracle_len).

(** The tokens of a hypothesis after the start symbol. *)
Definition tokens (h : Hyp') : list nat := tl (hyp h).

(** A live hypothesis after [t] steps: the start symbol and [t] tokens,
    none of which, outside oracle mode, is the end symbol. *)
Definition live_shape (t : nat) (h : Hyp') : Prop :=
  hyp h = eos self :: tokens h /\
  length (tokens h) = t /\
  (oracle_len = None -> ~ In (eos self) (tokens h)).

(** A finished hypothesis after [t] steps: outside oracle mode its last
    token, and no other, is the end symbol; in oracle mode it has one
    token more than the reference. *)
Definition finished_shape (t : nat) (h : Hyp') : Prop :=
  hyp h = eos self :: tokens h /\
  (1 <= length (tokens h) <= t)%nat /\
  match oracle_len with
  | None => last (tokens h) 0%nat = eos self /\
            ~ In (eos self) (removelast (tokens h))
  | Some len_ref => length (tokens h) = S len_ref
  end.

(** The state of the step loop before step [t]. *)
Definition loop_shape (t : nat) (st : Loop') : Prop :=
  Forall (live_shape t) (hyps st) /\
  Forall (finished_shape t) (end_hyps st) /\
  (forall len_ref, oracle_len = Some len_ref -> (len_ref < t)%nat ->
     hyps st = []).

(** The state the step loop ends in after at most [t] steps. *)
Definition final_shape (t : nat) (st : Loop') : Prop :=
  Forall (fun h => exists t', (t' <= t)%nat /\ live_shape t' h) (hyps st) /\
  Forall (finished_shape t) (end_hyps st) /\
  (forall len_ref, oracle_len = Some len_ref -> (len_ref < t)%nat ->
     hyps st = [] \/ (beam_width <= length (end_hyps st))%nat).

Lemma finished_shape_mono (t t' : nat) (h : Hyp') :
  (t <= t')%nat -> finished_shape t h -> finished_shape t' h.
Proof.
  intros Ht (H1 & H2 & H3). split; [exact H1|]. split; [lia | exact H3].
Qed.

Lemma loop_shape_final (t : nat) (st : Loop') :
  loop_shape t st -> final_shape t st.
Proof.
  intros (H1 & H2 & H3). split; [|split; [exact H2|]].
  - eapply Forall_impl; [|exact H1]. intros h Hh. exists t. auto.
  - intros len_ref Ho Hlt. left. eauto.
Qed.

(** A hypothesis that one step creates from a live hypothesis. *)
Lemma extended_shape (t : nat) (beam h : Hyp') (idx : nat) :
  live_shape t beam -> hyp h = hyp beam ++ [idx] ->
  hyp h = eos self :: tokens h /\
  tokens h = tokens beam ++ [idx] /\
  length (tokens h) = S t /\
  last (hyp h) 0%nat = idx /\
  length (hyp h) = S (S t).
Proof.
  intros (Hb & Hl & _) Hh. unfold tokens in *.
  rewrite Hb in Hh. cbn [app] in Hh. rewrite Hh. cbn [tl].
  split; [reflexivity|]. split; [reflexivity|].
  rewrite last_snoc_cons. cbn [length]. rewrite length_app. cbn [length].
  repeat split; lia.
Qed.

Lemma complete_extended (t : nat) (beam h : Hyp') (idx : nat) :
  live_shape t beam -> hyp h = hyp beam ++ [idx] ->
  complete self oracle_len t h
  = match oracle_len with
    | Some len_ref => (t =? len_ref)%nat
    | None => (idx =? eos self)%nat
    end.
Proof.
  intros Hb Hh.
  destruct (extended_shape t beam h idx Hb Hh) as (_ & _ & _ & Hlast & Hlen).
  unfold complete. destruct oracle_len; [reflexivity|].
  rewrite Hlen, Hlast. reflexivity.
Qed.

Lemma extended_finished (t : nat) (beam h : Hyp') (idx : nat) :
  live_shape t beam -> hyp h = hyp beam ++ [idx] ->
  complete self oracle_len t h = true -> finished_shape (S t) h.
Proof.
  intros Hb Hh Hc. rewrite (complete_extended t beam h idx Hb Hh) in Hc.
  destruct (extended_shape t beam h idx Hb Hh) as (H1 & H2 & H3 & _ & _).
  split; [exact H1|]. split; [lia|].
  destruct Hb as (_ & Hl & Hno).
  destruct oracle_len as [len_ref|].
  - apply Nat.eqb_eq in Hc. lia.
  - apply Nat.eqb_eq in Hc. subst idx. rewrite H2. split.
    + apply last_last.
    + rewrite removelast_last. now apply Hno.
Qed.

Lemma extended_live (t : nat) (beam h : Hyp') (idx : nat) :
  live_shape t beam -> hyp h = hyp beam ++ [idx] ->
  complete self oracle_len t h = false -> live_shape (S t) h.
Proof.
  intros Hb Hh Hc. rewrite (complete_extended t beam h idx Hb Hh) in Hc.
  destruct (extended_shape t beam h idx Hb Hh) as (H1 & H2 & H3 & _ & _).
  split; [exact H1|]. split; [exact H3|].
  intros Ho. rewrite Ho in Hc. apply Nat.eqb_neq in Hc.
  destruct Hb as (_ & _ & Hno). rewrite H2. intros Hin.
  apply in_app_or in Hin. destruct Hin as [Hin | [Hin | []]].
  - now apply (Hno Ho).
  - congruence.
Qed.

(** One step of the loop keeps the shape. *)
Lemma step_shape (t : nat) (st st' : Loop') (brk : bool) :
  loop_shape t st -> step' t st = Ok (st', brk) ->
  (brk = false -> loop_shape (S t) st') /\
  (brk = true ->
   final_shape (S t) st' /\ (beam_width <= length (end_hyps st'))%nat).
Proof.
  intros (Hlive & Hfin & Hor) H.
  pose proof H as Hstep. apply step_ok in H.
  destruct H as (sl & ls & new & _ & Hexp & Hb & He & Hh).
  cbv zeta in Hb, He, Hh.
  set (pruned := local_pruning beam_width (concat new)) in *.
  assert (Hpr : forall h, In h pruned ->
            exists beam idx, live_shape t beam /\ hyp h = hyp beam ++ [idx]).
  { intros h Hin. unfold pruned, local_pruning in Hin.
    apply in_firstn in Hin.
    apply (Permutation_in _ (sorted_desc_perm Hyp' score _)) in Hin.
    destruct (expansions_hyp _ _ _ _ _ _ _ _ _ _ _ _ _ _ _ _ Hexp h Hin)
      as (beam & idx & Hbeam & Hidx).
    exists beam, idx. split; [|exact Hidx].
    exact (proj1 (Forall_forall _ _) Hlive beam Hbeam). }
  assert (Hdone : Forall (finished_shape (S t))
                    (end_hyps st
                     ++ filter (complete self oracle_len t) pruned)).
  { apply Forall_app. split.
    - eapply Forall_impl; [|exact Hfin].
      intros h. apply finished_shape_mono. lia.
    - apply Forall_forall. intros h Hin. apply filter_In in Hin.
      destruct Hin as [Hin Hc].
      destruct (Hpr h Hin) as (beam & idx & Hbeam & Hidx).
      eapply extended_finished; eassumption. }
  split; intros ->; cbv iota in He, Hh.
  - unfold loop_shape. rewrite He, Hh. clear He Hh.
    split; [|split; [exact Hdone|]].
    + apply Forall_forall. intros h Hin. apply filter_In in Hin.
      destruct Hin as [Hin Hc]. apply negb_true_iff in Hc.
      destruct (Hpr h Hin) as (beam & idx & Hbeam & Hidx).
      eapply extended_live; eassumption.
    + intros len_ref Ho Hlt.
      destruct (Nat.eq_dec t len_ref) as [Heq | Hne].
      * rewrite (filter_ext_in' _ (fun _ => false)); [apply filter_none|].
        intros h _. unfold complete. rewrite Ho.
        apply negb_false_iff, Nat.eqb_eq. exact Heq.
      * assert (E : hyps st = []) by (apply (Hor len_ref Ho); lia).
        destruct (filter (fun h => negb (complete self oracle_len t h))
                    pruned) as [|h r] eqn:Ef; [reflexivity|].
        assert (Hin : In h pruned).
        { assert (Hin : In h (h :: r)) by now left.
          rewrite <- Ef in Hin. apply filter_In in Hin. tauto. }
        destruct (Hpr h Hin) as (beam & idx & Hbeam & Hidx).
        unfold pruned, local_pruning in Hin. apply in_firstn in Hin.
        apply (Permutation_in _ (sorted_desc_perm Hyp' score _)) in Hin.
        destruct (expansions_hyp _ _ _ _ _ _ _ _ _ _ _ _ _ _ _ _ Hexp h Hin)
          as (beam' & _ & Hbeam' & _).
        rewrite E in Hbeam'. destruct Hbeam'.
  - unfold final_shape. rewrite He, Hh. clear He Hh.
    assert (Hlen : (beam_width
                    <= length (firstn beam_width
                                 (end_hyps st
                                  ++ filter (complete self oracle_len t)
                                       pruned)))%nat).
    { symmetry in Hb. apply Nat.leb_le in Hb. rewrite length_firstn. lia. }
    split; [|exact Hlen].
    split; [|split].
    + eapply Forall_impl; [|exact Hlive]. intros h Hl. exists t. auto.
    + now apply Forall_firstn.
    + intros len_ref _ _. right. exact Hlen.
Qed.

(** The state the step loop ends in, when no step raises. *)
Lemma steps_shape (k : nat) : forall (t : nat) (st : Loop') trace,
  loop_shape t st ->
  steps' (seq t k) st = (trace, None) ->
  final_shape (t + k) (last trace st).
Proof.
  induction k as [|k IH]; intros t st trace Hst H.
  - simpl in H. injection H as <-. rewrite Nat.add_0_r.
    now apply loop_shape_final.
  - cbn [seq steps] in H.
    destruct (step' t st) as [[st' [|]]|e] eqn:E; [| |discriminate].
    + injection H as <-. cbn [last].
      destruct (step_shape t st st' true Hst E) as [_ Hf].
      destruct (Hf eq_refl) as ((F1 & F2 & _) & Hlen).
      split; [|split].
      * eapply Forall_impl; [|exact F1].
        intros h (t' & Ht' & Hl). exists t'. split; [lia | exact Hl].
      * eapply Forall_impl; [|exact F2].
        intros h. apply finished_shape_mono. lia.
      * intros len_ref _ _. right. exact Hlen.
    + destruct (steps' (seq (S t) k) st') as [trace' e'] eqn:Es.
      injection H as <- ->.
      destruct (step_shape t st st' false Hst E) as [Hl _].
      rewrite last_cons_default.
      replace (t + S k)%nat with (S t + k)%nat by lia.
      apply (IH (S t) st' trace' (Hl eq_refl) Es).
Qed.

End BeamShape.

Lemma mapM_ok_all {A B : Type} (f : A -> result B) (l : list A) (ys : list B) :
  mapM f l = Ok ys -> forall x, In x l -> exists y, f x = Ok y.
Proof.
  revert ys. induction l as [|a r IH]; simpl; intros ys H x Hx; [destruct Hx|].
  destruct (f a) as [b|] eqn:Ea; [|discriminate].
  destruct (mapM f r) as [bs|] eqn:Er; [|discriminate].
  destruct Hx as [<- | Hx]; [eauto | eapply IH; eauto].
Qed.

Lemma mapM_length {A B : Type} (f : A -> result B) (l : list A) :
  forall ys, mapM f l = Ok ys -> length ys = length l.
Proof.
  induction l as [|a r IH]; simpl; intros ys H.
  - now injection H as <-.
  - destruct (f a) as [b|]; [|discriminate].
    destruct (mapM f r) as [bs|]; [|discriminate].
    injection H as <-. simpl. f_equal. now apply IH.
Qed.

Section Pool.

Import TransformerDecoder.

Variables LMState CTCState : Type.
Variable self : Self LMState.
Variable beam_width : nat.
Variable oracle_len : option nat.

Local Abbreviation Hyp' := (Hyp LMState CTCState).
Local Abbreviation Loop' := (Loop LMState CTCState).

(** A hypothesis the utterance may return after at most [t] steps: a
    finished one, or, outside oracle mode, a live one. *)
Definition returned_shape (t : nat) (h : Hyp') : Prop :=
  finished_shape LMState CTCState self oracle_len t h \/
  (oracle_len = None /\
   exists t', (t' <= t)%nat /\ live_shape LMState CTCState self oracle_len t' h).

Lemma global_pruning_shape (t n : nat) (st : Loop') :
  final_shape LMState CTCState self beam_width oracle_len t st ->
  (1 <= n <= beam_width)%nat ->
  (forall len_ref, oracle_len = Some len_ref -> (len_ref < t)%nat) ->
  Forall (returned_shape t) (global_pruning n st).
Proof.
  intros (Hlive & Hfin & Hor) Hn Ht.
  assert (Hdone : Forall (returned_shape t) (end_hyps st)).
  { eapply Forall_impl; [|exact Hfin]. intros h Hh. now left. }
  assert (Hcase : (exists len_ref, oracle_len = Some len_ref)
                  \/ oracle_len = None)
    by (destruct oracle_len; eauto).
  destruct Hcase as [[len_ref Eo] | Eo].
  - destruct (Hor len_ref Eo (Ht len_ref Eo)) as [E | Hfull].
    + unfold global_pruning. rewrite E.
      destruct (end_hyps st) as [|e r]; [constructor|].
      rewrite firstn_nil, app_nil_r.
      destruct ((length (e :: r) <? n)%nat && (1 <? n)%nat); exact Hdone.
    + unfold global_pruning.
      destruct (end_hyps st) as [|e r]; [simpl in Hfull; lia|].
      assert (E : (length (e :: r) <? n)%nat = false)
        by (apply Nat.ltb_ge; lia).
      rewrite E. exact Hdone.
  - assert (Hl : Forall (returned_shape t) (hyps st)).
    { eapply Forall_impl; [|exact Hlive]. intros h Hh. right.
      split; [exact Eo | exact Hh]. }
    unfold global_pruning.
    destruct (end_hyps st) as [|e r]; [exact Hl|].
    destruct ((length (e :: r) <? n)%nat && (1 <? n)%nat); [|exact Hdone].
    apply Forall_app. split; [exact Hdone|]. now apply Forall_firstn.
Qed.

Lemma returned_shape_nonempty (t : nat) (h : Hyp') :
  returned_shape t h -> hyp h <> [].
Proof.
  intros [(E & _) | (_ & t' & _ & E & _)]; rewrite E; discriminate.
Qed.

Lemma nbest_list_length (n : nat) (fin : list Hyp') (u : Utt LMState CTCState) :
  nbest_list self n fin = Ok u ->
  (n <= length fin)%nat /\
  length (utt_hyps u) = n /\ length (utt_scores u) = n /\
  length (utt_eos_flags u) = n.
Proof.
  unfold nbest_list. intros H.
  apply bind_ok in H. destruct H as (hs & Hhs & H).
  apply bind_ok in H. destruct H as (ss & Hss & H).
  apply bind_ok in H. destruct H as (fs & Hfs & H).
  injection H as <-. cbn [utt_hyps utt_scores utt_eos_flags].
  rewrite (mapM_length _ _ _ Hhs), (mapM_length _ _ _ Hss),
    (mapM_length _ _ _ Hfs), length_seq.
  split; [|auto].
  destruct (Nat.le_gt_cases n (length fin)) as [Hle | Hgt]; [exact Hle|].
  exfalso.
  destruct (mapM_ok_all _ _ _ Hss (length fin)) as (y & Hy).
  { apply in_seq. lia. }
  unfold index in Hy.
  assert (E : nth_error fin (length fin) = None)
    by (apply nth_error_None; lia).
  rewrite E in Hy. discriminate.
Qed.

End Pool.

Lemma Forall2_nth_error {A B : Type} (P : A -> B -> Prop) (l1 : list A)
  (l2 : list B) :
  Forall2 P l1 l2 ->
  forall i y, nth_error l2 i = Some y ->
  exists x, nth_error l1 i = Some x /\ P x y.
Proof.
  induction 1 as [|a b l1 l2 Hab _ IH]; intros [|i] y Hy; simpl in *;
    try discriminate.
  - injection Hy as <-. eauto.
  - now apply IH.
Qed.

Lemma zip_with_map_map {A B C D : Type} (f : B -> C -> D) (g : A -> B)
  (k : A -> C) (l : list A) :
  zip_with f (map g l) (map k l) = map (fun x => f (g x) (k x)) l.
Proof.
  induction l as [|a l IH]; simpl; [reflexivity | now rewrite IH].
Qed.

Lemma last_default {A : Type} (l : list A) (d d' : A) :
  l <> [] -> last l d = last l d'.
Proof.
  intros H. destruct (exists_last H) as (l' & x & ->). now rewrite !last_last.
Qed.

Lemma in_removelast {A : Type} (l : list A) (x : A) :
  In x (removelast l) -> In x l.
Proof.
  destruct l as [|a l]; [auto|].
  assert (H : a :: l <> []) by discriminate.
  rewrite (app_removelast_last a H) at 2.
  intros Hin. apply in_or_app. now left.
Qed.

Lemma in_tl {A : Type} (l : list A) (x : A) : In x (tl l) -> In x l.
Proof. destruct l; simpl; auto. Qed.

Section BeamOutput.

Import TransformerDecoder.

Variables Frame LMState CTCState : Type.
Variable decoder_logits : list Frame -> list nat -> list Q.
Variable log_softmax : list Q -> list Q.
Variable new_CTCPrefixScore
  : list (list Q) -> nat -> nat -> CTCPrefixScore CTCState.

Variable eouts : list (list Frame).
Variable elens : list nat.
Variable params : Params.
Variable lm : option (LM LMState).
Variables lm_2nd lm_2nd_rev : option LM2.
Variable ctc_log_probs : option (list (list (list Q))).
Variable nbest : Z.
Variable exclude_eos : bool.
Variable refs_id : option (list (list nat)).
Variable speakers : option (list string).
Variable n_ensmbl : nat.

Local Abbreviation Hyp' := (Hyp LMState CTCState).
Local Abbreviation Utt' := (Utt LMState CTCState).

Local Abbreviation call :=
  (beam_search decoder_logits log_softmax new_CTCPrefixScore eouts elens
     params lm lm_2nd lm_2nd_rev ctc_log_probs nbest exclude_eos refs_id
     speakers n_ensmbl).

Local Abbreviation utterances' :=
  (utterances decoder_logits log_softmax new_CTCPrefixScore eouts elens
     params lm lm_2nd lm_2nd_rev ctc_log_probs nbest refs_id speakers
     n_ensmbl).

Local Abbreviation decode_utterance' :=
  (decode_utterance decoder_logits log_softmax new_CTCPrefixScore eouts elens
     params lm lm_2nd lm_2nd_rev ctc_log_probs nbest refs_id speakers
     n_ensmbl).

Local Abbreviation search' :=
  (search decoder_logits log_softmax eouts elens params lm lm_2nd lm_2nd_rev
     nbest refs_id n_ensmbl).

(** The step budget of utterance [b] and, in oracle mode, the length of
    its reference. *)
Lemma ytime_of_cases (b : nat) (ytime : Z) (oracle_len : option nat) :
  ytime_of elens params refs_id b = Ok (ytime, oracle_len) ->
  (recog_oracle params = true /\
   exists refs ref, refs_id = Some refs /\ nth_error refs b = Some ref /\
                    oracle_len = Some (length ref) /\
                    Z.to_nat ytime = S (length ref)) \/
  (recog_oracle params = false /\ oracle_len = None /\
   exists elens_b, nth_error elens b = Some elens_b /\
     ytime = (Qfloor (inject_Z (Z.of_nat elens_b)
                      * recog_max_len_ratio params) + 1)%Z).
Proof.
  unfold ytime_of. destruct (recog_oracle params).
  - destruct refs_id as [refs|]; [|discriminate].
    unfold index. destruct (nth_error refs b) as [ref|] eqn:E; [|discriminate].
    cbn [bind]. intros [= <- <-]. left. split; [reflexivity|].
    exists refs, ref. repeat split; auto. lia.
  - unfold index. destruct (nth_error elens b) as [elens_b|] eqn:E;
      [|discriminate].
    cbn [bind]. intros [= <- <-]. right. split; [reflexivity|].
    split; [reflexivity|]. exists elens_b. auto.
Qed.

(** What the search of one utterance returns, without a second-pass
    language model: [nbest] hypotheses of the shape of a finished or a
    live hypothesis. *)
Lemma search_returns (self : Self LMState) (b : nat)
  (ctc : option (CTCPrefixScore CTCState)) (lmstate : option LMState)
  (u : Utt') :
  lm_2nd = None -> lm_2nd_rev = None ->
  (1 <= nbest <= recog_beam_width params)%Z ->
  search' self b ctc lmstate = Ok u ->
  exists ytime oracle_len fin,
    ytime_of elens params refs_id b = Ok (ytime, oracle_len) /\
    Forall (returned_shape LMState CTCState self oracle_len (Z.to_nat ytime))
      fin /\
    length fin = Z.to_nat nbest /\
    utt_hyps u = map (output_tokens LMState CTCState self) fin /\
    utt_eos_flags u
    = map (fun h : Hyp' => (last (hyp h) 0 =? eos self)%nat) fin.
Proof.
  intros H2 H2r Hn H. unfold search in H.
  apply bind_ok in H. destruct H as ([ytime oracle_len] & Hy & H).
  apply bind_ok in H. destruct H as ([] & _ & H).
  apply bind_ok in H. destruct H as (elens_b & _ & H).
  apply bind_ok in H. destruct H as (st & Hrun & H).
  exists ytime, oracle_len. unfold run_steps in Hrun.
  match type of Hrun with
  | match steps ?a1 ?a2 ?a3 ?a4 ?a5 ?a6 ?a7 ?a8 ?a9 ?a10 ?a11 ?ts ?s0 with
    | _ => _ end = _ =>
      destruct (steps a1 a2 a3 a4 a5 a6 a7 a8 a9 a10 a11 ts s0)
        as [trace [e|]] eqn:Es; [discriminate|]
  end.
  injection Hrun as <-.
  apply steps_shape in Es.
  2:{ split; [|split].
      - constructor; [|constructor]. split; [reflexivity|].
        split; [reflexivity|]. intros _ [].
      - constructor.
      - intros len_ref _ Hlt. lia. }
  cbn [Nat.add] in Es.
  set (st := last trace _) in *.
  set (n := Z.to_nat nbest) in *.
  assert (Hfin : finished params lm_2nd lm_2nd_rev n st
                 = sorted_desc score (global_pruning n st))
    by (rewrite H2, H2r; reflexivity).
  rewrite Hfin in H.
  assert (Hpool : Forall (returned_shape LMState CTCState self oracle_len
                            (Z.to_nat ytime)) (global_pruning n st)).
  { apply (global_pruning_shape LMState CTCState self (beam_width params)).
    - exact Es.
    - unfold n, beam_width. lia.
    - intros len_ref Ho.
      destruct (ytime_of_cases b ytime oracle_len Hy)
        as [(_ & refs & ref & _ & _ & Ho' & Hy') | (_ & Ho' & _)].
      + rewrite Ho in Ho'. injection Ho' as ->. lia.
      + congruence. }
  assert (Hsorted : Forall (returned_shape LMState CTCState self oracle_len
                              (Z.to_nat ytime))
                      (sorted_desc score (global_pruning n st))).
  { apply Forall_forall. intros h Hin.
    apply (Permutation_in _ (sorted_desc_perm Hyp' score _)) in Hin.
    exact (proj1 (Forall_forall _ _) Hpool h Hin). }
  destruct (nbest_list_length _ _ self _ _ _ H) as (Hlen & _).
  rewrite nbest_list_ok in H.
  - injection H as <-. cbn [utt_hyps utt_eos_flags].
    exists (firstn n (sorted_desc score (global_pruning n st))).
    split; [exact Hy|]. split; [now apply Forall_firstn|].
    split; [rewrite length_firstn; lia|]. split; reflexivity.
  - exact Hlen.
  - intros h Hin. eapply returned_shape_nonempty.
    exact (proj1 (Forall_forall _ _) Hsorted h Hin).
Qed.

Lemma carry_over_config (self self' : Self LMState) (b : nat)
  (lmstate : option LMState) :
  carry_over params lm speakers self b = Ok (self', lmstate) ->
  same_config LMState self self'.
Proof.
  unfold carry_over. destruct speakers as [spks|].
  - destruct (index spks b) as [spk|]; [|discriminate].
    cbn [bind]. intros [= <- _]. now repeat split.
  - intros [= <- _]. apply same_config_refl.
Qed.

Lemma decode_utterance_config (self : Self LMState) (b : nat) :
  same_config LMState self (fst (decode_utterance' self b)).
Proof.
  unfold decode_utterance.
  destruct (init_ctc new_CTCPrefixScore params ctc_log_probs self b);
    [|apply same_config_refl].
  destruct (carry_over params lm speakers self b) as [[self' l]|] eqn:E;
    [|apply same_config_refl].
  cbn [fst]. eapply carry_over_config. exact E.
Qed.

Lemma decode_utterance_search (self self' : Self LMState) (b : nat) (u : Utt') :
  decode_utterance' self b = (self', Ok u) ->
  same_config LMState self self' /\
  exists ctc lmstate, search' self b ctc lmstate = Ok u.
Proof.
  intros H. split.
  - pose proof (decode_utterance_config self b) as Hc. now rewrite H in Hc.
  - unfold decode_utterance in H.
    destruct (init_ctc new_CTCPrefixScore params ctc_log_probs self b)
      as [ctc|]; [|discriminate].
    destruct (carry_over params lm speakers self b) as [[self1 l]|] eqn:E;
      [|discriminate].
    injection H as Hself H. exists ctc, l.
    rewrite <- H. apply search_same_config.
    eapply carry_over_config. exact E.
Qed.

Lemma utterances_searches (bs : list nat) :
  forall (self self' : Self LMState) (us : list Utt'),
  utterances' bs self = (self', Ok us) ->
  same_config LMState self self' /\
  Forall2 (fun b u => exists ctc lmstate, search' self b ctc lmstate = Ok u)
    bs us.
Proof.
  induction bs as [|b bs IH]; intros self self' us H.
  - simpl in H. injection H as <- <-.
    split; [apply same_config_refl | constructor].
  - cbn [utterances] in H.
    destruct (decode_utterance' self b) as [self1 [u|e]] eqn:Ed;
      [|discriminate].
    destruct (utterances' bs self1) as [self2 [us'|e]] eqn:Eu;
      [|discriminate].
    injection H as <- <-.
    destruct (decode_utterance_search _ _ _ _ Ed) as (Hc1 & Hs).
    destruct (IH _ _ _ Eu) as (Hc2 & Hf).
    split; [eapply same_config_trans; eassumption|].
    constructor; [exact Hs|].
    eapply Forall2_impl; [|exact Hf].
    intros b' u' (ctc & l & Hb'). exists ctc, l.
    rewrite <- Hb'. now apply search_same_config.
Qed.

Lemma check_config_nbest :
  check_config params lm lm_2nd lm_2nd_rev nbest = Ok tt ->
  (1 <= nbest <= recog_beam_width params)%Z.
Proof.
  unfold check_config. intros H. apply bind_ok in H.
  destruct H as ([] & H & _). unfold assert in H.
  destruct ((1 <=? nbest)%Z && (nbest <=? recog_beam_width params)%Z) eqn:E;
    [|discriminate].
  apply andb_true_iff in E. destruct E as [E1 E2].
  apply Z.leb_le in E1. apply Z.leb_le in E2. lia.
Qed.

(** A call that returns has passed the assertions and decoded every
    utterance of the batch. *)
Lemma beam_search_ok (self self' : Self LMState)
  (hs : list (list (list nat))) (aws : list unit) (scores : list (list Q)) :
  call self = (self', Ok (hs, aws, scores)) ->
  exists self1 us,
    check_config params lm lm_2nd lm_2nd_rev nbest = Ok tt /\
    utterances' (seq 0 (length eouts)) self = (self1, Ok us) /\
    same_config LMState self self1 /\
    same_config LMState self self' /\
    us <> [] /\
    hs = map (strip_eos exclude_eos self1) us /\
    scores = map utt_scores us /\
    aws = [].
Proof.
  unfold beam_search. intros H.
  destruct (check_config params lm lm_2nd lm_2nd_rev nbest) as [[]|e] eqn:Ec;
    [|discriminate].
  destruct (utterances' (seq 0 (length eouts)) self) as [self1 [us|e]] eqn:Eu;
    [|discriminate].
  destruct (utterances_searches _ _ _ _ Eu) as (Hc & _).
  destruct (rev us) as [|u r] eqn:Er; [discriminate|].
  injection H as <- <- <- <-.
  exists self1, us. repeat split; try reflexivity; try apply Hc.
  - destruct (utt_end_hyps u); apply Hc.
  - destruct (utt_end_hyps u); apply Hc.
  - destruct (utt_end_hyps u); apply Hc.
  - intros ->. discriminate.
Qed.

End BeamOutput.

Lemma Forall2_in_r {A B : Type} (P : A -> B -> Prop) (l1 : list A)
  (l2 : list B) :
  Forall2 P l1 l2 -> forall y, In y l2 -> exists x, In x l1 /\ P x y.
Proof.
  induction 1 as [|a b l1 l2 Hab _ IH]; intros y Hy; [destruct Hy|].
  destruct Hy as [<- | Hy].
  - exists a. split; [now left | exact Hab].
  - destruct (IH y Hy) as (x & Hx & Hxy). exists x. split; [now right | auto].
Qed.

Lemma Forall2_length_eq {A B : Type} (P : A -> B -> Prop) (l1 : list A)
  (l2 : list B) : Forall2 P l1 l2 -> length l1 = length l2.
Proof. induction 1; simpl; auto. Qed.

Section ReturnedHypothesis.

Import TransformerDecoder.

Variables LMState CTCState : Type.
Variable self : Self LMState.

Local Abbreviation Hyp' := (Hyp LMState CTCState).

(** What "Exclude <eos>" does to one returned hypothesis. *)
Definition stripped (h : Hyp') : list nat :=
  let o := output_tokens LMState CTCState self h in
  if (last (hyp h) 0 =? eos self)%nat
  then (if bwd self then tl o else removelast o)
  else o.

(** A token sequence without its last token (its first token for the
    backward decoder). *)
Definition inner (o : list nat) : list nat :=
  if bwd self then tl o else removelast o.

Lemma last_hyp_tokens (h : Hyp') :
  hyp h = eos self :: tokens LMState CTCState h ->
  last (hyp h) 0%nat = last (tokens LMState CTCState h) (eos self).
Proof. intros ->. apply last_cons_default. Qed.

Lemma returned_end_symbol (t : nat) (h : Hyp') :
  returned_shape LMState CTCState self None t h ->
  ~ In (eos self) (inner (output_tokens LMState CTCState self h)) /\
  ~ In (eos self) (stripped h).
Proof.
  unfold stripped, inner, output_tokens.
  fold (tokens LMState CTCState h).
  intros [(Hh & Hlen & Hlast & Hno) | (_ & t' & _ & Hh & _ & Hno)].
  - rewrite (last_hyp_tokens h Hh).
    assert (Hne : tokens LMState CTCState h <> [])
      by (intros E; rewrite E in Hlen; simpl in Hlen; lia).
    rewrite (last_default _ (eos self) 0%nat Hne), Hlast, Nat.eqb_refl.
    assert (Hrev : ~ In (eos self)
                     (tl (rev (tokens LMState CTCState h)))).
    { rewrite (app_removelast_last 0%nat Hne) at 1.
      rewrite rev_app_distr. cbn [rev app tl].
      intros Hin. apply in_rev in Hin. exact (Hno Hin). }
    destruct (bwd self); auto.
  - specialize (Hno eq_refl).
    assert (H1 : ~ In (eos self) (tl (rev (tokens LMState CTCState h)))).
    { intros Hin. apply in_tl, in_rev in Hin. exact (Hno Hin). }
    assert (H2 : ~ In (eos self) (removelast (tokens LMState CTCState h))).
    { intros Hin. apply in_removelast in Hin. exact (Hno Hin). }
    assert (H3 : ~ In (eos self) (rev (tokens LMState CTCState h))).
    { intros Hin. apply in_rev in Hin. exact (Hno Hin). }
    destruct (bwd self); (split; [assumption|]);
      destruct (last (hyp h) 0 =? eos self)%nat; assumption.
Qed.

Lemma returned_length (oracle_len : option nat) (t : nat) (h : Hyp') :
  returned_shape LMState CTCState self oracle_len t h ->
  (length (output_tokens LMState CTCState self h) <= t)%nat /\
  (length (stripped h) <= t)%nat /\
  (forall len_ref, oracle_len = Some len_ref ->
     length (output_tokens LMState CTCState self h) = S len_ref).
Proof.
  intros Hr.
  assert (Hlen : length (output_tokens LMState CTCState self h)
                 = length (tokens LMState CTCState h)).
  { unfold output_tokens, tokens. destruct (bwd self); [|reflexivity].
    apply length_rev. }
  assert (Hs : (length (stripped h)
                <= length (output_tokens LMState CTCState self h))%nat).
  { unfold stripped. cbv zeta.
    destruct (last (hyp h) 0 =? eos self)%nat; [|lia].
    destruct (bwd self).
    - destruct (output_tokens LMState CTCState self h); simpl; lia.
    - rewrite length_removelast. lia. }
  rewrite Hlen in *.
  destruct Hr as [(_ & Hl & Ho) | (Ho & t' & Ht' & _ & Hl & _)].
  - repeat split; try lia. intros len_ref E. now rewrite E in Ho.
  - repeat split; try lia. intros len_ref E. congruence.
Qed.

End ReturnedHypothesis.

Section BeamResult.

Import TransformerDecoder.

Variables Frame LMState CTCState : Type.
Variable decoder_logits : list Frame -> list nat -> list Q.
Variable log_softmax : list Q -> list Q.
Variable new_CTCPrefixScore
  : list (list Q) -> nat -> nat -> CTCPrefixScore CTCState.

Variable eouts : list (list Frame).
Variable elens : list nat.
Variable params : Params.
Variable lm : option (LM LMState).
Variables lm_2nd lm_2nd_rev : option LM2.
Variable ctc_log_probs : option (list (list (list Q))).
Variable nbest : Z.
Variable exclude_eos : bool.
Variable refs_id : option (list (list nat)).
Variable speakers : option (list string).
Variable n_ensmbl : nat.

Local Abbreviation Hyp' := (Hyp LMState CTCState).
Local Abbreviation Utt' := (Utt LMState CTCState).

Local Abbreviation call :=
  (beam_search decoder_logits log_softmax new_CTCPrefixScore eouts elens
     params lm lm_2nd lm_2nd_rev ctc_log_probs nbest exclude_eos refs_id
     speakers n_ensmbl).

Local Abbreviation search' :=
  (search decoder_logits log_softmax eouts elens params lm lm_2nd lm_2nd_rev
     nbest refs_id n_ensmbl).

(** The hypotheses [beam_search] returns for one utterance, without a
    second-pass language model. *)
Lemma beam_search_returns (self self' : Self LMState)
  (hs : list (list (list nat))) (aws : list unit) (scores : list (list Q))
  (b : nat) (nb : list (list nat)) :
  lm_2nd = None -> lm_2nd_rev = None ->
  call self = (self', Ok (hs, aws, scores)) ->
  nth_error hs b = Some nb ->
  exists ytime oracle_len fin,
    ytime_of elens params refs_id b = Ok (ytime, oracle_len) /\
    Forall (returned_shape LMState CTCState self oracle_len (Z.to_nat ytime))
      fin /\
    nb = if exclude_eos then map (stripped LMState CTCState self) fin
         else map (output_tokens LMState CTCState self) fin.
Proof.
  intros H2 H2r H Hb.
  apply beam_search_ok in H.
  destruct H as (self1 & us & Hc & Hu & Hs1 & _ & _ & -> & _ & _).
  apply utterances_searches in Hu. destruct Hu as (_ & Hf).
  rewrite nth_error_map in Hb.
  destruct (nth_error us b) as [u|] eqn:Eu; [|discriminate].
  injection Hb as <-.
  destruct (Forall2_nth_error _ _ _ Hf b u Eu) as (b' & Hb' & ctc & l & Hsr).
  assert (b' = b) as ->.
  { assert (Hlt : (b < length (seq 0 (length eouts)))%nat)
      by (apply nth_error_Some; congruence).
    rewrite length_seq in Hlt.
    rewrite (nth_error_nth' _ 0%nat) in Hb' by (rewrite length_seq; exact Hlt).
    rewrite seq_nth in Hb' by exact Hlt. now injection Hb' as <-. }
  apply check_config_nbest in Hc.
  apply search_returns in Hsr; [|exact H2|exact H2r|exact Hc].
  destruct Hsr as (ytime & oracle_len & fin & Hy & Hsh & _ & Hh & Hfl).
  exists ytime, oracle_len, fin. split; [exact Hy|]. split; [exact Hsh|].
  unfold strip_eos. rewrite Hh, Hfl.
  destruct exclude_eos; [|reflexivity].
  rewrite zip_with_map_map. apply map_ext. intros h. unfold stripped.
  destruct Hs1 as (-> & _ & ->). reflexivity.
Qed.

(** X11. Outside oracle mode and without a second-pass language model, a
    hypothesis that [beam_search] returns holds the end symbol at most
    once, as its last token (its first token for the backward decoder);
    with [exclude_eos] it does not hold the end symbol at all. *)
Theorem beam_search_end_symbol_only_at_the_end (self self' : Self LMState)
  (hs : list (list (list nat))) (aws : list unit) (scores : list (list Q))
  (Hlm_2nd : lm_2nd = None) (Hlm_2nd_rev : lm_2nd_rev = None)
  (Horacle : recog_oracle params = false)
  (Hcall : call self = (self', Ok (hs, aws, scores))) :
  forall nb h, In nb hs -> In h nb ->
    if exclude_eos then ~ In (eos self) h
    else ~ In (eos self) (if bwd self then tl h else removelast h).
Proof.
  intros nb h Hnb Hh.
  apply In_nth_error in Hnb. destruct Hnb as [b Hb].
  destruct (beam_search_returns self self' hs aws scores b nb
              Hlm_2nd Hlm_2nd_rev Hcall Hb)
    as (ytime & oracle_len & fin & Hy & Hsh & ->).
  apply ytime_of_cases in Hy.
  destruct Hy as [(Ho & _) | (_ & -> & _)]; [congruence|].
  destruct exclude_eos; apply in_map_iff in Hh;
    destruct Hh as (x & <- & Hx);
    pose proof (proj1 (Forall_forall _ _) Hsh x Hx) as Hr;
    apply returned_end_symbol in Hr; tauto.
Qed.

(** X12. Without a second-pass language model, every hypothesis that
    [beam_search] returns for utterance [b] has at most
    [floor(elens[b] * max_len_ratio) + 1] tokens outside oracle mode, and
    at most [len(refs_id[b]) + 1] tokens in oracle mode, where it has
    exactly that many unless [exclude_eos] removes one. *)
Theorem beam_search_output_length (self self' : Self LMState)
  (hs : list (list (list nat))) (aws : list unit) (scores : list (list Q))
  (b : nat) (nb : list (list nat)) (h : list nat)
  (Hlm_2nd : lm_2nd = None) (Hlm_2nd_rev : lm_2nd_rev = None)
  (Hcall : call self = (self', Ok (hs, aws, scores)))
  (Hnb : nth_error hs b = Some nb) (Hh : In h nb) :
  (recog_oracle params = false ->
   exists elens_b,
     nth_error elens b = Some elens_b /\
     (length h
      <= Z.to_nat (Qfloor (inject_Z (Z.of_nat elens_b)
                           * recog_max_len_ratio params) + 1))%nat) /\
  (recog_oracle params = true ->
   exists refs ref,
     refs_id = Some refs /\ nth_error refs b = Some ref /\
     (length h <= S (length ref))%nat /\
     (exclude_eos = false -> length h = S (length ref))).
Proof.
  destruct (beam_search_returns self self' hs aws scores b nb
              Hlm_2nd Hlm_2nd_rev Hcall Hnb)
    as (ytime & oracle_len & fin & Hy & Hsh & ->).
  assert (Hlen : exists x,
            returned_shape LMState CTCState self oracle_len (Z.to_nat ytime) x
            /\ (h = stripped LMState CTCState self x /\ exclude_eos = true
                \/ h = output_tokens LMState CTCState self x
                   /\ exclude_eos = false)).
  { destruct exclude_eos; apply in_map_iff in Hh;
      destruct Hh as (x & <- & Hx); exists x;
      (split; [exact (proj1 (Forall_forall _ _) Hsh x Hx) | auto]). }
  destruct Hlen as (x & Hr & Hx).
  destruct (returned_length _ _ self _ _ _ Hr) as (L1 & L2 & L3).
  assert (Hle : (length h <= Z.to_nat ytime)%nat)
    by (destruct Hx as [[-> _] | [-> _]]; assumption).
  apply ytime_of_cases in Hy.
  destruct Hy as [(Ho & refs & ref & Hrefs & Href & Hol & Hyt)
                 | (Ho & Hol & elens_b & He & Hyt)].
  - split; [congruence|]. intros _. exists refs, ref.
    split; [exact Hrefs|]. split; [exact Href|]. split; [lia|].
    intros He. destruct Hx as [[_ Hx] | [-> _]]; [congruence|].
    now apply L3.
  - split; [|congruence]. intros _. exists elens_b.
    split; [exact He|]. now rewrite <- Hyt.
Qed.

(** What the search of one utterance returns has [nbest] entries. *)
Lemma search_lengths (self : Self LMState) (b : nat)
  (ctc : option (CTCPrefixScore CTCState)) (lmstate : option LMState)
  (u : Utt') :
  search' self b ctc lmstate = Ok u ->
  length (utt_hyps u) = Z.to_nat nbest /\
  length (utt_scores u) = Z.to_nat nbest /\
  length (utt_eos_flags u) = Z.to_nat nbest.
Proof.
  intros H. unfold search in H.
  apply bind_ok in H. destruct H as ([ytime oracle_len] & _ & H).
  apply bind_ok in H. destruct H as ([] & _ & H).
  apply bind_ok in H. destruct H as (elens_b & _ & H).
  apply bind_ok in H. destruct H as (st & _ & H).
  now destruct (nbest_list_length _ _ self _ _ _ H) as (_ & ? & ? & ?).
Qed.

(** A search that returns has run no step, or the batch is one
    utterance. *)
Lemma search_fits (self : Self LMState) (b : nat)
  (ctc : option (CTCPrefixScore CTCState)) (lmstate : option LMState)
  (u : Utt') :
  search' self b ctc lmstate = Ok u ->
  exists ytime oracle_len,
    ytime_of elens params refs_id b = Ok (ytime, oracle_len) /\
    ((1 <= ytime)%Z -> length eouts = 1%nat).
Proof.
  intros H. unfold search in H.
  apply bind_ok in H. destruct H as ([ytime oracle_len] & Hy & H).
  apply bind_ok in H. destruct H as ([] & Hfit & _).
  exists ytime, oracle_len. split; [exact Hy|]. intros Hle.
  unfold root_row_fits in Hfit.
  apply Z.leb_le in Hle. rewrite Hle in Hfit. cbn [andb] in Hfit.
  destruct (length eouts =? 1)%nat eqn:E; [|discriminate Hfit].
  now apply Nat.eqb_eq in E.
Qed.

(** X13. [beam_search] decodes a batch of one utterance.  When it
    returns, the batch was not empty and [nbest] lies between 1 and the
    beam width; in oracle mode, and for a [recog_max_len_ratio] that is not
    negative, the batch is exactly one utterance (on a larger batch the
    first step raises, and only a search of no step gets past it).  The
    result holds for every utterance of the batch exactly [nbest]
    hypotheses and [nbest] scores, and the list [aws] of attention weights
    is always empty. *)
Theorem beam_search_output_shape (self self' : Self LMState)
  (hs : list (list (list nat))) (aws : list unit) (scores : list (list Q))
  (Hcall : call self = (self', Ok (hs, aws, scores))) :
  eouts <> [] /\
  (1 <= nbest <= recog_beam_width params)%Z /\
  (recog_oracle params = true \/ 0 <= recog_max_len_ratio params ->
   length eouts = 1%nat) /\
  length hs = length eouts /\
  length scores = length eouts /\
  aws = [] /\
  Forall (fun nb => length nb = Z.to_nat nbest) hs /\
  Forall (fun s => length s = Z.to_nat nbest) scores.
Proof.
  apply beam_search_ok in Hcall.
  destruct Hcall as (self1 & us & Hc & Hu & _ & _ & Hne & -> & -> & ->).
  apply utterances_searches in Hu. destruct Hu as (_ & Hf).
  pose proof (Forall2_length_eq _ _ _ Hf) as Hlen. rewrite length_seq in Hlen.
  assert (Hus : Forall (fun u : Utt' =>
                          length (utt_hyps u) = Z.to_nat nbest /\
                          length (utt_scores u) = Z.to_nat nbest /\
                          length (utt_eos_flags u) = Z.to_nat nbest) us).
  { apply Forall_forall. intros u Hin.
    destruct (Forall2_in_r _ _ _ Hf u Hin) as (b & _ & ctc & l & Hs).
    eapply search_lengths. exact Hs. }
  split.
  { intros E. rewrite E in Hlen. destruct us; [congruence | discriminate]. }
  split; [exact (check_config_nbest _ _ _ _ _ _ Hc)|].
  split.
  { intros Hsteps. destruct us as [|u us']; [congruence|].
    destruct (Forall2_in_r _ _ _ Hf u (or_introl eq_refl))
      as (b & _ & ctc & l & Hs).
    apply search_fits in Hs. destruct Hs as (ytime & oracle_len & Hy & Hfit).
    apply Hfit. apply ytime_of_cases in Hy.
    destruct Hy as [(_ & refs & ref & _ & _ & _ & Hy)
                   | (Ho & _ & elens_b & _ & ->)]; [lia|].
    destruct Hsteps as [Ho' | Hratio]; [congruence|].
    assert (H0 : 0 <= inject_Z (Z.of_nat elens_b)
                      * recog_max_len_ratio params).
    { apply Qmult_le_0_compat; [|exact Hratio].
      change 0 with (inject_Z 0). rewrite <- Zle_Qle. lia. }
    apply Qfloor_resp_le in H0. change (Qfloor 0) with 0%Z in H0. lia. }
  rewrite !length_map. repeat split; auto.
  - apply Forall_map. eapply Forall_impl; [|exact Hus].
    intros u (H1 & _ & H3). unfold strip_eos.
    destruct exclude_eos; [|exact H1].
    rewrite zip_with_length; lia.
  - apply Forall_map. eapply Forall_impl; [|exact Hus].
    intros u (_ & H2 & _). exact H2.
Qed.

End BeamResult.

(** One utterance of four frames, a beam of three, the two best
    hypotheses, without the end symbol. *)
Lemma beam_search_end_symbol_only_at_the_end_witness :
  exists self' hs aws scores,
    TransformerDecoder.beam_search Examples.toy_logits
      Examples.toy_log_softmax Examples.toy_ctc
      Examples.toy_eouts Examples.toy_elens (Examples.toy_params 3)
      None None None None 2 true None None 0 Examples.toy_self
    = (self', Ok (hs, aws, scores)) /\
    forall nb h, In nb hs -> In h nb ->
      ~ In (TransformerDecoder.eos Examples.toy_self) h.
Proof.
  eexists. eexists. eexists. eexists.
  split; [vm_compute; reflexivity|].
  eapply (beam_search_end_symbol_only_at_the_end unit nat unit
           Examples.toy_logits Examples.toy_log_softmax Examples.toy_ctc
           Examples.toy_eouts Examples.toy_elens
           (Examples.toy_params 3) None None None None 2 true None None 0
           Examples.toy_self _ _ _ _ eq_refl eq_refl eq_refl).
  vm_compute. reflexivity.
Defined.

(** Oracle mode with a reference of three tokens: four tokens come
    back. *)
Lemma beam_search_output_length_witness :
  exists self' hs aws scores nb,
    TransformerDecoder.beam_search Examples.toy_logits
      Examples.toy_log_softmax Examples.toy_ctc Examples.toy_eouts
      Examples.toy_elens (Examples.toy_params_oracle 2) None None None None 2
      false (Some [[1; 3; 2]%nat]) None 0 Examples.toy_self
    = (self', Ok (hs, aws, scores)) /\
    nth_error hs 0 = Some nb /\
    In [1; 3; 2; 2]%nat nb /\
    exists refs ref,
      Some [[1; 3; 2]%nat] = Some refs /\ nth_error refs 0 = Some ref /\
      (length [1; 3; 2; 2]%nat <= S (length ref))%nat /\
      (false = false -> length [1; 3; 2; 2]%nat = S (length ref)).
Proof.
  eexists. eexists. eexists. eexists. eexists.
  split; [vm_compute; reflexivity|].
  split; [reflexivity|].
  split; [left; reflexivity|].
  eapply (beam_search_output_length unit nat unit
           Examples.toy_logits Examples.toy_log_softmax Examples.toy_ctc
           Examples.toy_eouts Examples.toy_elens
           (Examples.toy_params_oracle 2) None None None None 2 false
           (Some [[1; 3; 2]%nat]) None 0 Examples.toy_self _ _ _ _
           0%nat _ [1; 3; 2; 2]%nat eq_refl eq_refl).
  - vm_compute. reflexivity.
  - reflexivity.
  - left. reflexivity.
  - reflexivity.
Defined.

(** One utterance of four frames and [nbest = 2]. *)
Lemma beam_search_output_shape_witness :
  exists self' hs aws scores,
    TransformerDecoder.beam_search Examples.toy_logits
      Examples.toy_log_softmax Examples.toy_ctc
      Examples.toy_eouts Examples.toy_elens (Examples.toy_params 3)
      None None None None 2 true None None 0 Examples.toy_self
    = (self', Ok (hs, aws, scores)) /\
    Examples.toy_eouts <> [] /\
    (1 <= 2 <= TransformerDecoder.recog_beam_width (Examples.toy_params 3))%Z /\
    (TransformerDecoder.recog_oracle (Examples.toy_params 3) = true \/
     0 <= TransformerDecoder.recog_max_len_ratio (Examples.toy_params 3) ->
     length Examples.toy_eouts = 1%nat) /\
    length hs = length Examples.toy_eouts /\
    length scores = length Examples.toy_eouts /\
    aws = [] /\
    Forall (fun nb => length nb = Z.to_nat 2) hs /\
    Forall (fun s => length s = Z.to_nat 2) scores.
Proof.
  eexists. eexists. eexists. eexists.
  split; [vm_compute; reflexivity|].
  apply (beam_search_output_shape unit nat unit
           Examples.toy_logits Examples.toy_log_softmax Examples.toy_ctc
           Examples.toy_eouts Examples.toy_elens
           (Examples.toy_params 3) None None None None 2 true None None 0
           Examples.toy_self Examples.toy_self).
  vm_compute. reflexivity.
Defined.

(** ** Beam search: the width of the beam *)

Section BeamWidth.

Import TransformerDecoder.

Variables Frame LMState CTCState : Type.
Variable decoder_logits : list Frame -> list nat -> list Q.
Variable log_softmax : list Q -> list Q.

Variable self : Self LMState.
Variable params : Params.
Variable lm : option (LM LMState).
Variable ctc_prefix_score : option (CTCPrefixScore CTCState).
Variable eouts_b : list Frame.
Variable elens_b : nat.
Variable beam_width : nat.
Variable n_models : nat.
Variable oracle_len : option nat.

Local Abbreviation Loop' := (Loop LMState CTCState).

Local Abbreviation step' :=
  (step decoder_logits log_softmax self params lm ctc_prefix_score eouts_b
     elens_b beam_width n_models oracle_len).

Local Abbreviation steps' :=
  (steps decoder_logits log_softmax self params lm ctc_prefix_score eouts_b
     elens_b beam_width n_models oracle_len).

(** Both sets of a state hold at most [beam_width] hypotheses. *)
Definition within_width (st : Loop') : Prop :=
  (length (hyps st) <= beam_width)%nat /\
  (length (end_hyps st) <= beam_width)%nat.

Lemma filter_length_le {A : Type} (f : A -> bool) (l : list A) :
  (length (filter f l) <= length l)%nat.
Proof.
  induction l as [|a l IH]; simpl; [lia|]. destruct (f a); simpl; lia.
Qed.

Lemma step_within_width (t : nat) (st st' : Loop') (brk : bool) :
  (length (hyps st) <= beam_width)%nat ->
  step' t st = Ok (st', brk) -> within_width st'.
Proof.
  intros Hw H. pose proof H as H'. apply step_ok in H.
  destruct H as (sl & ls & new & _ & _ & _ & _ & Hh).
  cbv zeta in Hh. split.
  - rewrite Hh. destruct brk; [exact Hw|].
    etransitivity; [apply filter_length_le|].
    unfold local_pruning. rewrite length_firstn. lia.
  - destruct brk.
    + apply step_break in H'. lia.
    + apply step_continue in H'. lia.
Qed.

(** X14. The beam never outgrows its width: from a live beam of at most
    [beam_width] hypotheses, every state the step loop reaches holds at
    most [beam_width] live and at most [beam_width] finished
    hypotheses. *)
Theorem beam_stays_within_width (ts : list nat) (st : Loop')
  (Hstart : (length (hyps st) <= beam_width)%nat) :
  Forall within_width (fst (steps' ts st)).
Proof.
  revert st Hstart. induction ts as [|t ts IH]; intros st Hstart.
  - constructor.
  - cbn [steps]. destruct (step' t st) as [[st' [|]]|e] eqn:E.
    + repeat constructor; eapply step_within_width; eassumption.
    + pose proof (step_within_width t st st' false Hstart E) as Hw.
      specialize (IH st' (proj1 Hw)).
      destruct (steps' ts st') as [trace e']. cbn [fst] in *.
      constructor; assumption.
    + constructor.
Qed.

End BeamWidth.

(** A beam of two from the root hypothesis, four steps. *)
Lemma beam_stays_within_width_witness :
  Forall (within_width nat unit 2)
    (fst (TransformerDecoder.steps Examples.toy_logits
            Examples.toy_log_softmax Examples.toy_self (Examples.toy_params 2)
            None None [tt; tt; tt; tt] 4 2 1 None [0; 1; 2; 3]%nat
            Examples.toy_start)).
Proof.
  apply (beam_stays_within_width unit nat unit Examples.toy_logits
           Examples.toy_log_softmax Examples.toy_self (Examples.toy_params 2)
           None None [tt; tt; tt; tt] 4 2 1 None [0; 1; 2; 3]%nat
           Examples.toy_start).
  simpl. lia.
Defined.

(** ** Beam search: the decoder object and the batch *)

Section BeamObject.

Import TransformerDecoder.

Variables Frame LMState CTCState : Type.
Variable decoder_logits : list Frame -> list nat -> list Q.
Variable log_softmax : list Q -> list Q.
Variable new_CTCPrefixScore
  : list (list Q) -> nat -> nat -> CTCPrefixScore CTCState.

Variable eouts : list (list Frame).
Variable elens : list nat.
Variable params : Params.
Variable lm : option (LM LMState).
Variables lm_2nd lm_2nd_rev : option LM2.
Variable ctc_log_probs : option (list (list (list Q))).
Variable nbest : Z.
Variable exclude_eos : bool.
Variable refs_id : option (list (list nat)).
Variable speakers : option (list string).
Variable n_ensmbl : nat.

Local Abbreviation Utt' := (Utt LMState CTCState).

Local Abbreviation call :=
  (beam_search decoder_logits log_softmax new_CTCPrefixScore eouts elens
     params lm lm_2nd lm_2nd_rev ctc_log_probs nbest exclude_eos refs_id
     speakers n_ensmbl).

Local Abbreviation utterances' :=
  (utterances decoder_logits log_softmax new_CTCPrefixScore eouts elens
     params lm lm_2nd lm_2nd_rev ctc_log_probs nbest refs_id speakers
     n_ensmbl).

Local Abbreviation decode_utterance' :=
  (decode_utterance decoder_logits log_softmax new_CTCPrefixScore eouts elens
     params lm lm_2nd lm_2nd_rev ctc_log_probs nbest refs_id speakers
     n_ensmbl).

(** What one utterance does to the decoder object. *)
Lemma decode_utterance_object (self : Self LMState) (b : nat) :
  let self' := fst (decode_utterance' self b) in
  same_config LMState self self' /\
  lmstate_final self' = lmstate_final self /\
  (speakers = None -> prev_spk self' = prev_spk self) /\
  (forall spks u, speakers = Some spks ->
     snd (decode_utterance' self b) = Ok u ->
     nth_error spks b = Some (prev_spk self')).
Proof.
  cbv zeta. unfold decode_utterance, carry_over.
  destruct (init_ctc new_CTCPrefixScore params ctc_log_probs self b).
  2:{ cbn [fst snd]. split; [apply same_config_refl|].
      repeat split; auto; discriminate. }
  destruct speakers as [spks|].
  - unfold index. destruct (nth_error spks b) as [spk|] eqn:E; cbn [bind fst snd].
    + split; [now repeat split|]. split; [reflexivity|].
      split; [discriminate|]. intros spks' u [= <-] _. exact E.
    + split; [apply same_config_refl|]. repeat split; auto; discriminate.
  - cbn [fst snd]. split; [apply same_config_refl|].
    repeat split; auto; discriminate.
Qed.

Lemma utterances_object (bs : list nat) : forall self : Self LMState,
  let self' := fst (utterances' bs self) in
  same_config LMState self self' /\
  lmstate_final self' = lmstate_final self /\
  (speakers = None -> prev_spk self' = prev_spk self) /\
  (forall spks us, speakers = Some spks -> bs <> [] ->
     snd (utterances' bs self) = Ok us ->
     nth_error spks (last bs 0%nat) = Some (prev_spk self')).
Proof.
  induction bs as [|b bs IH]; intros self; cbv zeta.
  - cbn. split; [apply same_config_refl|]. repeat split; auto. congruence.
  - cbn [utterances].
    pose proof (decode_utterance_object self b) as Hd. cbv zeta in Hd.
    destruct (decode_utterance' self b) as [self1 [u|e]]; cbn [fst snd] in *.
    2:{ destruct Hd as (H1 & H2 & H3 & _).
        repeat split; try apply H1; auto; discriminate. }
    specialize (IH self1). cbv zeta in IH.
    destruct (utterances' bs self1) as [self2 [us|e]] eqn:Eu;
      cbn [fst snd] in *.
    + destruct Hd as (H1 & H2 & H3 & H4). destruct IH as (I1 & I2 & I3 & I4).
      split; [eapply same_config_trans; eassumption|].
      split; [congruence|]. split.
      * intros Hs. rewrite I3, H3 by exact Hs. reflexivity.
      * intros spks us' Hs _ _.
        destruct bs as [|b' bs].
        -- cbn in Eu. injection Eu as <- _. cbn [last].
           eapply H4; [exact Hs | reflexivity].
        -- rewrite last_cons_default.
           rewrite (last_default (b' :: bs) b 0%nat) by discriminate.
           eapply I4; [exact Hs | discriminate | reflexivity].
    + destruct Hd as (H1 & H2 & H3 & _). destruct IH as (I1 & I2 & I3 & _).
      split; [eapply same_config_trans; eassumption|].
      split; [congruence|]. split.
      * intros Hs. rewrite I3, H3 by exact Hs. reflexivity.
      * discriminate.
Qed.

(** X15. [beam_search] writes nothing but [prev_spk] and [lmstate_final]:
    however the call ends, the end symbol, the blank symbol and the
    direction of the decoder object are those of before; without
    [speakers] the field [prev_spk] keeps its value, and after a call with
    [speakers] that returns, [prev_spk] is the speaker of the last
    utterance of the batch. *)
Theorem beam_search_decoder_object (self : Self LMState) :
  let self' := fst (call self) in
  same_config LMState self self' /\
  (speakers = None -> prev_spk self' = prev_spk self) /\
  (forall spks out, speakers = Some spks -> snd (call self) = Ok out ->
     nth_error spks (length eouts - 1) = Some (prev_spk self')).
Proof.
  cbv zeta. unfold beam_search.
  destruct (check_config params lm lm_2nd lm_2nd_rev nbest) as [[]|e].
  2:{ cbn [fst snd]. split; [apply same_config_refl|].
      split; [reflexivity | discriminate]. }
  pose proof (utterances_object (seq 0 (length eouts)) self) as Hu.
  cbv zeta in Hu.
  destruct (utterances' (seq 0 (length eouts)) self) as [self1 [us|e]] eqn:Eu;
    cbn [fst snd] in *.
  2:{ destruct Hu as (H1 & _ & H3 & _). split; [exact H1|].
      split; [exact H3 | discriminate]. }
  destruct Hu as (H1 & _ & H3 & H4).
  apply utterances_searches in Eu. destruct Eu as (_ & Hf).
  apply Forall2_length_eq in Hf. rewrite length_seq in Hf.
  destruct (rev us) as [|u r] eqn:Er; cbn [fst snd].
  { split; [exact H1|]. split; [exact H3 | discriminate]. }
  assert (Hp : prev_spk
                 match utt_end_hyps u with
                 | [] => self1
                 | h :: _ => set_lmstate_final self1 (lmstate h)
                 end = prev_spk self1)
    by (destruct (utt_end_hyps u); reflexivity).
  assert (Hc : same_config LMState self
                 match utt_end_hyps u with
                 | [] => self1
                 | h :: _ => set_lmstate_final self1 (lmstate h)
                 end)
    by (destruct (utt_end_hyps u); apply H1).
  split; [exact Hc|]. rewrite Hp. split; [exact H3|].
  intros spks out Hs _.
  assert (Hne : eouts <> []).
  { intros E. rewrite E in Hf. destruct us; [discriminate Er | discriminate Hf]. }
  assert (Hlast : last (seq 0 (length eouts)) 0%nat = (length eouts - 1)%nat).
  { destruct eouts as [|x l]; [congruence|]. cbn [length].
    rewrite seq_S, last_last. cbn. lia. }
  rewrite <- Hlast. apply (H4 spks us Hs); [|reflexivity].
  destruct eouts; [congruence | discriminate].
Qed.

(** X16. On an empty batch [beam_search] raises: once the assertions on
    the configuration have passed, no utterance binds [end_hyps], and the
    statement that stores the state of the language model reads it. The
    decoder object is left as it was. *)
Theorem beam_search_empty_batch_raises (self : Self LMState)
  (Hbatch : eouts = [])
  (Hconfig : check_config params lm lm_2nd lm_2nd_rev nbest = Ok tt) :
  call self = (self, Raise UnboundLocalError).
Proof.
  unfold beam_search. rewrite Hconfig, Hbatch. reflexivity.
Qed.

End BeamObject.

Lemma beam_search_empty_batch_raises_witness :
  TransformerDecoder.beam_search Examples.toy_logits Examples.toy_log_softmax
    Examples.toy_ctc [] [] (Examples.toy_params 1) None None None None 1
    false None None 0 Examples.toy_self
  = (Examples.toy_self, Raise UnboundLocalError).
Proof.
  apply (beam_search_empty_batch_raises unit nat unit Examples.toy_logits
           Examples.toy_log_softmax Examples.toy_ctc [] []
           (Examples.toy_params 1) None None None None 1 false None None 0
           Examples.toy_self).
  - reflexivity.
  - reflexivity.
Defined.

(** ** Beam search: a beam wider than the vocabulary *)

Section WideBeam.

Import TransformerDecoder.

Variables Frame LMState CTCState : Type.
Variable decoder_logits : list Frame -> list nat -> list Q.
Variable log_softmax : list Q -> list Q.
Variable new_CTCPrefixScore
  : list (list Q) -> nat -> nat -> CTCPrefixScore CTCState.

Variable eouts : list (list Frame).
Variable elens : list nat.
Variable params : Params.
Variable lm : option (LM LMState).
Variables lm_2nd lm_2nd_rev : option LM2.
Variable nbest : Z.
Variable exclude_eos : bool.
Variable refs_id : option (list (list nat)).
Variable n_ensmbl : nat.

Local Abbreviation call :=
  (beam_search decoder_logits log_softmax new_CTCPrefixScore eouts elens
     params lm lm_2nd lm_2nd_rev None nbest exclude_eos refs_id None
     n_ensmbl).

Lemma topk_too_wide (k : nat) (row : list Q) :
  (length row < k)%nat -> topk k row = Raise RuntimeError.
Proof.
  intros H. unfold topk.
  assert (E : (k <=? length row)%nat = false) by (apply Nat.leb_gt; exact H).
  now rewrite E.
Qed.

(** X17. A beam wider than the vocabulary is a runtime error: without CTC
    log-probabilities and speakers, when the configuration passes the
    assertions, the first utterance has a step budget of at least one step
    and the decoder scores fewer than [recog_beam_width] tokens, the first
    [torch.topk] raises, nothing is decoded and the decoder object is left
    as it was.  (On a batch of several utterances the same error has been
    raised before, by the first assignment of the step.) *)
Theorem beam_wider_than_vocabulary_raises (self : Self LMState)
  (eouts_0 : list Frame) (elens_0 : nat) (ytime : Z) (oracle_len : option nat)
  (Hconfig : check_config params lm lm_2nd lm_2nd_rev nbest = Ok tt)
  (Hbatch : nth_error eouts 0 = Some eouts_0)
  (Helens : nth_error elens 0 = Some elens_0)
  (Hytime : ytime_of elens params refs_id 0 = Ok (ytime, oracle_len))
  (Hbudget : (1 <= ytime)%Z)
  (Hvocab :
     (length (scores_attn_row decoder_logits log_softmax params
                (firstn elens_0 eouts_0) (n_ensmbl + 1) [eos self])
      < Z.to_nat (recog_beam_width params))%nat) :
  call self = (self, Raise RuntimeError).
Proof.
  unfold beam_search. rewrite Hconfig.
  destruct eouts as [|e0 rest]; [discriminate|].
  injection Hbatch as ->.
  cbn [length seq utterances].
  assert (Hd : decode_utterance decoder_logits log_softmax new_CTCPrefixScore
                 (eouts_0 :: rest) elens params lm lm_2nd lm_2nd_rev None
                 nbest refs_id None n_ensmbl self 0
               = (self, Raise RuntimeError)).
  { unfold decode_utterance, init_ctc, carry_over. f_equal.
    unfold search. rewrite Hytime. cbn [bind].
    unfold root_row_fits.
    assert (Hle : (1 <=? ytime)%Z = true) by (apply Z.leb_le; exact Hbudget).
    rewrite Hle. cbn [andb].
    destruct rest as [|e1 rest]; [|reflexivity].
    cbn [length Nat.eqb negb bind].
    unfold index. rewrite Helens. cbn [bind nth].
    unfold run_steps.
    destruct (Z.to_nat ytime) as [|k] eqn:Ek; [lia|].
    cbn [seq steps]. unfold step at 1.
    assert (Hcat : cat_lmstate lm (root self None None)
                     [root self None None : Hyp LMState CTCState]
                   = Ok None).
    { unfold cat_lmstate. cbn [root lmstate]. now destruct lm. }
    cbn [hyps last]. rewrite Hcat. cbn [bind].
    destruct (match lm with
              | Some m =>
                  let '(lmstate, scores_lm) :=
                    lm_predict m
                      (map (fun h : Hyp LMState CTCState => last (hyp h) 0%nat)
                         [root self None None]) None in
                  (lmstate, Some scores_lm)
              | None => (None, None)
              end) as [lmstate scores_lm].
    cbn [length seq combine mapM].
    unfold expand at 1, scored_candidates at 1, coarse_topk at 1.
    rewrite topk_too_wide; [reflexivity|].
    unfold total_scores, total_scores_attn. rewrite !length_map.
    unfold n_models, beam_width. cbn [root hyp]. exact Hvocab. }
  rewrite Hd. reflexivity.
Qed.

End WideBeam.

(** A vocabulary of four tokens and a beam of five. *)
Lemma beam_wider_than_vocabulary_raises_witness :
  TransformerDecoder.beam_search Examples.toy_logits Examples.toy_log_softmax
    Examples.toy_ctc Examples.toy_eouts Examples.toy_elens
    (Examples.toy_params 5) None None None None 1 false None None 0
    Examples.toy_self
  = (Examples.toy_self, Raise RuntimeError).
Proof.
  apply (beam_wider_than_vocabulary_raises unit nat unit Examples.toy_logits
           Examples.toy_log_softmax Examples.toy_ctc Examples.toy_eouts
           Examples.toy_elens (Examples.toy_params 5) None None None 1 false
           None 0 Examples.toy_self [tt; tt; tt; tt] 4%nat 5%Z None).
  - reflexivity.
  - reflexivity.
  - reflexivity.
  - reflexivity.
  - lia.
  - vm_compute. lia.
Defined.

(** ** Beam search: a batch of several utterances *)

Section SeveralUtterances.

Import TransformerDecoder.

Variables Frame LMState CTCState : Type.
Variable decoder_logits : list Frame -> list nat -> list Q.
Variable log_softmax : list Q -> list Q.
Variable new_CTCPrefixScore
  : list (list Q) -> nat -> nat -> CTCPrefixScore CTCState.

Variable eouts : list (list Frame).
Variable elens : list nat.
Variable params : Params.
Variable lm : option (LM LMState).
Variables lm_2nd lm_2nd_rev : option LM2.
Variable ctc_log_probs : option (list (list (list Q))).
Variable nbest : Z.
Variable exclude_eos : bool.
Variable refs_id : option (list (list nat)).
Variable speakers : option (list string).
Variable n_ensmbl : nat.

Local Abbreviation call :=
  (beam_search decoder_logits log_softmax new_CTCPrefixScore eouts elens
     params lm lm_2nd lm_2nd_rev ctc_log_probs nbest exclude_eos refs_id
     speakers n_ensmbl).


End SeveralUtterances.


(** ** Greedy decoding: the shape of the output *)

Lemma in_zip_with {A B C : Type} (f : A -> B -> C) (l : list A) :
  forall (m : list B) (x : C) (a : A) (b : B),
  In x (zip_with f l m) ->
  exists i, (i < length l)%nat /\ (i < length m)%nat /\
            x = f (nth i l a) (nth i m b).
Proof.
  induction l as [|y l IH]; intros [|z m] x a b H; simpl in H;
    try contradiction.
  destruct H as [<- | H].
  - exists 0%nat. simpl. repeat split; lia.
  - destruct (IH m x a b H) as (i & H1 & H2 & H3).
    exists (S i). simpl. repeat split; try lia. exact H3.
Qed.

Lemma zip_with_length_min {A B C : Type} (f : A -> B -> C) (l : list A) :
  forall m : list B,
  length (zip_with f l m) = Nat.min (length l) (length m).
Proof.
  induction l as [|a l IH]; intros [|b m]; simpl; auto.
Qed.

Section GreedyShape.

Import TransformerDecoder.

Variables Frame LMState : Type.
Variable decoder_logits : list Frame -> list nat -> list Q.
Variable self : Self LMState.
Variable eouts : list (list Frame).
Variable max_len_ratio : Q.
Variable exclude_eos : bool.
Variable oracle : bool.
Variable refs_id : option (list (list nat)).

Local Abbreviation bs := (length eouts).

Local Abbreviation greedy_step' :=
  (greedy_step decoder_logits self eouts oracle refs_id).

Local Abbreviation greedy_steps' :=
  (greedy_steps decoder_logits self eouts oracle refs_id).

(** The tokens utterance [b] has been given so far. *)
Definition column (b : nat) (hyps_batch : list (list nat)) : list nat :=
  map (fun y => nth b y 0%nat) hyps_batch.

(** The length and the flag of one utterance against its tokens: the
    length counts the tokens up to the first end symbol, which the flag
    reports. *)
Definition row_shape (col : list nat) (ylen : nat) (flag : bool) : Prop :=
  (ylen <= length col)%nat /\
  ~ In (eos self) (firstn (ylen - 1) col) /\
  if flag then (1 <= ylen)%nat /\ nth (ylen - 1) col 0%nat = eos self
  else ylen = length col /\ ~ In (eos self) col.

Definition batch_shape (st : Greedy) : Prop :=
  length (y_seq st) = bs /\
  length (ylens st) = bs /\
  length (eos_flags st) = bs /\
  forall b, (b < bs)%nat ->
    row_shape (column b (hyps_batch st)) (nth b (ylens st) 0%nat)
      (nth b (eos_flags st) false).

(** In oracle mode, no reference of the batch is shorter than [t]. *)
Definition references_reach (t : nat) : Prop :=
  oracle = true ->
  forall refs b, refs_id = Some refs -> (b < bs)%nat ->
    (t <= length (nth b refs []))%nat.

(** The state before step [t], and the state the loop ends in after at
    most [t] steps. *)
Definition greedy_shape (t : nat) (st : Greedy) : Prop :=
  batch_shape st /\ length (hyps_batch st) = t /\ references_reach t.

Definition greedy_final (t : nat) (st : Greedy) : Prop :=
  batch_shape st /\ (length (hyps_batch st) <= t)%nat /\
  references_reach (length (hyps_batch st) - 1).

Lemma row_shape_step (col : list nat) (ylen : nat) (flag : bool) (y : nat) :
  row_shape col ylen flag ->
  row_shape (col ++ [y]) (if flag then ylen else S ylen)
    (flag || (y =? eos self)%nat).
Proof.
  intros (H1 & H2 & H3). destruct flag.
  - destruct H3 as [H3 H4]. cbn [orb]. unfold row_shape.
    rewrite length_app. cbn [length]. split; [lia|]. split.
    + rewrite firstn_app. replace (ylen - 1 - length col)%nat with 0%nat by lia.
      cbn [firstn]. now rewrite app_nil_r.
    + split; [exact H3|]. rewrite app_nth1 by lia. exact H4.
  - destruct H3 as [-> H4]. cbn [orb]. unfold row_shape.
    rewrite length_app. cbn [length]. split; [lia|].
    replace (S (length col) - 1)%nat with (length col) by lia.
    split.
    + rewrite firstn_app, firstn_all, Nat.sub_diag. cbn [firstn].
      now rewrite app_nil_r.
    + destruct (y =? eos self)%nat eqn:E.
      * split; [lia|]. rewrite nth_middle. now apply Nat.eqb_eq.
      * split; [lia|]. intros Hin. apply in_app_or in Hin.
        destruct Hin as [Hin | [Hin | []]]; [now apply H4|].
        apply Nat.eqb_neq in E. congruence.
Qed.

Lemma greedy_step_shape (ytime : Z) (t : nat) (st st' : Greedy) (brk : bool) :
  greedy_shape t st -> greedy_step' ytime t st = Ok (st', brk) ->
  (brk = false -> greedy_shape (S t) st') /\
  (brk = true -> greedy_final (S t) st').
Proof.
  intros ((Ly & Ll & Lf & Hrows) & Lt & Href) H.
  unfold greedy_step in H.
  apply bind_ok in H. destruct H as (y & Hy & H).
  assert (Lyy : length y = bs).
  { rewrite (mapM_length _ _ _ Hy), length_combine. lia. }
  set (flags' := zip_with (fun (flag : bool) yb => flag || (yb =? eos self)%nat)
                   (eos_flags st) y) in *.
  set (ylens' := zip_with (fun (flag : bool) n => if flag then n else S n)
                   (eos_flags st) (ylens st)) in *.
  assert (Hcore : forall ys,
            length ys = bs ->
            batch_shape {| y_seq := ys; hyps_batch := hyps_batch st ++ [y];
                           ylens := ylens'; eos_flags := flags' |}).
  { intros ys Lys. unfold batch_shape. cbn [y_seq ylens eos_flags hyps_batch].
    split; [exact Lys|].
    split; [unfold ylens'; rewrite zip_with_length_min; lia|].
    split; [unfold flags'; rewrite zip_with_length_min; lia|].
    intros b Hb. unfold column. rewrite map_app. cbn [map].
    unfold ylens', flags'.
    rewrite (nth_zip_with _ _ _ _ false 0%nat) by lia.
    rewrite (nth_zip_with _ _ _ _ false 0%nat) by lia.
    apply row_shape_step. now apply Hrows. }
  destruct (forallb (fun flag : bool => flag) flags').
  { injection H as <- <-. split; [discriminate|]. intros _.
    split; [apply Hcore, Ly|]. cbn [hyps_batch].
    rewrite length_app. cbn [length]. split; [lia|].
    replace (length (hyps_batch st) + 1 - 1)%nat with t by lia. exact Href. }
  destruct (Z.of_nat t =? ytime - 1)%Z.
  { injection H as <- <-. split; [discriminate|]. intros _.
    split; [apply Hcore, Ly|]. cbn [hyps_batch].
    rewrite length_app. cbn [length]. split; [lia|].
    replace (length (hyps_batch st) + 1 - 1)%nat with t by lia. exact Href. }
  apply bind_ok in H. destruct H as (y' & Hy' & H).
  injection H as <- <-. split; [|discriminate]. intros _.
  assert (Ly' : length y' = bs).
  { destruct oracle.
    - destruct refs_id as [refs|]; [|discriminate].
      rewrite (mapM_length _ _ _ Hy'), length_seq. reflexivity.
    - injection Hy' as <-. exact Lyy. }
  split; [|split].
  - apply Hcore. rewrite zip_with_length_min. lia.
  - cbn [hyps_batch]. rewrite length_app. cbn [length]. lia.
  - intros Ho refs b Hrefs Hb. rewrite Ho, Hrefs in Hy'.
    destruct (mapM_ok_all _ _ _ Hy' b) as (x & Hx).
    { apply in_seq. lia. }
    apply bind_ok in Hx. destruct Hx as (ref & Hr & Hx).
    unfold index in Hr, Hx.
    destruct (nth_error refs b) as [ref'|] eqn:E1; [|discriminate].
    injection Hr as ->.
    rewrite (nth_error_nth _ _ _ E1).
    destruct (nth_error ref t) as [z|] eqn:E2; [|discriminate].
    assert (t < length ref)%nat by (apply nth_error_Some; congruence). lia.
Qed.

Lemma greedy_shape_final (t : nat) (st : Greedy) :
  greedy_shape t st -> greedy_final t st.
Proof.
  intros (H1 & H2 & H3). split; [exact H1|]. split; [lia|].
  intros Ho refs b Hr Hb. specialize (H3 Ho refs b Hr Hb). lia.
Qed.

Lemma greedy_steps_shape (ytime : Z) (k : nat) : forall t st st',
  greedy_shape t st -> greedy_steps' ytime (seq t k) st = Ok st' ->
  greedy_final (t + k) st'.
Proof.
  induction k as [|k IH]; intros t st st' Hst H.
  - cbn in H. injection H as <-. rewrite Nat.add_0_r.
    now apply greedy_shape_final.
  - cbn [seq greedy_steps] in H.
    destruct (greedy_step' ytime t st) as [[st1 [|]]|e] eqn:E; [| |discriminate].
    + injection H as <-.
      destruct (greedy_step_shape ytime t st st1 true Hst E) as [_ Hf].
      destruct (Hf eq_refl) as (F1 & F2 & F3).
      split; [exact F1|]. split; [lia | exact F3].
    + destruct (greedy_step_shape ytime t st st1 false Hst E) as [Hs _].
      replace (t + S k)%nat with (S t + k)%nat by lia.
      eapply IH; [apply Hs; reflexivity | exact H].
Qed.

(** The state greedy decoding starts in. *)
Lemma greedy_start_shape :
  greedy_shape 0
    {| y_seq := repeat [eos self] bs; hyps_batch := [];
       ylens := repeat 0%nat bs; eos_flags := repeat false bs |}.
Proof.
  split; [|split; [reflexivity | intros _ refs b _ _; lia]].
  unfold batch_shape. cbn [y_seq ylens eos_flags hyps_batch].
  rewrite !repeat_length.
  split; [reflexivity|]. split; [reflexivity|]. split; [reflexivity|].
  intros b Hb. rewrite !nth_repeat. unfold row_shape, column. cbn.
  repeat split; auto.
Qed.

(** The hypothesis of utterance [b] before and after "Exclude <eos>". *)
Definition greedy_hyp (st : Greedy) (b : nat) : list nat :=
  let h := firstn (nth b (ylens st) 0%nat) (column b (hyps_batch st)) in
  if bwd self then rev h else h.

Definition greedy_stripped (st : Greedy) (b : nat) : list nat :=
  if nth b (eos_flags st) false
  then (if bwd self then tl (greedy_hyp st b)
        else removelast (greedy_hyp st b))
  else greedy_hyp st b.

(** What a call of [greedy] that returns has done. *)
Lemma greedy_ok (hs : list (list nat)) :
  greedy decoder_logits self eouts max_len_ratio exclude_eos oracle refs_id
  = Ok hs ->
  exists ytime st,
    greedy_ytime eouts max_len_ratio oracle refs_id = Ok ytime /\
    greedy_final (Z.to_nat ytime) st /\
    hyps_batch st <> [] /\
    hs = map (if exclude_eos then greedy_stripped st else greedy_hyp st)
           (seq 0 bs).
Proof.
  unfold greedy. intros H.
  apply bind_ok in H. destruct H as (ytime & Hy & H).
  apply bind_ok in H. destruct H as (st & Hst & H).
  apply bind_ok in H. destruct H as ([] & Hne & H).
  exists ytime, st. split; [exact Hy|].
  apply greedy_steps_shape in Hst; [|apply greedy_start_shape].
  cbn [Nat.add] in Hst. split; [exact Hst|].
  split; [intros E; rewrite E in Hne; discriminate|].
  injection H as <-. destruct exclude_eos; [|reflexivity].
  destruct Hst as ((_ & _ & Lf & _) & _).
  apply (nth_ext _ _ [] []).
  - rewrite zip_with_length_min, !length_map, length_seq. lia.
  - intros n Hn.
    rewrite zip_with_length_min, length_map, length_seq in Hn.
    rewrite (nth_zip_with _ _ _ _ [] false)
      by (rewrite ?length_map, ?length_seq; lia).
    rewrite !(nth_map_lt _ (seq 0 bs) 0%nat) by (rewrite length_seq; lia).
    rewrite seq_nth by lia. reflexivity.
Qed.

Lemma greedy_hyp_shape (t : nat) (st : Greedy) (b : nat) :
  greedy_final t st -> hyps_batch st <> [] -> (b < bs)%nat ->
  let inner (h : list nat) := if bwd self then tl h else removelast h in
  ~ In (eos self) (inner (greedy_hyp st b)) /\
  ~ In (eos self) (greedy_stripped st b) /\
  (1 <= length (greedy_hyp st b) <= length (hyps_batch st))%nat /\
  (length (greedy_stripped st b) <= length (hyps_batch st))%nat.
Proof.
  intros ((_ & _ & _ & Hrows) & _ & _) Hne Hb. cbv zeta.
  destruct (Hrows b Hb) as (H1 & H2 & H3).
  unfold greedy_stripped, greedy_hyp. cbv zeta.
  set (col := column b (hyps_batch st)) in *.
  set (ylen := nth b (ylens st) 0%nat) in *.
  assert (Lcol : length col = length (hyps_batch st))
    by (unfold col, column; apply length_map).
  assert (Lpos : (0 < length (hyps_batch st))%nat)
    by (destruct (hyps_batch st); [congruence | simpl; lia]).
  assert (Hrl : removelast (firstn ylen col) = firstn (ylen - 1) col).
  { destruct ylen as [|n]; [reflexivity|].
    rewrite removelast_firstn by lia. now rewrite Nat.sub_succ, Nat.sub_0_r. }
  assert (Htl : tl (rev (firstn ylen col)) = rev (firstn (ylen - 1) col)).
  { rewrite <- Hrl. destruct (firstn ylen col) as [|a l] eqn:E; [reflexivity|].
    assert (Hn : a :: l <> []) by discriminate.
    rewrite (app_removelast_last a Hn) at 1.
    now rewrite rev_app_distr. }
  assert (Hin1 : ~ In (eos self) (rev (firstn (ylen - 1) col)))
    by (intros Hin; apply in_rev in Hin; auto).
  assert (Llen : length (firstn ylen col) = ylen)
    by (rewrite length_firstn; lia).
  assert (Lrem : (length (firstn (ylen - 1) col) <= length (hyps_batch st))%nat)
    by (rewrite length_firstn; lia).
  destruct (nth b (eos_flags st) false).
  - destruct H3 as [H3 _].
    destruct (bwd self); rewrite ?Htl, ?Hrl, ?length_rev, ?Llen;
      repeat split; auto; lia.
  - destruct H3 as [H3 H4].
    assert (Hall : firstn ylen col = col)
      by (rewrite H3; apply firstn_all).
    assert (Hin2 : ~ In (eos self) (rev col))
      by (intros Hin; apply in_rev in Hin; auto).
    destruct (bwd self); rewrite ?Htl, ?Hrl, ?length_rev, ?Llen;
      rewrite ?Hall, ?length_rev; repeat split; auto; lia.
Qed.

(** X18. Greedy decoding cuts every hypothesis at its first end symbol: a
    call of [greedy] that returns gives one hypothesis per utterance of
    the batch, in which the end symbol can only be the last token (the
    first token for the backward decoder); with [exclude_eos] no
    hypothesis holds the end symbol. *)
Theorem greedy_cuts_at_the_end_symbol (hs : list (list nat))
  (Hcall :
     greedy decoder_logits self eouts max_len_ratio exclude_eos oracle refs_id
     = Ok hs) :
  length hs = length eouts /\
  forall h, In h hs ->
    if exclude_eos then ~ In (eos self) h
    else ~ In (eos self) (if bwd self then tl h else removelast h).
Proof.
  apply greedy_ok in Hcall.
  destruct Hcall as (ytime & st & _ & Hf & Hne & ->).
  split; [now rewrite length_map, length_seq|].
  intros h Hin. apply in_map_iff in Hin. destruct Hin as (b & <- & Hb).
  apply in_seq in Hb.
  destruct (greedy_hyp_shape _ st b Hf Hne) as (H1 & H2 & _); [lia|].
  destruct exclude_eos; assumption.
Qed.

(** X19. Greedy decoding keeps to its step budget: every hypothesis a call
    of [greedy] returns has at most [ytime] tokens, [ytime] being
    [floor(xtime * max_len_ratio) + 1], or the length of the longest
    reference plus one in oracle mode, and at least one token unless
    [exclude_eos] removes it.  In oracle mode no hypothesis is longer than
    any reference of the batch plus one. *)
Theorem greedy_keeps_to_the_budget (hs : list (list nat))
  (Hcall :
     greedy decoder_logits self eouts max_len_ratio exclude_eos oracle refs_id
     = Ok hs) :
  exists ytime,
    greedy_ytime eouts max_len_ratio oracle refs_id = Ok ytime /\
    forall h, In h hs ->
      (length h <= Z.to_nat ytime)%nat /\
      (exclude_eos = false -> (1 <= length h)%nat) /\
      (oracle = true ->
       forall refs b, refs_id = Some refs -> (b < length eouts)%nat ->
         (length h <= S (length (nth b refs [])))%nat).
Proof.
  apply greedy_ok in Hcall.
  destruct Hcall as (ytime & st & Hy & Hf & Hne & ->).
  exists ytime. split; [exact Hy|].
  intros h Hin. apply in_map_iff in Hin. destruct Hin as (b & <- & Hb).
  apply in_seq in Hb.
  destruct (greedy_hyp_shape _ st b Hf Hne) as (_ & _ & H3 & H4); [lia|].
  destruct Hf as (_ & Hlen & Href).
  assert (Hh : (length ((if exclude_eos then greedy_stripped st
                         else greedy_hyp st) b)
                <= length (hyps_batch st))%nat)
    by (destruct exclude_eos; lia).
  split; [lia|]. split.
  - intros ->. lia.
  - intros Ho refs b' Hr Hb'. specialize (Href Ho refs b' Hr Hb'). lia.
Qed.

End GreedyShape.

(** Two utterances decoded together, the end symbol excluded. *)
Lemma greedy_cuts_at_the_end_symbol_witness :
  exists hs,
    TransformerDecoder.greedy Examples.toy_logits Examples.toy_self
      [[tt; tt; tt; tt]; [tt; tt; tt; tt]] 1 true false None = Ok hs /\
    length hs = length [[tt; tt; tt; tt]; [tt; tt; tt; tt]] /\
    forall h, In h hs -> ~ In (TransformerDecoder.eos Examples.toy_self) h.
Proof.
  eexists. split; [vm_compute; reflexivity|].
  apply (greedy_cuts_at_the_end_symbol unit nat Examples.toy_logits
           Examples.toy_self [[tt; tt; tt; tt]; [tt; tt; tt; tt]] 1 true false
           None).
  vm_compute. reflexivity.
Defined.

(** Teacher forcing with two references of two tokens. *)
Lemma greedy_keeps_to_the_budget_witness :
  exists hs ytime,
    TransformerDecoder.greedy Examples.toy_logits Examples.toy_self
      [[tt; tt; tt; tt]; [tt; tt; tt; tt]] 1 false true
      (Some [[1; 3]; [3; 1]]%nat) = Ok hs /\
    TransformerDecoder.greedy_ytime [[tt; tt; tt; tt]; [tt; tt; tt; tt]] 1
      true (Some [[1; 3]; [3; 1]]%nat) = Ok ytime /\
    forall h, In h hs ->
      (length h <= Z.to_nat ytime)%nat /\
      (false = false -> (1 <= length h)%nat) /\
      (true = true ->
       forall refs b, Some [[1; 3]; [3; 1]]%nat = Some refs ->
         (b < length [[tt; tt; tt; tt]; [tt; tt; tt; tt]])%nat ->
         (length h <= S (length (nth b refs [])))%nat).
Proof.
  eexists. 
  assert (H : TransformerDecoder.greedy Examples.toy_logits Examples.toy_self
                [[tt; tt; tt; tt]; [tt; tt; tt; tt]] 1 false true
                (Some [[1; 3]; [3; 1]]%nat)
              = Ok [[1; 3; 2]; [1; 3; 2]]%nat)
    by (vm_compute; reflexivity).
  destruct (greedy_keeps_to_the_budget unit nat Examples.toy_logits
              Examples.toy_self [[tt; tt; tt; tt]; [tt; tt; tt; tt]] 1 false
              true (Some [[1; 3]; [3; 1]]%nat) _ H) as (ytime & Hy & Hb).
  exists ytime. split; [exact H|]. split; [exact Hy | exact Hb].
Defined.

(** ** Hard attention at the first call *)

Section FirstCall.

Variable sigmoid : Q -> Q.

Lemma default_aw_prev_one_hot (klen : nat) :
  (0 < klen)%nat -> MoChA.default_aw_prev klen = MoChA.one_hot klen 0.
Proof.
  destruct klen as [|k]; [lia|]. intros _.
  unfold MoChA.default_aw_prev, MoChA.one_hot. cbn [repeat app].
  replace (S k - 1)%nat with k by lia. reflexivity.
Qed.

(** X20. Without a previous attention ([aw_prev=None]) hard attention
    starts from the first frame: for every row of the batch [alpha] is
    one-hot at the first frame whose sigmoid monotonic energy is at least
    one half, and all zeros when no frame reaches one half. *)
Theorem first_call_attends_from_the_start (e_mono : list (list Q)) (b : nat)
  (e : list Q) (Hrow : nth_error e_mono b = Some e) :
  exists alpha,
    nth_error (MoChA.forward_hard sigmoid e_mono None) b = Some alpha /\
    ((exists j, attends sigmoid e 0 j /\
                alpha = MoChA.one_hot (length e) j) \/
     ((forall k, (k < length e)%nat -> ~ 1 # 2 <= sigmoid (nth k e 0)) /\
      alpha = MoChA.zeros (length e))).
Proof.
  exists (MoChA.hard_alpha sigmoid e (MoChA.default_aw_prev (length e))).
  split.
  - unfold MoChA.forward_hard. apply nth_error_zip_with; [exact Hrow|].
    rewrite nth_error_map, Hrow. reflexivity.
  - destruct e as [|x r].
    + right. split; [intros k Hk; simpl in Hk; lia | reflexivity].
    + rewrite default_aw_prev_one_hot by (simpl; lia).
      destruct (hard_alpha_from_frame sigmoid (x :: r) 0)
        as [(j & Hj & Ha) | (Hnone & Ha)]; [simpl; lia | |].
      * left. exists j. auto.
      * right. split; [|exact Ha]. intros k Hk. apply Hnone. lia.
Qed.

End FirstCall.

(** Two utterances of four frames at the first decoding step. *)
Lemma first_call_attends_from_the_start_witness :
  exists alpha,
    nth_error
      (MoChA.forward_hard Examples.sigmoid [[-1; 2; -3; 1]; [-1; -1; -1; -1]]
         None) 0 = Some alpha /\
    ((exists j, attends Examples.sigmoid [-1; 2; -3; 1] 0 j /\
                alpha = MoChA.one_hot 4 j) \/
     ((forall k, (k < 4)%nat ->
         ~ 1 # 2 <= Examples.sigmoid (nth k [-1; 2; -3; 1] 0)) /\
      alpha = MoChA.zeros 4)).
Proof.
  apply (first_call_attends_from_the_start Examples.sigmoid
           [[-1; 2; -3; 1]; [-1; -1; -1; -1]] 0 [-1; 2; -3; 1]).
  reflexivity.
Defined.

(** ** Adaptive chunkwise attention *)

Lemma mocha_argmax_from_bound (row : list Q) : forall i j y,
  MoChA.argmax_from i row = Some (j, y) -> (i <= j < i + length row)%nat.
Proof.
  induction row as [|x r IH]; intros i j y H; [discriminate|].
  cbn [MoChA.argmax_from] in H.
  destruct (MoChA.argmax_from (S i) r) as [[j' y']|] eqn:E.
  - specialize (IH _ _ _ E).
    destruct (Qle_bool y' x); injection H as <- <-; simpl; lia.
  - injection H as <- <-. simpl. lia.
Qed.

Lemma mocha_argmax_ok (row : list Q) :
  row <> [] ->
  exists i, MoChA.argmax row = Ok i /\ (i < length row)%nat.
Proof.
  intros H. unfold MoChA.argmax.
  destruct (MoChA.argmax_from 0 row) as [[i y]|] eqn:E.
  - exists i. split; [reflexivity|].
    apply mocha_argmax_from_bound in E. lia.
  - destruct row as [|x r]; [congruence|]. cbn [MoChA.argmax_from] in E.
    destruct (MoChA.argmax_from 1 r) as [[j' y']|]; [|discriminate].
    destruct (Qle_bool y' x); discriminate.
Qed.

Section AdaptiveMass.

Variable exp : Q -> Q.

(** The adaptive variant is the fixed one at the chunk length of the
    frame with the most attention. *)
Lemma adaptive_is_chunkwise (alpha e : list Q) (chunk_len_dist : list nat)
  (sf : Q) (boundary chunk_len : nat) :
  e <> [] ->
  MoChA.argmax alpha = Ok boundary ->
  nth_error chunk_len_dist boundary = Some chunk_len ->
  MoChA.efficient_adaptive_chunkwise_attention exp alpha e chunk_len_dist sf
  = MoChA.efficient_chunkwise_attention exp alpha e chunk_len sf.
Proof.
  intros He Ha Hc.
  unfold MoChA.efficient_adaptive_chunkwise_attention,
    MoChA.efficient_chunkwise_attention.
  destruct (softmax_exp_ok exp e He) as (s & -> & _).
  cbn [bind]. rewrite Ha. cbn [bind]. unfold index. rewrite Hc. reflexivity.
Qed.

(** X21. [efficient_adaptive_chunkwise_attention] keeps the amount of
    attention as the fixed variant does: for rows of the same length that
    are not empty and chunk lengths of at least 1, one per frame, the
    entries of [beta] add up to [sharpening_factor] times the sum of the
    entries of [alpha], and the chunk length in use is the one of the
    frame where [alpha] is largest. *)
Theorem adaptive_chunkwise_attention_keeps_the_mass (alpha e : list Q)
  (chunk_len_dist : list nat) (sharpening_factor : Q)
  (Hlen : length alpha = length e) (He : e <> [])
  (Hdist : length chunk_len_dist = length e)
  (Hpos : Forall (fun n => (1 <= n)%nat) chunk_len_dist) :
  exists beta boundary chunk_len,
    MoChA.efficient_adaptive_chunkwise_attention exp alpha e chunk_len_dist
      sharpening_factor = Ok beta /\
    MoChA.argmax alpha = Ok boundary /\
    nth_error chunk_len_dist boundary = Some chunk_len /\
    MoChA.efficient_chunkwise_attention exp alpha e chunk_len
      sharpening_factor = Ok beta /\
    length beta = length e /\
    Qsum beta == sharpening_factor * Qsum alpha.
Proof.
  assert (Ha : alpha <> [])
    by (intros E; rewrite E in Hlen; destruct e; [congruence | discriminate]).
  destruct (mocha_argmax_ok alpha Ha) as (boundary & Hb & Hlt).
  destruct (nth_error chunk_len_dist boundary) as [chunk_len|] eqn:Ec.
  2:{ apply nth_error_None in Ec. lia. }
  assert (Hc : (1 <= chunk_len)%nat).
  { apply nth_error_In in Ec.
    exact (proj1 (Forall_forall _ _) Hpos chunk_len Ec). }
  destruct (chunkwise_entries exp alpha e chunk_len sharpening_factor
              Hc Hlen He)
    as (s & den & beta & _ & _ & Hbeta & Ls & Ld & Lb & Ps & Hden & Hent).
  exists beta, boundary, chunk_len.
  split; [rewrite (adaptive_is_chunkwise _ _ _ _ _ _ He Hb Ec); exact Hbeta|].
  split; [exact Hb|]. split; [exact Ec|]. split; [exact Hbeta|].
  split; [exact Lb|].
  exact (chunk_sum_exchange alpha s den beta chunk_len (length e)
           sharpening_factor Hlen Lb Hden Hent).
Qed.

End AdaptiveMass.

(** Four frames; the second one has the most attention and a chunk of
    three frames. *)
Lemma adaptive_chunkwise_attention_keeps_the_mass_witness :
  exists beta boundary chunk_len,
    MoChA.efficient_adaptive_chunkwise_attention Examples.exp
      [1 # 4; 1 # 2; 1 # 4; 0] [1; 3; 2; 0] [1; 3; 2; 1]%nat 1 = Ok beta /\
    MoChA.argmax [1 # 4; 1 # 2; 1 # 4; 0] = Ok boundary /\
    nth_error [1; 3; 2; 1]%nat boundary = Some chunk_len /\
    MoChA.efficient_chunkwise_attention Examples.exp
      [1 # 4; 1 # 2; 1 # 4; 0] [1; 3; 2; 0] chunk_len 1 = Ok beta /\
    length beta = length [1; 3; 2; 0] /\
    Qsum beta == 1 * Qsum [1 # 4; 1 # 2; 1 # 4; 0].
Proof.
  apply (adaptive_chunkwise_attention_keeps_the_mass Examples.exp
           [1 # 4; 1 # 2; 1 # 4; 0] [1; 3; 2; 0] [1; 3; 2; 1]%nat 1).
  - reflexivity.
  - discriminate.
  - reflexivity.
  - repeat constructor.
Defined.

(** ** The training loss of the transformer decoder *)

Section TransformerLoss.

Import TransformerForward.

Variables Eouts Ys : Type.
Variable ctc : Eouts -> list nat -> Ys -> Q.
Variable forward_att : Eouts -> list nat -> Ys -> Q * Q * Q.

Lemma Qlt_bool_cases (x : Q) :
  (0 < x /\ Qlt_bool 0 x = true) \/ (x <= 0 /\ Qlt_bool 0 x = false).
Proof.
  destruct (Qlt_le_dec 0 x) as [H | H].
  - left. split; [exact H | now apply Qlt_bool_true].
  - right. split; [exact H | now apply Qlt_bool_false].
Qed.

(** X23. [TransformerDecoder.forward] on a task other than ['all'] trains
    one output only.  A task with ['ctc'] in its name never calls
    [forward_att]: the loss is the CTC loss, times [ctc_weight] unless
    [mtl_per_batch] is set, and it is 0 with nothing observed when
    [ctc_weight] is not positive.  A task without ['ctc'] in its name never
    calls the CTC layer: the loss is the attention loss, times
    [global_weight - ctc_weight] unless [mtl_per_batch] is set, and it is 0
    with nothing observed when [global_weight - ctc_weight] is not
    positive.  In every case [observation['loss']] is the returned loss and
    [observation['loss_mbr']] stays [None]. *)
Theorem forward_trains_one_output_per_task (self : Self) (eouts : Eouts)
  (elens : list nat) (ys : Ys) (task : string)
  (Htask : task <> "all"%string) :
  let r := forward ctc forward_att self eouts elens ys task in
  let w_ctc := ctc_weight self in
  let w_att := global_weight self - ctc_weight self in
  let loss_ctc' := ctc eouts elens ys in
  let att := forward_att eouts elens ys in
  loss (snd r) = Some (fst r) /\
  loss_mbr (snd r) = None /\
  (contains "ctc" task = true ->
     loss_att (snd r) = None /\ acc_att (snd r) = None /\
     ppl_att (snd r) = None /\
     (0 < w_ctc ->
        loss_ctc (snd r) = Some loss_ctc' /\
        fst r == if mtl_per_batch self then loss_ctc'
                 else loss_ctc' * w_ctc) /\
     (w_ctc <= 0 -> loss_ctc (snd r) = None /\ fst r = 0)) /\
  (contains "ctc" task = false ->
     loss_ctc (snd r) = None /\
     (0 < w_att ->
        loss_att (snd r) = Some (fst (fst att)) /\
        acc_att (snd r) = Some (snd (fst att)) /\
        ppl_att (snd r) = Some (snd att) /\
        fst r == if mtl_per_batch self then fst (fst att)
                 else fst (fst att) * w_att) /\
     (w_att <= 0 ->
        loss_att (snd r) = None /\ acc_att (snd r) = None /\
        ppl_att (snd r) = None /\ fst r = 0)).
Proof.
  apply String.eqb_neq in Htask.
  unfold forward. rewrite Htask. cbn [orb].
  destruct (forward_att eouts elens ys) as [[loss_att' acc_att'] ppl_att'].
  destruct (contains "ctc" task); cbn [negb andb];
    rewrite andb_false_r, andb_true_r.
  - destruct (Qlt_bool_cases (ctc_weight self)) as [[Hw ->] | [Hw ->]];
      cbn [fst snd loss loss_att loss_ctc loss_mbr acc_att ppl_att option_map];
      (split; [reflexivity|]); (split; [reflexivity|]);
      (split; [intros _ | intros H; discriminate H]);
      (split; [reflexivity|]); (split; [reflexivity|]);
      (split; [reflexivity|]); split; intros Hc.
    + split; [reflexivity|]. destruct (mtl_per_batch self); ring.
    + exfalso. apply (Qlt_irrefl 0). eapply Qlt_le_trans; eassumption.
    + exfalso. apply (Qlt_irrefl 0). eapply Qlt_le_trans; eassumption.
    + split; reflexivity.
  - destruct (Qlt_bool_cases (global_weight self - ctc_weight self))
      as [[Hw ->] | [Hw ->]];
      cbn [fst snd loss loss_att loss_ctc loss_mbr acc_att ppl_att option_map];
      (split; [reflexivity|]); (split; [reflexivity|]);
      (split; [intros H; discriminate H | intros _]);
      (split; [reflexivity|]); split; intros Hc.
    + repeat (split; [reflexivity|]). destruct (mtl_per_batch self); ring.
    + exfalso. apply (Qlt_irrefl 0). eapply Qlt_le_trans; eassumption.
    + exfalso. apply (Qlt_irrefl 0). eapply Qlt_le_trans; eassumption.
    + repeat split; reflexivity.
Qed.

End TransformerLoss.

(** A CTC task of a decoder that gives the CTC loss a weight of 3/10:
    the CTC loss of 3 counts 9/10, the attention loss is not computed. *)
Lemma forward_trains_one_output_per_task_witness :
  exists l obs,
    TransformerForward.forward
      (fun (_ : unit) (_ : list nat) (_ : unit) => 3)
      (fun (_ : unit) (_ : list nat) (_ : unit) => (2, 1 # 2, 4))
      {| TransformerForward.ctc_weight := 3 # 10;
         TransformerForward.global_weight := 1;
         TransformerForward.mtl_per_batch := false |}
      tt [4%nat] tt "ys.ctc" = (l, obs) /\
    TransformerForward.loss obs = Some l /\
    TransformerForward.loss_mbr obs = None /\
    (TransformerForward.contains "ctc" "ys.ctc" = true ->
       TransformerForward.loss_att obs = None /\
       TransformerForward.acc_att obs = None /\
       TransformerForward.ppl_att obs = None /\
       (0 < 3 # 10 ->
          TransformerForward.loss_ctc obs = Some 3 /\ l == 3 * (3 # 10)) /\
       (3 # 10 <= 0 -> TransformerForward.loss_ctc obs = None /\ l = 0)) /\
    (TransformerForward.contains "ctc" "ys.ctc" = false ->
       TransformerForward.loss_ctc obs = None /\
       (0 < 1 - (3 # 10) ->
          TransformerForward.loss_att obs = Some 2 /\
          TransformerForward.acc_att obs = Some (1 # 2) /\
          TransformerForward.ppl_att obs = Some 4 /\
          l == 2 * (1 - (3 # 10))) /\
       (1 - (3 # 10) <= 0 ->
          TransformerForward.loss_att obs = None /\
          TransformerForward.acc_att obs = None /\
          TransformerForward.ppl_att obs = None /\ l = 0)).
Proof.
  eexists. eexists. split; [vm_compute; reflexivity|].
  apply (forward_trains_one_output_per_task unit unit
           (fun _ _ _ => 3) (fun _ _ _ => (2, 1 # 2, 4))
           {| TransformerForward.ctc_weight := 3 # 10;
              TransformerForward.global_weight := 1;
              TransformerForward.mtl_per_batch := false |}
           tt [4%nat] tt "ys.ctc").
  discriminate.
Defined.
